(** * A shallow embedding of the turn-based relay server (server.py)

    The development follows the source file from top to bottom: the
    [Lobby] class with its class-level registry [Lobby.lobbies], the
    [NewlineReceiver], and the [ClientThread] with its message handlers
    and its [run] loop.

    Modelling conventions.
    - Python objects that are shared and mutated (lobbies, client
      threads) live in a store and are referred to by index, so that two
      references to one lobby see the same membership.
    - A Python [dict] whose iteration order is observable ([Lobby.clients],
      the decoded message [d]) is an insertion-ordered association list
      with unique keys; the registry [Lobby.lobbies], which is only looked
      up, inserted into and deleted from, is a [gmap].
    - Exceptions are values of [exn]; a computation returns the store it
      has reached together with either its value or the exception it
      raised, since the mutations done before a [raise] persist.
    - [ClientThread] is a [threading.Thread], whose [name] is a property:
      what is assigned to it is stored as [str] of it.  So the name of a
      thread is a string from the start (["None"], which is
      [str(None)]), and the tests [self.name is None] of the handlers
      never succeed.
    - [game_version] and the [version] of a lobby are [None] or a string,
      and the [code] of a join is taken as it comes.  A message that
      puts another JSON value into [game_version], or a name whose [str]
      is not modelled (a float, a list, an object), is outside the model
      (the computation is undefined, [None]).
    - One iteration of [ClientThread.run] is one atomic step; the
      interleaving of the threads is the order of the steps. *)

From Stdlib Require Import Strings.Ascii Strings.String Strings.Byte.
From stdpp Require Import gmap strings list fin_maps pretty.

Set Warnings "-register-all".

(** ** JSON values and Python dictionaries *)

(** What [json.loads] builds.  A number with a fraction or an exponent is
    kept as the literal it was read from: the server only relays it. *)
Inductive json : Type :=
  | JNull
  | JBool (b : bool)
  | JNum (n : Z)
  | JFloat (lit : string)
  | JStr (s : string)
  | JArr (xs : list json)
  | JObj (kvs : list (string * json)).

Section PyDict.
Context {V : Type}.

(** [k in d] and [d[k]] *)
Fixpoint dict_get (k : string) (d : list (string * V)) : option V :=
  match d with
  | [] => None
  | (k', v) :: rest => if decide (k = k') then Some v else dict_get k rest
  end.

(** [d[k] = v]: an existing key keeps its place, a new key goes last. *)
Fixpoint dict_set (k : string) (v : V) (d : list (string * V)) : list (string * V) :=
  match d with
  | [] => [(k, v)]
  | (k', v') :: rest =>
      if decide (k = k') then (k', v) :: rest else (k', v') :: dict_set k v rest
  end.

Definition dict_has (k : string) (d : list (string * V)) : bool :=
  match dict_get k d with Some _ => true | None => false end.

Definition dict_keys (d : list (string * V)) : list string := d.*1.
Definition dict_values (d : list (string * V)) : list V := d.*2.
End PyDict.

Abbreviation dict := (list (string * json)).

(** ** Exceptions *)

Inductive exn : Type :=
  | KeyError
  | TypeError
  | AttributeError
  | OSError
  | JSONDecodeError
  | UnicodeDecodeError
  | LobbyDoesntExistException
  | LobbyFullException
  | MismatchedVersionException (arg : option string)
  | AlreadyConnectedException.

Inductive result (A : Type) : Type :=
  | Return (a : A)
  | Raise (e : exn).
Arguments Return {A} a.
Arguments Raise {A} e.

(** ** The store *)

Abbreviation tid := nat (only parsing).   (* a ClientThread object *)
Abbreviation lid := nat (only parsing).   (* a Lobby object *)

(** [Lobby.__init__]: a tombstone is the value [None] under a name. *)
Record Lobby : Type := mkLobby {
  code : string;
  version : option string;
  clients : list (string * option tid);
  max_players : nat
}.

Inductive liveness : Type :=
  | Running                 (* inside the loop of [run] *)
  | Finished                (* [run] returned *)
  | Crashed (e : exn).      (* [run] was left by an uncaught exception *)

(** [ClientThread.__init__]; [buffer] is [self.recv.buffer] and
    [socket_closed] tells whether [client_socket.close()] was called.
    [name] is the property of [threading.Thread]; it is kept as an
    optional string because the handlers test it against [None], though
    no assignment can make it [None]. *)
Record ClientThread : Type := mkClientThread {
  buffer : list byte;
  name : option string;
  game_version : option string;
  lobby : option lid;
  socket_closed : bool;
  alive : liveness
}.

(** What the outside sees, in order: a frame handed to [send_json] of a
    client (its bytes on the wire are [json.dumps] of it and a newline),
    and the closing of a client's socket. *)
Inductive event : Type :=
  | Sent (to : tid) (d : dict)
  | SocketClosed (t : tid).

Record World : Type := mkWorld {
  lobbies : gmap string lid;     (* Lobby.lobbies, by reference *)
  heap : list Lobby;             (* the Lobby objects allocated so far *)
  threads : list ClientThread;   (* the ClientThread objects accepted so far *)
  wire : list event;
  random : list nat              (* the indices [random.choice] will pick *)
}.

Definition set_lobbies (f : gmap string lid → gmap string lid) (w : World) : World :=
  mkWorld (f (lobbies w)) (heap w) (threads w) (wire w) (random w).
Definition set_heap (f : list Lobby → list Lobby) (w : World) : World :=
  mkWorld (lobbies w) (f (heap w)) (threads w) (wire w) (random w).
Definition set_threads (f : list ClientThread → list ClientThread) (w : World) : World :=
  mkWorld (lobbies w) (heap w) (f (threads w)) (wire w) (random w).
Definition set_wire (f : list event → list event) (w : World) : World :=
  mkWorld (lobbies w) (heap w) (threads w) (f (wire w)) (random w).
Definition set_random (f : list nat → list nat) (w : World) : World :=
  mkWorld (lobbies w) (heap w) (threads w) (wire w) (f (random w)).

Definition set_clients (cs : list (string * option tid)) (L : Lobby) : Lobby :=
  mkLobby (code L) (version L) cs (max_players L).

Definition set_buffer (b : list byte) (th : ClientThread) : ClientThread :=
  mkClientThread b (name th) (game_version th) (lobby th) (socket_closed th) (alive th).
Definition set_name (n : option string) (th : ClientThread) : ClientThread :=
  mkClientThread (buffer th) n (game_version th) (lobby th) (socket_closed th) (alive th).
Definition set_game_version (v : option string) (th : ClientThread) : ClientThread :=
  mkClientThread (buffer th) (name th) v (lobby th) (socket_closed th) (alive th).
Definition set_lobby (l : option lid) (th : ClientThread) : ClientThread :=
  mkClientThread (buffer th) (name th) (game_version th) l (socket_closed th) (alive th).
Definition set_socket_closed (b : bool) (th : ClientThread) : ClientThread :=
  mkClientThread (buffer th) (name th) (game_version th) (lobby th) b (alive th).
Definition set_alive (a : liveness) (th : ClientThread) : ClientThread :=
  mkClientThread (buffer th) (name th) (game_version th) (lobby th) (socket_closed th) a.

(** ** Computations over the store

    [None] is a computation the model does not follow to its end: the
    random tape or the socket script is used up, a reference is
    dangling, or a [str]-annotated field holds another type. *)
Definition M (A : Type) : Type := World → option (World * result A).

Definition ret {A} (a : A) : M A := λ w, Some (w, Return a).
Definition raise {A} (e : exn) : M A := λ w, Some (w, Raise e).
Definition undefined {A} : M A := λ _, None.
Definition bind {A B} (c : M A) (k : A → M B) : M B := λ w,
  match c w with
  | None => None
  | Some (w', Return a) => k a w'
  | Some (w', Raise e) => Some (w', Raise e)
  end.
(** [try: c  except ...: h e], where [h e = None] for an exception that
    no clause matches *)
Definition try_except {A} (c : M A) (h : exn → option (M A)) : M A := λ w,
  match c w with
  | None => None
  | Some (w', Return a) => Some (w', Return a)
  | Some (w', Raise e) =>
      match h e with
      | Some handler => handler w'
      | None => Some (w', Raise e)
      end
  end.

Declare Scope py_scope.
Delimit Scope py_scope with py.
Notation "x <- c ;; k" := (bind c (λ x, k))
  (at level 100, c at next level, right associativity) : py_scope.
Notation "c ;; k" := (bind c (λ _, k))
  (at level 100, right associativity) : py_scope.
Local Open Scope py_scope.

Definition get_world : M World := λ w, Some (w, Return w).
Definition modify (f : World → World) : M unit := λ w, Some (f w, Return tt).
Definition get_lobby (l : lid) : M Lobby := λ w,
  match heap w !! l with Some L => Some (w, Return L) | None => None end.
Definition get_thread (t : tid) : M ClientThread := λ w,
  match threads w !! t with Some th => Some (w, Return th) | None => None end.
Definition update_lobby (l : lid) (f : Lobby → Lobby) : M unit :=
  L <- get_lobby l ;; modify (set_heap (λ h, <[l := f L]> h)).
Definition update_thread (t : tid) (f : ClientThread → ClientThread) : M unit :=
  th <- get_thread t ;; modify (set_threads (λ ts, <[t := f th]> ts)).

(** ** ClientThread.send_json

    [send_string] encodes [json.dumps d] and a newline and hands it to
    [socket.send], which raises [OSError] on a socket that was closed. *)
Definition send_json (t : tid) (d : dict) : M unit :=
  th <- get_thread t ;;
  if socket_closed th then raise OSError
  else modify (set_wire (λ evs, (evs ++ [Sent t d])%list)).

Definition connect_frame (n : string) : dict :=
  [("action", JStr "connect"); ("name", JStr n)].

Definition error_frame (type : string) : dict :=
  [("action", JStr "error"); ("type", JStr type)].

(** ** class Lobby *)

(** [Lobby.message]: [client_thread not in exclude] compares thread
    objects, so a tombstone ([None]) is never found in [exclude], and
    [None.send_json] raises [AttributeError]. *)
Definition not_in_exclude (client_thread : option tid) (exclude : list tid) : bool :=
  match client_thread with
  | Some t => negb (bool_decide (t ∈ exclude))
  | None => true
  end.

Fixpoint message_items (items : list (string * option tid)) (d : dict)
    (exclude : list tid) : M unit :=
  match items with
  | [] => ret tt
  | (_, client_thread) :: rest =>
      (if not_in_exclude client_thread exclude then
         match client_thread with
         | Some t => send_json t d
         | None => raise AttributeError
         end
       else ret tt) ;;
      message_items rest d exclude
  end.

Definition Lobby_message (l : lid) (d : dict) (exclude : list tid) : M unit :=
  L <- get_lobby l ;;
  message_items (clients L) d exclude.

Definition is_tombstone (c : option tid) : bool :=
  match c with None => true | Some _ => false end.

(** [del self.lobbies[self.code]] *)
Definition del_lobbies (c : string) : M unit :=
  w <- get_world ;;
  match lobbies w !! c with
  | None => raise KeyError
  | Some _ => modify (set_lobbies (delete c))
  end.

Fixpoint disconnect_items (items : list (string * option tid)) (n : string) : M unit :=
  match items with
  | [] => ret tt
  | (_, client_thread) :: rest =>
      match client_thread with
      | Some t => send_json t [("action", JStr "disconnect"); ("name", JStr n)]
      | None => ret tt
      end ;;
      disconnect_items rest n
  end.

Definition Lobby_disconnect (l : lid) (n : string) : M unit :=
  update_lobby l (λ L, set_clients (dict_set n None (clients L)) L) ;;
  L <- get_lobby l ;;
  (if forallb is_tombstone (dict_values (clients L))
   then del_lobbies (code L) else ret tt) ;;
  disconnect_items (clients L) n.

(** [Lobby.connect]; [client_thread.name] is a string, see
    [new_ClientThread]. *)
Definition Lobby_connect (l : lid) (t : tid) : M unit :=
  th <- get_thread t ;;
  match name th with
  | None => undefined
  | Some n =>
      update_lobby l (λ L, set_clients (dict_set n (Some t) (clients L)) L) ;;
      Lobby_message l (connect_frame n) []
  end.

Definition ascii_uppercase : string := "ABCDEFGHIJKLMNOPQRSTUVWXYZ".

(** [random.choice(seq)] is [seq[i]] for an index [i] below [len(seq)]
    drawn by the generator; the tape holds the draws. *)
Definition random_choice (seq : string) (i : nat) : ascii :=
  match String.get (i mod String.length seq) seq with
  | Some c => c
  | None => Ascii.zero
  end.

Definition code_of_draws (a b c d : nat) : string :=
  String (random_choice ascii_uppercase a)
    (String (random_choice ascii_uppercase b)
       (String (random_choice ascii_uppercase c)
          (String (random_choice ascii_uppercase d) EmptyString))).

(** The [while True] loop of [generate_code]: four draws a round, until
    the code is not a key of the registry. *)
Fixpoint generate_code_loop (reg : gmap string lid) (tape : list nat)
    : option (string * list nat) :=
  match tape with
  | a :: b :: c :: d :: rest =>
      let code := code_of_draws a b c d in
      match reg !! code with
      | None => Some (code, rest)
      | Some _ => generate_code_loop reg rest
      end
  | _ => None
  end.

Definition Lobby_generate_code : M string := λ w,
  match generate_code_loop (lobbies w) (random w) with
  | Some (c, rest) => Some (set_random (λ _, rest) w, Return c)
  | None => None
  end.

(** [cls(code, version)]: a new object, at the next free index. *)
Definition new_Lobby (c : string) (v : option string) : M lid := λ w,
  Some (set_heap (λ h, (h ++ [mkLobby c v [] 2])%list) w, Return (length (heap w))).

Definition Lobby_create (t : tid) (v : option string) : M lid :=
  c <- Lobby_generate_code ;;
  l <- new_Lobby c v ;;
  modify (set_lobbies (<[c := l]>)) ;;
  Lobby_connect l t ;;
  Lobby_message l [("action", JStr "code"); ("code", JStr c)] [] ;;
  ret l.

Definition Lobby_join (t : tid) (c : string) (v : option string) : M lid :=
  w <- get_world ;;
  match lobbies w !! c with
  | None => raise LobbyDoesntExistException
  | Some l =>
      L <- get_lobby l ;;
      if negb (bool_decide (version L = v))
      then raise (MismatchedVersionException (version L))
      else
        th <- get_thread t ;;
        match name th with
        | None => undefined
        | Some n =>
            if dict_has n (clients L)
               && negb (bool_decide (dict_get n (clients L) = Some None))
            then raise AlreadyConnectedException
            else if negb (dict_has n (clients L))
                    && bool_decide (max_players L ≤ length (clients L))%nat
            then raise LobbyFullException
            else Lobby_connect l t ;; ret l
        end
  end.

(** ** class NewlineReceiver *)

(** What one [client_socket.recv(1024)] does: it returns bytes (none when
    the peer has closed) or raises [ConnectionResetError]. *)
Inductive recv_result : Type :=
  | RecvData (data : list byte)
  | RecvReset.

Definition delimiter : byte := x0a.

Definition has_delimiter (b : list byte) : bool :=
  existsb (Byte.eqb delimiter) b.

(** [bytes.partition(delimiter)]: what is before the first delimiter and
    what is after it (all of it and nothing when there is none). *)
Fixpoint bytes_partition (b : list byte) : list byte * list byte :=
  match b with
  | [] => ([], [])
  | x :: rest =>
      if Byte.eqb delimiter x then ([], rest)
      else let '(line, after) := bytes_partition rest in (x :: line, after)
  end.

(** The [while delimiter not in self.buffer] loop over the successive
    results of [recv]: [Some (true, _, _)] when the loop is left with a
    delimiter in the buffer, [Some (false, _, _)] when [__call__]
    returns [None], and [None] while the socket has nothing more to
    give (the call blocks). *)
Fixpoint recv_loop (sock : list recv_result) (buf : list byte)
    : option (bool * list byte * list recv_result) :=
  if has_delimiter buf then Some (true, buf, sock)
  else
    match sock with
    | [] => None
    | RecvReset :: rest => Some (false, buf, rest)
    | RecvData [] :: rest => Some (false, buf, rest)
    | RecvData data :: rest => recv_loop rest (buf ++ data)
    end.

(** [bytes.decode('utf-8')].  A [str] is represented by its UTF-8
    encoding, so decoding checks that the bytes are well-formed UTF-8
    (Unicode 15, table 3-7) and keeps them. *)
Definition byte_in (lo hi : N) (b : byte) : bool :=
  ((lo <=? Byte.to_N b) && (Byte.to_N b <=? hi))%N.

Definition continuation (b : byte) : bool := byte_in 128 191 b.

Fixpoint utf8_valid (bs : list byte) : bool :=
  match bs with
  | [] => true
  | b0 :: r0 =>
      if byte_in 0 127 b0 then utf8_valid r0
      else
        match r0 with
        | [] => false
        | b1 :: r1 =>
            if byte_in 194 223 b0 then continuation b1 && utf8_valid r1
            else
              match r1 with
              | [] => false
              | b2 :: r2 =>
                  if byte_in 224 224 b0 then byte_in 160 191 b1 && continuation b2 && utf8_valid r2
                  else if byte_in 225 236 b0 then continuation b1 && continuation b2 && utf8_valid r2
                  else if byte_in 237 237 b0 then byte_in 128 159 b1 && continuation b2 && utf8_valid r2
                  else if byte_in 238 239 b0 then continuation b1 && continuation b2 && utf8_valid r2
                  else
                    match r2 with
                    | [] => false
                    | b3 :: r3 =>
                        if byte_in 240 240 b0 then
                          byte_in 144 191 b1 && continuation b2 && continuation b3 && utf8_valid r3
                        else if byte_in 241 243 b0 then
                          continuation b1 && continuation b2 && continuation b3 && utf8_valid r3
                        else if byte_in 244 244 b0 then
                          byte_in 128 143 b1 && continuation b2 && continuation b3 && utf8_valid r3
                        else false
                    end
              end
        end
  end.

Definition decode_utf8 (bs : list byte) : result string :=
  if utf8_valid bs then Return (string_of_list_byte bs) else Raise UnicodeDecodeError.

(** [NewlineReceiver.__call__]: the value returned or the exception
    raised, the buffer left behind, and what the socket has not yet
    been asked for. *)
Definition NewlineReceiver_call (sock : list recv_result) (buf : list byte)
    : option (result (option string) * list byte * list recv_result) :=
  match recv_loop sock buf with
  | None => None
  | Some (false, buf', rest) => Some (Return None, buf', rest)
  | Some (true, buf', rest) =>
      let '(line, after) := bytes_partition buf' in
      Some (match decode_utf8 line with
            | Return s => Return (Some s)
            | Raise e => Raise e
            end, after, rest)
  end.

(** ** class ClientThread *)

(** [self.name: str = None] goes through the setter of [Thread.name],
    which stores [str(None)]; [self.game_version] and [self.lobby] are
    plain attributes and are [None]. *)
Definition new_ClientThread : ClientThread :=
  mkClientThread [] (Some "None") None None false Running.

(** [str(v)] of a decoded value, as the setter of [Thread.name] applies
    it to [d["name"]]: a string is itself, [None], [True] and [False]
    are their names and an [int] is its decimal form.  The [str] of a
    float, of a list and of an object is not modelled. *)
Definition py_str (v : json) : option string :=
  match v with
  | JStr s => Some s
  | JNull => Some "None"
  | JBool true => Some "True"
  | JBool false => Some "False"
  | JNum n => Some (pretty n)
  | _ => None
  end.

(** A value assigned to [self.game_version]: [None] or a string. *)
Definition as_version (v : json) : option (option string) :=
  match v with
  | JStr s => Some (Some s)
  | JNull => Some None
  | _ => None
  end.

(** A value of the model, or none where the model has none. *)
Definition modelled {A} (o : option A) : M A :=
  match o with
  | Some a => ret a
  | None => undefined
  end.

(** [str] of a version, in an f-string and in [str(e)] of the exception
    that carries it. *)
Definition version_str (v : option string) : string :=
  match v with
  | Some s => s
  | None => "None"
  end.

Definition action_identify (t : tid) (d : dict) : M unit :=
  match dict_get "name" d with
  | None => raise KeyError
  | Some v =>
      n <- modelled (py_str v) ;;
      update_thread t (set_name (Some n)) ;;
      match dict_get "game_version" d with
      | None => raise KeyError
      | Some v' =>
          gv <- modelled (as_version v') ;;
          update_thread t (set_game_version gv) ;;
          send_json t [("action", JStr "message");
                       ("message", JStr ("Hi " +:+ n +:+ " using " +:+ version_str gv))]
      end
  end.

Definition action_create (t : tid) (d : dict) : M unit :=
  th <- get_thread t ;;
  match name th with
  | None => send_json t (error_frame "unidentified")
  | Some _ =>
      l <- Lobby_create t (game_version th) ;;
      update_thread t (set_lobby (Some l))
  end.

(** The [except] clauses of [action_join]. *)
Definition action_join_except (t : tid) (e : exn) : option (M unit) :=
  match e with
  | LobbyDoesntExistException => Some (send_json t (error_frame "lobby_doesnt_exist"))
  | MismatchedVersionException arg =>
      Some (send_json t [("action", JStr "error"); ("type", JStr "mismatched_version");
                         ("message", JStr (version_str arg))])
  | AlreadyConnectedException => Some (send_json t (error_frame "already_connected"))
  | LobbyFullException => Some (send_json t (error_frame "lobby_full"))
  | _ => None
  end.

(** [Lobby.join(self, d["code"], self.game_version)] with the value of
    [d["code"]] as it comes: a value that is not a [str] is no key of the
    registry, and a list or an object cannot be hashed at all. *)
Definition join_with_code (t : tid) (c : json) (gv : option string) : M lid :=
  match c with
  | JStr s => Lobby_join t s gv
  | JArr _ | JObj _ => raise TypeError
  | _ => raise LobbyDoesntExistException
  end.

Definition action_join (t : tid) (d : dict) : M unit :=
  th <- get_thread t ;;
  match name th with
  | None => send_json t (error_frame "unidentified")
  | Some _ =>
      try_except
        (match dict_get "code" d with
         | None => raise KeyError
         | Some c =>
             l <- join_with_code t c (game_version th) ;;
             update_thread t (set_lobby (Some l))
         end)
        (action_join_except t)
  end.

Definition action_turn (t : tid) (d : dict) : M unit :=
  th <- get_thread t ;;
  match name th with
  | None => send_json t (error_frame "unidentified")
  | Some n =>
      match lobby th with
      | None => send_json t (error_frame "not_in_lobby")
      | Some l => Lobby_message l (dict_set "name" (JStr n) d) [t]
      end
  end.

(** [p in s] for two strings *)
Fixpoint str_contains (p s : string) : bool :=
  String.prefix p s
  || match s with
     | EmptyString => false
     | String _ s' => str_contains p s'
     end.

Definition is_str (s : string) (v : json) : bool :=
  match v with
  | JStr s' => bool_decide (s = s')
  | _ => false
  end.

(** [handle_message]; [d] is whatever [json.loads] returned.  On a value
    that is not an object, ["action" not in d] is a membership test in a
    list, a substring test in a string and a [TypeError] otherwise, and
    [d["action"]] is a [TypeError]. *)
Definition handle_message (t : tid) (d : json) : M unit :=
  match d with
  | JObj kvs =>
      match dict_get "action" kvs with
      | None => send_json t (error_frame "unknown_action")
      | Some a =>
          if is_str "identify" a then action_identify t kvs
          else if is_str "create" a then action_create t kvs
          else if is_str "join" a then action_join t kvs
          else if is_str "turn" a then action_turn t kvs
          else send_json t (error_frame "unknown_action")
      end
  | JArr xs =>
      if existsb (is_str "action") xs then raise TypeError
      else send_json t (error_frame "unknown_action")
  | JStr s =>
      if str_contains "action" s then raise TypeError
      else send_json t (error_frame "unknown_action")
  | _ => raise TypeError
  end.

(** The code of [run] after the loop. *)
Definition run_exit (t : tid) : M unit :=
  th <- get_thread t ;;
  match lobby th with
  | Some l =>
      match name th with
      | Some n => Lobby_disconnect l n
      | None => undefined
      end
  | None => ret tt
  end ;;
  update_thread t (set_socket_closed true) ;;
  modify (set_wire (λ evs, (evs ++ [SocketClosed t])%list)).

Section Server.
(** [json.loads] of the standard library, [None] when it raises
    [JSONDecodeError]. *)
Variable json_loads : string → option json.

(** One iteration of the loop of [run], given what [self.recv()] did;
    [true] when the loop goes on, [false] when [run] has returned. *)
Definition run_iteration (t : tid) (received : result (option string)) : M bool :=
  match received with
  | Raise e => raise e
  | Return None => run_exit t ;; ret false
  | Return (Some message) =>
      match json_loads message with
      | None => raise JSONDecodeError
      | Some d => handle_message t d ;; ret true
      end
  end.

(** The server as a transition system: the accept loop starts a thread
    on a new connection, and a running thread does one iteration of
    [run] on what its socket delivers meanwhile. *)
Inductive label : Type :=
  | Accept
  | Iterate (t : tid) (sock : list recv_result).

Definition step (w : World) (lab : label) : option World :=
  match lab with
  | Accept => Some (set_threads (λ ts, (ts ++ [new_ClientThread])%list) w)
  | Iterate t sock =>
      match threads w !! t with
      | None => None
      | Some th =>
          match alive th, NewlineReceiver_call sock (buffer th) with
          | Running, Some (received, buf, []) =>
              let w1 := set_threads (λ ts, <[t := set_buffer buf th]> ts) w in
              match run_iteration t received w1 with
              | None => None
              | Some (w2, Return true) => Some w2
              | Some (w2, Return false) =>
                  Some (set_threads (alter (set_alive Finished) t) w2)
              | Some (w2, Raise e) =>
                  Some (set_threads (alter (set_alive (Crashed e)) t) w2)
              end
          | _, _ => None
          end
      end
  end.

Fixpoint exec (w : World) (labs : list label) : option World :=
  match labs with
  | [] => Some w
  | lab :: rest =>
      match step w lab with
      | Some w' => exec w' rest
      | None => None
      end
  end.

Definition initial (tape : list nat) : World := mkWorld ∅ [] [] [] tape.

Inductive reachable : World → Prop :=
  | reachable_initial tape : reachable (initial tape)
  | reachable_step w lab w' : reachable w → step w lab = Some w' → reachable w'.
End Server.

(** ** A JSON codec for the examples

    [json.dumps] and [json.loads] on the fragment of JSON without string
    escapes, fractions and exponents, where they are easy to write
    down.  The theorems about the server hold for every [json_loads];
    this one lets the examples start from the bytes a client sends. *)
Module Json.
Definition quote : ascii := ascii_of_byte x22.
Definition backslash : ascii := ascii_of_byte x5c.

Fixpoint str_join (sep : string) (parts : list string) : string :=
  match parts with
  | [] => ""
  | [p] => p
  | p :: rest => p +:+ sep +:+ str_join sep rest
  end.

Definition dumps_str (s : string) : string :=
  String quote s +:+ String quote "".

Fixpoint dumps (v : json) : string :=
  match v with
  | JNull => "null"
  | JBool true => "true"
  | JBool false => "false"
  | JNum n => pretty n
  | JFloat lit => lit
  | JStr s => dumps_str s
  | JArr xs => "[" +:+ str_join ", " (map dumps xs) +:+ "]"
  | JObj kvs =>
      "{" +:+ str_join ", " (map (λ kv, dumps_str kv.1 +:+ ": " +:+ dumps kv.2) kvs) +:+ "}"
  end.

Definition is_ws (c : ascii) : bool :=
  bool_decide (c ∈ [" "%char; ascii_of_byte x09; ascii_of_byte x0a; ascii_of_byte x0d]).

Fixpoint skip_ws (s : string) : string :=
  match s with
  | String c rest => if is_ws c then skip_ws rest else s
  | EmptyString => s
  end.

Definition digit (c : ascii) : option Z :=
  let n := Z.of_N (N_of_ascii c) in
  if bool_decide (48 ≤ n ≤ 57)%Z then Some (n - 48)%Z else None.

Fixpoint digits (acc : Z) (s : string) : Z * string :=
  match s with
  | String c rest =>
      match digit c with
      | Some k => digits (10 * acc + k) rest
      | None => (acc, s)
      end
  | EmptyString => (acc, s)
  end.

(** An integer literal: a zero or digits that do not start with a zero,
    not followed by a digit, a fraction or an exponent. *)
Definition number (s : string) : option (Z * string) :=
  match s with
  | String c rest =>
      match digit c with
      | None => None
      | Some k =>
          let '(n, after) := if bool_decide (k = 0%Z) then (0%Z, rest) else digits k rest in
          match after with
          | String c' _ =>
              if bool_decide (c' ∈ ["."%char; "e"%char; "E"%char]) || bool_decide (is_Some (digit c'))
              then None else Some (n, after)
          | EmptyString => Some (n, after)
          end
      end
  | EmptyString => None
  end.

(** The characters of a string literal after its opening quote. *)
Fixpoint chars (s : string) : option (string * string) :=
  match s with
  | EmptyString => None
  | String c rest =>
      if bool_decide (c = quote) then Some ("", rest)
      else if bool_decide (c = backslash) || bool_decide (N_of_ascii c < 32)%N then None
      else
        match chars rest with
        | Some (body, after) => Some (String c body, after)
        | None => None
        end
  end.

Definition literal (word : string) (v : json) (s : string) : option (json * string) :=
  if String.prefix word s
  then Some (v, String.substring (String.length word) (String.length s - String.length word) s)
  else None.

Fixpoint value (fuel : nat) (s : string) : option (json * string) :=
  match fuel with
  | O => None
  | S fuel =>
      match skip_ws s with
      | EmptyString => None
      | String c rest =>
          if bool_decide (c = quote) then
            match chars rest with
            | Some (body, after) => Some (JStr body, after)
            | None => None
            end
          else if bool_decide (c = "["%char) then
            match skip_ws rest with
            | String "]" after => Some (JArr [], after)
            | _ =>
                match elements fuel rest with
                | Some (xs, after) => Some (JArr xs, after)
                | None => None
                end
            end
          else if bool_decide (c = "{"%char) then
            match skip_ws rest with
            | String "}" after => Some (JObj [], after)
            | _ =>
                match members fuel rest with
                | Some (kvs, after) =>
                    Some (JObj (foldl (λ d kv, dict_set kv.1 kv.2 d) [] kvs), after)
                | None => None
                end
            end
          else if bool_decide (c = "-"%char) then
            match number rest with
            | Some (n, after) => Some (JNum (- n), after)
            | None => None
            end
          else if bool_decide (c = "n"%char) then literal "null" JNull (String c rest)
          else if bool_decide (c = "t"%char) then literal "true" (JBool true) (String c rest)
          else if bool_decide (c = "f"%char) then literal "false" (JBool false) (String c rest)
          else
            match number (String c rest) with
            | Some (n, after) => Some (JNum n, after)
            | None => None
            end
      end
  end
with elements (fuel : nat) (s : string) : option (list json * string) :=
  match fuel with
  | O => None
  | S fuel =>
      match value fuel s with
      | None => None
      | Some (x, after) =>
          match skip_ws after with
          | String "," more =>
              match elements fuel more with
              | Some (xs, after') => Some (x :: xs, after')
              | None => None
              end
          | String "]" after' => Some ([x], after')
          | _ => None
          end
      end
  end
with members (fuel : nat) (s : string) : option (list (string * json) * string) :=
  match fuel with
  | O => None
  | S fuel =>
      match skip_ws s with
      | String c rest =>
          if bool_decide (c = quote) then
            match chars rest with
            | None => None
            | Some (k, after) =>
                match skip_ws after with
                | String ":" more =>
                    match value fuel more with
                    | None => None
                    | Some (x, after') =>
                        match skip_ws after' with
                        | String "," more' =>
                            match members fuel more' with
                            | Some (kvs, after'') => Some ((k, x) :: kvs, after'')
                            | None => None
                            end
                        | String "}" after'' => Some ([(k, x)], after'')
                        | _ => None
                        end
                    end
                | _ => None
                end
            end
          else None
      | EmptyString => None
      end
  end.

Definition loads (s : string) : option json :=
  match value (S (String.length s)) s with
  | Some (v, after) =>
      match skip_ws after with
      | EmptyString => Some v
      | _ => None
      end
  | None => None
  end.
End Json.

(** ** test_client.py: what a client puts on its socket *)

(** [send(client_socket, d)], in one piece *)
Definition client_send (d : dict) : list recv_result :=
  [RecvData (list_byte_of_string (Json.dumps (JObj d)) ++ [delimiter])].

(** The peer closes its end. *)
Definition client_close : list recv_result := [RecvData []].

(** The bytes that a run of [recv] results has delivered. *)
Definition received (used : list recv_result) : list byte :=
  flat_map (λ r, match r with RecvData data => data | RecvReset => [] end) used.

(** [ClientThread.send_string(message)] and [send] of the client: the
    bytes handed to [socket.send], the text encoded and a newline. *)
Definition send_string_bytes (message : string) : list byte :=
  list_byte_of_string message ++ [delimiter].

(** How a [run] loop over a socket script ends: it returns (the reader
    has said [None]), it is left by an exception, or it waits for bytes
    that the script does not have. *)
Inductive run_end : Type :=
  | RunReturned
  | RunRaised (e : exn)
  | RunBlocked.

Section TestClient.
(** [json.loads], as for the server *)
Variable json_loads : string → option json.

(** [TestClient.run]; [handle_message] prints what was received, and
    the values printed are what the model keeps of it.  One unit of
    fuel is one turn of the loop; [None] is a loop out of fuel. *)
Fixpoint TestClient_run_loop (fuel : nat) (sock : list recv_result) (buf : list byte)
    : option (list json * run_end) :=
  match fuel with
  | O => None
  | S fuel =>
      match NewlineReceiver_call sock buf with
      | None => Some ([], RunBlocked)
      | Some (Raise e, _, _) => Some ([], RunRaised e)
      | Some (Return None, _, _) => Some ([], RunReturned)
      | Some (Return (Some message), buf', rest) =>
          match json_loads message with
          | None => Some ([], RunRaised JSONDecodeError)
          | Some d =>
              match TestClient_run_loop fuel rest buf' with
              | Some (printed, e) => Some (d :: printed, e)
              | None => None
              end
          end
      end
  end.

(** Every turn of the loop but the last takes a delimiter out of what
    the socket delivers, so one more turn than bytes is enough. *)
Definition TestClient_run (sock : list recv_result) : option (list json * run_end) :=
  TestClient_run_loop (S (length (received sock))) sock [].
End TestClient.

(** ** Vocabulary of the properties *)

Definition active_member (L : Lobby) : Prop :=
  ∃ n t, (n, Some t) ∈ clients L.

Definition tombstoned (L : Lobby) : Prop :=
  ∃ n, (n, None) ∈ clients L.

Definition registered (w : World) (l : lid) : Prop :=
  ∃ c, lobbies w !! c = Some l.

Definition socket_open (w : World) (t : tid) : Prop :=
  ∃ th, threads w !! t = Some th ∧ socket_closed th = false.

Definition uppercase_code (c : string) : Prop :=
  String.length c = 4
  ∧ Forall (λ ch, ch ∈ list_ascii_of_string ascii_uppercase) (list_ascii_of_string c).

Definition end_of_stream (r : recv_result) : Prop :=
  r = RecvReset ∨ r = RecvData [].

(** The threads registered in a membership, in its order, that are not
    excluded. *)
Definition recipients (exclude : list tid) (cs : list (string * option tid)) : list tid :=
  filter (λ t', t' ∉ exclude) (omap snd cs).

(** The events a computation has added to the wire. *)
Definition emitted (w w' : World) (evs : list event) : Prop :=
  wire w' = (wire w ++ evs)%list.

(** Only the wire differs. *)
Definition same_store (w w' : World) : Prop :=
  lobbies w' = lobbies w ∧ heap w' = heap w ∧ threads w' = threads w
  ∧ random w' = random w.

(** [c] keeps [P], however it ends. *)
Definition preserves {A} (P : World → Prop) (c : M A) : Prop :=
  ∀ w w' r, c w = Some (w', r) → P w → P w'.

(** A predicate that does not look at the wire. *)
Definition wire_blind (P : World → Prop) : Prop :=
  ∀ f w, P w → P (set_wire f w).

(** A predicate that does not look at the threads, or at the tape. *)
Definition threads_blind (P : World → Prop) : Prop :=
  ∀ f w, P w → P (set_threads f w).

Definition random_blind (P : World → Prop) : Prop :=
  ∀ f w, P w → P (set_random f w).

(** A predicate that looks at the threads only. *)
Definition registry_blind (P : World → Prop) : Prop :=
  wire_blind P ∧ random_blind P
  ∧ (∀ f w, P w → P (set_heap f w)) ∧ (∀ f w, P w → P (set_lobbies f w)).

(** The thread [t] exists and its [lobby] field satisfies [Q]. *)
Definition thread_lobby (Q : option nat → Prop) (t : tid) (w : World) : Prop :=
  ∃ th, threads w !! t = Some th ∧ Q (lobby th).

(** The messages whose handlers assign [self.lobby]. *)
Definition assigns_lobby (d : json) : bool :=
  match d with
  | JObj kvs =>
      match dict_get "action" kvs with
      | Some a => is_str "create" a || is_str "join" a
      | None => false
      end
  | _ => false
  end.

(** What the registry promises about each of its entries: the lobby
    object exists, carries the code it is registered under, which is a
    four-letter code, and has a member that is not a tombstone. *)
Definition registry_ok (w : World) : Prop :=
  ∀ c l, lobbies w !! c = Some l →
    ∃ L, heap w !! l = Some L ∧ code L = c ∧ uppercase_code c ∧ active_member L.

(** Every lobby object keeps its membership a dictionary (no name
    twice) and its capacity at two. *)
Definition heap_ok (w : World) : Prop :=
  ∀ l L, heap w !! l = Some L → NoDup (dict_keys (clients L)) ∧ max_players L = 2.

(** The error frame that [action_join] answers an exception of
    [Lobby.join] with. *)
Definition join_error (e : exn) : option dict :=
  match e with
  | LobbyDoesntExistException => Some (error_frame "lobby_doesnt_exist")
  | MismatchedVersionException arg =>
      Some [("action", JStr "error"); ("type", JStr "mismatched_version");
            ("message", JStr (version_str arg))]
  | AlreadyConnectedException => Some (error_frame "already_connected")
  | LobbyFullException => Some (error_frame "lobby_full")
  | _ => None
  end.

(** Why [Lobby.join] raises what it raises, for a client named [n] with
    version [gv] and the code [c]. *)
Definition join_refused (w : World) (n : string) (gv : option string) (c : string)
    (e : exn) : Prop :=
  match e with
  | LobbyDoesntExistException => lobbies w !! c = None
  | MismatchedVersionException arg =>
      ∃ l L, lobbies w !! c = Some l ∧ heap w !! l = Some L
             ∧ version L ≠ gv ∧ arg = version L
  | AlreadyConnectedException =>
      ∃ l L t', lobbies w !! c = Some l ∧ heap w !! l = Some L
                ∧ version L = gv ∧ dict_get n (clients L) = Some (Some t')
  | LobbyFullException =>
      ∃ l L, lobbies w !! c = Some l ∧ heap w !! l = Some L
             ∧ version L = gv ∧ dict_get n (clients L) = None
             ∧ max_players L ≤ length (clients L)
  | _ => False
  end.

(** The thread [t] exists and its record satisfies [F]. *)
Definition thread_has (F : ClientThread → Prop) (t : tid) (w : World) : Prop :=
  ∃ th, threads w !! t = Some th ∧ F th.

(** One frame was sent, to [t], and nothing else has changed. *)
Definition sends_only (t : tid) (frame : dict) (w w' : World) : Prop :=
  same_store w w' ∧ emitted w w' [Sent t frame].

Definition disconnect_frame (n : string) : dict :=
  [("action", JStr "disconnect"); ("name", JStr n)].

(** What the threads keep between two iterations of their loops: a
    thread has a name, and its socket is closed exactly when its [run]
    has returned. *)
Definition thread_ok (th : ClientThread) : Prop :=
  is_Some (name th)
  ∧ (socket_closed th = true ↔ alive th = Finished).

Definition threads_ok (w : World) : Prop :=
  ∀ t th, threads w !! t = Some th → thread_ok th.

(** What the handling of one message can have done to the record of the
    thread that handles it, with the way the handler has ended: nothing;
    the name set, by an identify that then raised; the name and the
    version set; the lobby set, for a thread that has a name. *)
Inductive handled (th : ClientThread) : result unit → ClientThread → Prop :=
  | handled_same r : handled th r th
  | handled_named n e : handled th (Raise e) (set_name (Some n) th)
  | handled_identified n gv r :
      handled th r (set_game_version gv (set_name (Some n) th))
  | handled_lobby l :
      is_Some (name th) → handled th (Return tt) (set_lobby (Some l) th).

(** The lobby object [l] is still there with the code, the version and
    the capacity that [L] had, and the names of [L] are the first names
    of its membership. *)
Definition lobby_extends (l : lid) (L : Lobby) (w : World) : Prop :=
  ∃ L', heap w !! l = Some L' ∧ code L' = code L ∧ version L' = version L
        ∧ max_players L' = max_players L
        ∧ dict_keys (clients L) `prefix_of` dict_keys (clients L').







(** What one step of the thread [t] does to the lobbies and to the
    registry, with the record [th] of the thread before it and [th']
    after it: nothing; or a lobby is made and registered under a code
    that was free, with [t] as its only member; or [t] is entered in a
    registered lobby, under its name, which no thread is entered
    under; or [t] leaves its lobby, which gets a tombstone under the
    name of [t] and goes out of the registry if no other entry is
    left. *)
Inductive lobby_effect (t : tid) (th th' : ClientThread) (w w' : World) : Prop :=
  | effect_quiet :
      heap w' = heap w → lobbies w' = lobbies w →
      (alive th' = Running → lobby th' = lobby th) →
      lobby_effect t th th' w w'
  | effect_create c L :
      lobbies w !! c = None → code L = c → omap snd (clients L) = [t] →
      heap w' = heap w ++ [L] →
      lobbies w' = <[c := length (heap w)]> (lobbies w) →
      (alive th' = Running → lobby th' = Some (length (heap w))) →
      lobby_effect t th th' w w'
  | effect_join c l L n :
      name th = Some n →
      lobbies w !! c = Some l → heap w !! l = Some L →
      (∀ t', dict_get n (clients L) ≠ Some (Some t')) →
      heap w' = <[l := set_clients (dict_set n (Some t) (clients L)) L]> (heap w) →
      lobbies w' = lobbies w →
      (alive th' = Running → lobby th' = Some l) →
      lobby_effect t th th' w w'
  | effect_leave l L n :
      name th = Some n →
      lobby th = Some l → heap w !! l = Some L → alive th' ≠ Running →
      heap w' = <[l := set_clients (dict_set n None (clients L)) L]> (heap w) →
      lobbies w' = (if forallb is_tombstone (dict_values (dict_set n None (clients L)))
                    then delete (code L) (lobbies w) else lobbies w) →
      lobby_effect t th th' w w'.

(** The complete lines of a byte string, without their delimiters, and
    what follows the last delimiter. *)
Fixpoint split_lines (b : list byte) : list (list byte) * list byte :=
  match b with
  | [] => ([], [])
  | x :: rest =>
      let '(lines, last) := split_lines rest in
      if Byte.eqb delimiter x then ([] :: lines, last)
      else
        match lines with
        | [] => ([], x :: last)
        | line :: lines' => ((x :: line) :: lines', last)
        end
  end.

(** What [TestClient.run] prints of a sequence of complete lines, and
    how it ends on them: a line that does not decode, or that
    [json.loads] rejects, ends the thread; after the last line the
    reader says [None] and [run] returns. *)
Fixpoint TestClient_prints (json_loads : string → option json)
    (lines : list (list byte)) : list json * run_end :=
  match lines with
  | [] => ([], RunReturned)
  | line :: rest =>
      match decode_utf8 line with
      | Raise e => ([], RunRaised e)
      | Return message =>
          match json_loads message with
          | None => ([], RunRaised JSONDecodeError)
          | Some d =>
              let '(printed, e) := TestClient_prints json_loads rest in
              (d :: printed, e)
          end
      end
  end.

(** ** The scenario of the specification, and variations on it *)
Module Scenario.
Definition identify (n v : string) : list recv_result :=
  client_send [("action", JStr "identify"); ("name", JStr n); ("game_version", JStr v)].
Definition create : list recv_result :=
  client_send [("action", JStr "create")].
Definition join (c : string) : list recv_result :=
  client_send [("action", JStr "join"); ("code", JStr c)].
Definition turn : list recv_result :=
  client_send [("action", JStr "turn"); ("move", JNum 5)].

(** The draws that spell KDQZ and then ABCD. *)
Definition tape : list nat := [10; 3; 16; 25; 0; 1; 2; 3].

(** Alice (thread 0) creates a lobby and Bob (thread 1) joins it. *)
Definition paired : list label :=
  [Accept; Accept;
   Iterate 0 (identify "Alice" "v1"); Iterate 0 create;
   Iterate 1 (identify "Bob" "v1"); Iterate 1 (join "KDQZ")].

Definition after (labs : list label) : option World :=
  exec Json.loads (initial tape) labs.

(** The world after the steps [labs], where they can all be taken. *)
Definition world_after (labs : list label) : World :=
  match after labs with
  | Some w => w
  | None => initial tape
  end.

(** Bob's connection ends, then Alice's. *)
Definition bob_left : list label := paired ++ [Iterate 1 client_close].
Definition both_left : list label := bob_left ++ [Iterate 0 client_close].

(** Bob has left, and Carol (thread 2) has connected with Alice's
    version. *)
Definition carol_arrived : list label :=
  bob_left ++ [Accept; Iterate 2 (identify "Carol" "v1")].

(** A line that is not JSON. *)
Definition garbage : list recv_result :=
  [RecvData (list_byte_of_string "{" ++ [delimiter])].

(** A line that is not UTF-8. *)
Definition not_utf8 : list recv_result :=
  [RecvData [xff; delimiter]].
End Scenario.

(** ** Sentences of the specification that the code does not follow

    Each is written down as the specification words it, to be refuted
    on a run of the scenario. *)
Module AsSpecified.
(** "join fails with LobbyFull if [and only if] the lobby has no
    tombstoned slot and already holds capacity members", for a request
    that gets as far as the capacity check. *)
Definition join_is_full_iff_no_tombstone : Prop :=
  ∀ w t th n gv c l L,
    reachable Json.loads w →
    threads w !! t = Some th → name th = Some n →
    lobbies w !! c = Some l → heap w !! l = Some L →
    version L = gv → dict_get n (clients L) = None →
    (∃ w', Lobby_join t c gv w = Some (w', Raise LobbyFullException))
    ↔ (¬ tombstoned L ∧ max_players L ≤ length (clients L)).

(** "when a lobby holds one active member and one tombstoned member, a
    join by a third, distinct name succeeds by overwriting the
    tombstoned slot" *)
Definition third_name_takes_the_tombstone : Prop :=
  ∀ w t th n gv c l L a ta b,
    reachable Json.loads w →
    threads w !! t = Some th → name th = Some n → socket_open w t →
    lobbies w !! c = Some l → heap w !! l = Some L →
    version L = gv → clients L = [(a, Some ta); (b, None)] → socket_open w ta →
    n ≠ a → n ≠ b →
    ∃ w' L', Lobby_join t c gv w = Some (w', Return l)
             ∧ heap w' !! l = Some L' ∧ ¬ tombstoned L'.
(** "No transition leaves InLobby [...]; a connection either stays in
    its lobby until disconnection or terminates": no step changes the
    lobby of a connection that goes on running. *)
Definition current_lobby_is_fixed : Prop :=
  ∀ w lab w' t th th' l,
    reachable Json.loads w → step Json.loads w lab = Some w' →
    threads w !! t = Some th → lobby th = Some l →
    threads w' !! t = Some th' → alive th' = Running →
    lobby th' = Some l.
End AsSpecified.

(** * Properties *)

(** ** Dictionaries *)

Section PyDictFacts.
Context {V : Type}.
Implicit Types (d : list (string * V)) (k : string) (v : V).

Lemma dict_get_set_eq k v d : dict_get k (dict_set k v d) = Some v.
Proof.
  induction d as [|[k' v'] d IH]; simpl.
  - by rewrite decide_True.
  - destruct (decide (k = k')) as [->|Hne]; simpl.
    + by rewrite decide_True.
    + by rewrite decide_False.
Qed.

Lemma dict_get_set_ne k k' v d : k ≠ k' → dict_get k' (dict_set k v d) = dict_get k' d.
Proof.
  intros Hne. induction d as [|[k0 v0] d IH]; simpl.
  - by rewrite decide_False.
  - destruct (decide (k = k0)) as [->|Hk]; simpl.
    + by rewrite !decide_False.
    + destruct (decide (k' = k0)); [done | apply IH].
Qed.

Lemma dict_get_Some_elem k v d : dict_get k d = Some v → (k, v) ∈ d.
Proof.
  induction d as [|[k' v'] d IH]; simpl; [done|].
  destruct (decide (k = k')) as [->|Hne].
  - intros [= ->]. apply list_elem_of_here.
  - intros H. apply list_elem_of_further, IH, H.
Qed.

Lemma dict_set_elem k v d : (k, v) ∈ dict_set k v d.
Proof. apply dict_get_Some_elem, dict_get_set_eq. Qed.

(** An entry under another key stays, and nothing but [(k, v)] comes in. *)
Lemma dict_set_elem_ne k v k' v' d :
  k ≠ k' → (k', v') ∈ dict_set k v d ↔ (k', v') ∈ d.
Proof.
  intros Hne. induction d as [|[k0 v0] d IH]; simpl.
  - rewrite list_elem_of_singleton. split; [by intros [= ? ?] | by intros ?%not_elem_of_nil].
  - destruct (decide (k = k0)) as [->|Hk].
    + rewrite !elem_of_cons. split; (intros [[= ? ?]|?]; [done | by right]).
    + rewrite !elem_of_cons, IH. done.
Qed.

Lemma dict_set_length k v d :
  length (dict_set k v d) = if dict_has k d then length d else S (length d).
Proof.
  unfold dict_has. induction d as [|[k' v'] d IH]; simpl; [done|].
  destruct (decide (k = k')); simpl; [done|].
  rewrite IH. by destruct (dict_get k d).
Qed.
End PyDictFacts.

(** ** Computations *)

Lemma bind_inv {A B} (c : M A) (k : A → M B) w w' r :
  bind c k w = Some (w', r) →
  (∃ w1 a, c w = Some (w1, Return a) ∧ k a w1 = Some (w', r))
  ∨ (∃ e, c w = Some (w', Raise e) ∧ r = Raise e).
Proof.
  unfold bind. destruct (c w) as [[w1 [a|e]]|]; [| |done].
  - left. eauto.
  - intros [= <- <-]. right. eauto.
Qed.

Lemma bind_run {A B} (c : M A) (k : A → M B) w w1 a :
  c w = Some (w1, Return a) → bind c k w = k a w1.
Proof. unfold bind. by intros ->. Qed.

Lemma bind_raise {A B} (c : M A) (k : A → M B) w w1 e :
  c w = Some (w1, Raise e) → bind c k w = Some (w1, Raise e).
Proof. unfold bind. by intros ->. Qed.

Lemma get_thread_inv t w w' r :
  get_thread t w = Some (w', r) → w' = w ∧ ∃ th, threads w !! t = Some th ∧ r = Return th.
Proof. unfold get_thread. destruct (threads w !! t); [|done]. intros [= <- <-]. eauto. Qed.

Lemma get_lobby_inv l w w' r :
  get_lobby l w = Some (w', r) → w' = w ∧ ∃ L, heap w !! l = Some L ∧ r = Return L.
Proof. unfold get_lobby. destruct (heap w !! l); [|done]. intros [= <- <-]. eauto. Qed.

Lemma get_thread_run t w th :
  threads w !! t = Some th → get_thread t w = Some (w, Return th).
Proof. unfold get_thread. by intros ->. Qed.

Lemma get_lobby_run l w L :
  heap w !! l = Some L → get_lobby l w = Some (w, Return L).
Proof. unfold get_lobby. by intros ->. Qed.

Lemma update_lobby_inv l f w w' r :
  update_lobby l f w = Some (w', r) →
  ∃ L, heap w !! l = Some L ∧ w' = set_heap (λ h, <[l := f L]> h) w ∧ r = Return tt.
Proof.
  unfold update_lobby. intros [(w1 & L & H1 & H2)|(e & H1 & _)]%bind_inv.
  - apply get_lobby_inv in H1 as (-> & L' & HL & [= <-]).
    unfold modify in H2. injection H2 as <- <-. eauto.
  - by apply get_lobby_inv in H1 as (_ & L' & _ & ?).
Qed.

Lemma update_lobby_run l f w L :
  heap w !! l = Some L →
  update_lobby l f w = Some (set_heap (λ h, <[l := f L]> h) w, Return tt).
Proof. intros HL. unfold update_lobby. by rewrite (bind_run _ _ _ _ _ (get_lobby_run _ _ _ HL)). Qed.

Lemma update_thread_inv t f w w' r :
  update_thread t f w = Some (w', r) →
  ∃ th, threads w !! t = Some th ∧ w' = set_threads (λ ts, <[t := f th]> ts) w ∧ r = Return tt.
Proof.
  unfold update_thread. intros [(w1 & th & H1 & H2)|(e & H1 & _)]%bind_inv.
  - apply get_thread_inv in H1 as (-> & th' & Hth & [= <-]).
    unfold modify in H2. injection H2 as <- <-. eauto.
  - by apply get_thread_inv in H1 as (_ & th' & _ & ?).
Qed.

Lemma update_thread_run t f w th :
  threads w !! t = Some th →
  update_thread t f w = Some (set_threads (λ ts, <[t := f th]> ts) w, Return tt).
Proof. intros Hth. unfold update_thread. by rewrite (bind_run _ _ _ _ _ (get_thread_run _ _ _ Hth)). Qed.

(** *** The rules of [preserves] *)

Section Preserves.
Context (P : World → Prop).

Lemma preserves_ret {A} (a : A) : preserves P (ret a).
Proof. intros w w' r [= <- <-]. done. Qed.

Lemma preserves_raise {A} e : preserves P (@raise A e).
Proof. intros w w' r [= <- <-]. done. Qed.

Lemma preserves_undefined {A} : preserves P (@undefined A).
Proof. intros w w' r [=]. Qed.

Lemma preserves_bind {A B} (c : M A) (k : A → M B) :
  preserves P c → (∀ a, preserves P (k a)) → preserves P (bind c k).
Proof.
  intros Hc Hk w w' r [(w1 & a & H1 & H2)|(e & H1 & _)]%bind_inv HP.
  - eapply Hk; [done|]. eapply Hc; done.
  - eapply Hc; done.
Qed.

Lemma preserves_try_except {A} (c : M A) h :
  preserves P c → (∀ e handler, h e = Some handler → preserves P handler) →
  preserves P (try_except c h).
Proof.
  intros Hc Hh w w' r. unfold try_except.
  destruct (c w) as [[w1 [a|e]]|] eqn:Hcw; [| |done].
  - intros [= <- <-] HP. eapply Hc; done.
  - destruct (h e) as [handler|] eqn:He.
    + intros Hrun HP. eapply Hh; [done..|]. eapply Hc; done.
    + intros [= <- <-] HP. eapply Hc; done.
Qed.

Lemma preserves_get_world : preserves P get_world.
Proof. intros w w' r [= <- <-]. done. Qed.

Lemma preserves_get_thread t : preserves P (get_thread t).
Proof. by intros w w' r [-> _]%get_thread_inv. Qed.

Lemma preserves_get_lobby l : preserves P (get_lobby l).
Proof. by intros w w' r [-> _]%get_lobby_inv. Qed.

Lemma preserves_modify f : (∀ w, P w → P (f w)) → preserves P (modify f).
Proof. intros Hf w w' r [= <- <-]. apply Hf. Qed.

Lemma preserves_update_thread t f :
  (∀ w th, threads w !! t = Some th → P w → P (set_threads (λ ts, <[t := f th]> ts) w)) →
  preserves P (update_thread t f).
Proof. intros Hf w w' r (th & Hth & -> & _)%update_thread_inv. by apply Hf. Qed.

Lemma preserves_update_lobby l f :
  (∀ w L, heap w !! l = Some L → P w → P (set_heap (λ h, <[l := f L]> h) w)) →
  preserves P (update_lobby l f).
Proof. intros Hf w w' r (L & HL & -> & _)%update_lobby_inv. by apply Hf. Qed.

(** Sending touches the wire only. *)
Hypothesis P_wire : wire_blind P.

Lemma preserves_send_json t d : preserves P (send_json t d).
Proof.
  unfold send_json. apply preserves_bind; [apply preserves_get_thread|].
  intros th. destruct (socket_closed th); [apply preserves_raise|].
  apply preserves_modify. intros w. apply P_wire.
Qed.

Lemma preserves_message_items items d exclude :
  preserves P (message_items items d exclude).
Proof.
  induction items as [|[n c] items IH]; simpl; [apply preserves_ret|].
  apply preserves_bind; [|done].
  destruct (not_in_exclude c exclude); [|apply preserves_ret].
  destruct c; [apply preserves_send_json | apply preserves_raise].
Qed.

Lemma preserves_Lobby_message l d exclude : preserves P (Lobby_message l d exclude).
Proof.
  unfold Lobby_message. apply preserves_bind; [apply preserves_get_lobby|].
  intros L. apply preserves_message_items.
Qed.

Lemma preserves_disconnect_items items n : preserves P (disconnect_items items n).
Proof.
  induction items as [|[n' c] items IH]; simpl; [apply preserves_ret|].
  apply preserves_bind; [|done].
  destruct c; [apply preserves_send_json | apply preserves_ret].
Qed.
End Preserves.

(** ** The framed line reader *)

Lemma has_delimiter_elem b : has_delimiter b = true ↔ delimiter ∈ b.
Proof.
  unfold has_delimiter. rewrite existsb_exists. split.
  - intros (x & Hin & Heq). apply Byte.byte_dec_bl in Heq as <-. by apply list_elem_of_In.
  - intros Hin. exists delimiter. split; [by apply list_elem_of_In | by apply Byte.byte_dec_lb].
Qed.

Lemma bytes_partition_split b line after :
  has_delimiter b = true → bytes_partition b = (line, after) →
  b = line ++ (delimiter :: after) ∧ delimiter ∉ line.
Proof.
  revert line after. induction b as [|x b IH]; intros line after; simpl; [done|].
  destruct (Byte.eqb delimiter x) eqn:Hx.
  - intros _ [= <- <-]. apply Byte.byte_dec_bl in Hx as <-.
    split; [done | apply not_elem_of_nil].
  - simpl. intros Hb. destruct (bytes_partition b) as [line' after'].
    intros [= <- <-]. destruct (IH line' after' Hb eq_refl) as [-> Hnot].
    split; [done|]. apply Byte.eqb_false in Hx.
    rewrite elem_of_cons. intros [?|?]; [congruence | done].
Qed.

Lemma recv_loop_inv sock : ∀ buf b buf' rest,
  recv_loop sock buf = Some (b, buf', rest) →
  ∃ used, sock = used ++ rest
    ∧ (∀ k, k < length used → has_delimiter (buf ++ received (take k used)) = false)
    ∧ if b then buf' = buf ++ received used ∧ has_delimiter buf' = true
      else ∃ pre last, used = pre ++ [last] ∧ end_of_stream last
                       ∧ buf' = buf ++ received pre.
Proof.
  induction sock as [|r sock IH]; intros buf b buf' rest; simpl.
  - destruct (has_delimiter buf) eqn:Hd; [|done]. intros [= <- <- <-].
    exists []. simpl. rewrite app_nil_r. split_and!; [done | intros k; lia | done..].
  - destruct (has_delimiter buf) eqn:Hd.
    { intros [= <- <- <-]. exists []. simpl. rewrite app_nil_r.
      split_and!; [done | intros k; lia | done..]. }
    assert (Hzero : ∀ k used, k < 1 →
              has_delimiter (buf ++ received (take k (used : list recv_result))) = false).
    { intros k used Hk. replace k with 0 by lia. simpl. by rewrite app_nil_r. }
    destruct r as [[|x data]|].
    + intros [= <- <- <-]. exists [RecvData []]. split_and!; [done | intros k Hk; by apply Hzero |].
      exists [], (RecvData []). simpl. rewrite app_nil_r. split_and!; [done | by right | done].
    + intros (used & -> & Hread & Hend)%IH. exists (RecvData (x :: data) :: used).
      split_and!; [done | |].
      * intros [|k] Hk; [apply (Hzero 0 []); lia|].
        simpl in *. specialize (Hread k ltac:(lia)). by rewrite <- app_assoc in Hread.
      * destruct b.
        -- destruct Hend as [-> Hd']. simpl. by rewrite <- app_assoc in *.
        -- destruct Hend as (pre & last & -> & Hlast & ->).
           exists (RecvData (x :: data) :: pre), last. simpl.
           by rewrite <- app_assoc.
    + intros [= <- <- <-]. exists [RecvReset]. split_and!; [done | intros k Hk; by apply Hzero |].
      exists [], RecvReset. simpl. rewrite app_nil_r. split_and!; [done | by left | done].
Qed.

Lemma recv_loop_end_of_stream pre : ∀ last rest buf,
  has_delimiter (buf ++ received pre) = false →
  Forall (λ r, ¬ end_of_stream r) pre → end_of_stream last →
  recv_loop (pre ++ last :: rest) buf = Some (false, buf ++ received pre, rest).
Proof.
  induction pre as [|r pre IH]; intros last rest buf Hd Hpre Hlast; simpl in *.
  - rewrite app_nil_r in *. rewrite Hd. by destruct Hlast as [-> | ->].
  - apply Forall_cons in Hpre as [Hr Hpre].
    assert (has_delimiter buf = false) as ->.
    { apply not_true_is_false. rewrite has_delimiter_elem. intros Hin.
      apply not_true_iff_false in Hd. apply Hd, has_delimiter_elem.
      apply elem_of_app. by left. }
    destruct r as [[|x data]|]; [by destruct Hr; right | | by destruct Hr; left].
    rewrite app_assoc. apply IH; [by rewrite <- app_assoc | done..].
Qed.

Lemma has_delimiter_app a b : has_delimiter (a ++ b) = has_delimiter a || has_delimiter b.
Proof. unfold has_delimiter. apply existsb_app. Qed.

Lemma received_RecvData chunks : received (map RecvData chunks) = concat chunks.
Proof. induction chunks as [|c chunks IH]; simpl; [done|]. by rewrite <- IH. Qed.

Lemma received_app a b : received (a ++ b) = received a ++ received b.
Proof. unfold received. by rewrite !flat_map_concat_map, map_app, concat_app. Qed.

(** The loop of the reader stops at the first read that brings a
    delimiter, whatever the socket has after it, and leaves the reads
    after it on the socket. *)
Lemma recv_loop_chunks chunks : ∀ buf rest,
  Forall (λ c, c ≠ []) chunks → has_delimiter (buf ++ concat chunks) = true →
  ∃ chunks1 chunks2,
    chunks = chunks1 ++ chunks2
    ∧ recv_loop (map RecvData chunks ++ rest) buf
      = Some (true, buf ++ concat chunks1, map RecvData chunks2 ++ rest)
    ∧ has_delimiter (buf ++ concat chunks1) = true
    ∧ ∀ k, k < length chunks1 → has_delimiter (buf ++ concat (take k chunks1)) = false.
Proof.
  induction chunks as [|c chunks IH]; intros buf rest Hne Hd.
  - simpl in Hd. rewrite app_nil_r in Hd. exists [], []. simpl. rewrite app_nil_r.
    split; [done|]. split; [|split; [done | intros k; lia]].
    destruct rest; simpl; by rewrite Hd.
  - destruct (has_delimiter buf) eqn:Hbuf.
    + exists [], (c :: chunks). simpl. rewrite app_nil_r, Hbuf.
      split_and!; [done.. | intros k; lia].
    + apply Forall_cons in Hne as [Hc Hne]. simpl in Hd. rewrite app_assoc in Hd.
      destruct (IH (buf ++ c) rest Hne Hd) as (chunks1 & chunks2 & -> & Hloop & Hd1 & Hmin).
      exists (c :: chunks1), chunks2. simpl. rewrite Hbuf.
      destruct c as [|x c]; [done|]. rewrite Hloop.
      split_and!; [done | by rewrite !app_assoc | by rewrite !app_assoc in * |].
      intros [|k] Hk; simpl.
      * by rewrite app_nil_r.
      * specialize (Hmin k ltac:(simpl in Hk; lia)).
        rewrite <- app_assoc in Hmin. exact Hmin.
Qed.

Lemma recv_loop_chunks_end chunks buf last rest :
  Forall (λ c, c ≠ []) chunks → has_delimiter (buf ++ concat chunks) = false →
  end_of_stream last →
  recv_loop (map RecvData chunks ++ last :: rest) buf = Some (false, buf ++ concat chunks, rest).
Proof.
  intros Hne Hd Hlast. rewrite <- received_RecvData in *.
  apply recv_loop_end_of_stream; [done | | done].
  apply Forall_fmap. eapply Forall_impl; [exact Hne|].
  intros c Hc [[=]|[= ->]]. done.
Qed.

(** C9.  A call of the line reader asks the socket for more only while
    its buffer holds no delimiter; when it returns text, this is the
    bytes before the first delimiter of all that was accumulated,
    decoded, and the bytes after that delimiter stay in the buffer; when
    the peer closes or resets before a record is complete, the call
    returns [None] and raises nothing; and the call does return the
    record: as soon as the buffer and the reads that the socket
    delivers hold a delimiter, the call has taken the reads up to the
    first that completes a record, and no more, and has returned the
    first record, whatever the socket would deliver after that. *)
Theorem NewlineReceiver_call_frames :
  (∀ sock buf r buf' rest,
     NewlineReceiver_call sock buf = Some (r, buf', rest) →
     ∃ used, sock = used ++ rest
       ∧ (∀ k, k < length used → has_delimiter (buf ++ received (take k used)) = false)
       ∧ match r with
         | Return (Some text) =>
             ∃ line, buf ++ received used = line ++ (delimiter :: buf')
                     ∧ (delimiter ∉ line) ∧ utf8_valid line = true
                     ∧ text = string_of_list_byte line
         | Return None =>
             ∃ pre last, used = pre ++ [last] ∧ end_of_stream last
                         ∧ buf' = buf ++ received pre
         | Raise e =>
             e = UnicodeDecodeError
             ∧ ∃ line, buf ++ received used = line ++ (delimiter :: buf')
                       ∧ (delimiter ∉ line) ∧ utf8_valid line = false
         end)
  ∧ (∀ pre last rest buf,
       has_delimiter (buf ++ received pre) = false →
       Forall (λ r, ¬ end_of_stream r) pre → end_of_stream last →
       NewlineReceiver_call (pre ++ last :: rest) buf
       = Some (Return None, buf ++ received pre, rest))
  ∧ (∀ chunks buf rest,
       Forall (λ c, c ≠ []) chunks → has_delimiter (buf ++ concat chunks) = true →
       ∃ chunks1 chunks2 line after,
         chunks = chunks1 ++ chunks2
         ∧ (∀ k, k < length chunks1 →
                 has_delimiter (buf ++ concat (take k chunks1)) = false)
         ∧ buf ++ concat chunks1 = line ++ (delimiter :: after)
         ∧ (delimiter ∉ line)
         ∧ NewlineReceiver_call (map RecvData chunks ++ rest) buf
           = Some (if utf8_valid line then Return (Some (string_of_list_byte line))
                   else Raise UnicodeDecodeError,
                   after, map RecvData chunks2 ++ rest)).
Proof.
  split_and!.
  - intros sock buf r buf' rest. unfold NewlineReceiver_call.
    destruct (recv_loop sock buf) as [[[b acc] rest']|] eqn:Hloop; [|done].
    apply recv_loop_inv in Hloop as (used & -> & Hread & Hend).
    destruct b.
    + destruct Hend as [-> Hd]. destruct (bytes_partition _) as [line after] eqn:Hpart.
      apply bytes_partition_split in Hpart as [Hsplit Hnot]; [|done].
      unfold decode_utf8. destruct (utf8_valid line) eqn:Hvalid.
      * intros [= <- <- <-]. exists used. do 2 (split; [done|]). by exists line.
      * intros [= <- <- <-]. exists used. do 3 (split; [done|]). by exists line.
    + intros [= <- <- <-]. by exists used.
  - intros pre last rest buf Hd Hpre Hlast. unfold NewlineReceiver_call.
    by rewrite recv_loop_end_of_stream.
  - intros chunks buf rest Hne Hd.
    destruct (recv_loop_chunks chunks buf rest Hne Hd)
      as (chunks1 & chunks2 & Hsplit & Hloop & Hd1 & Hmin).
    destruct (bytes_partition (buf ++ concat chunks1)) as [line after] eqn:Hpart.
    pose proof (bytes_partition_split _ _ _ Hd1 Hpart) as [Hbuf Hnot].
    exists chunks1, chunks2, line, after. split_and!; [done..|].
    unfold NewlineReceiver_call. rewrite Hloop, Hpart. unfold decode_utf8.
    by destruct (utf8_valid line).
Qed.

(** A record split over two reads, with the start of the next behind
    it, and a further read waiting on the socket. *)
Lemma NewlineReceiver_call_frames_witness :
  let chunks := [list_byte_of_string "ab"; list_byte_of_string "c" ++ [delimiter; x64]] in
  let pending := [RecvData (list_byte_of_string "zz")] in
  NewlineReceiver_call (map RecvData chunks ++ pending) []
  = Some (Return (Some "abc"), [x64], pending)
  ∧ (∃ used,
       map RecvData chunks ++ pending = used ++ pending
       ∧ ∃ line, [] ++ received used = line ++ (delimiter :: [x64])
                 ∧ "abc" = string_of_list_byte line)
  ∧ (∃ chunks1 chunks2 line after,
       chunks = chunks1 ++ chunks2
       ∧ [] ++ concat chunks1 = line ++ (delimiter :: after)
       ∧ NewlineReceiver_call (map RecvData chunks ++ pending) []
         = Some (if utf8_valid line then Return (Some (string_of_list_byte line))
                 else Raise UnicodeDecodeError,
                 after, map RecvData chunks2 ++ pending)).
Proof.
  intros chunks pending. split; [reflexivity|]. split.
  - destruct (proj1 NewlineReceiver_call_frames
                (map RecvData chunks ++ pending) [] (Return (Some "abc")) [x64] pending
                eq_refl)
      as (used & Hsock & _ & line & Hline & _ & _ & Htext).
    exists used. split; [exact Hsock|]. exists line. split; [exact Hline | exact Htext].
  - assert (Hne : Forall (λ c : list byte, c ≠ []) chunks).
    { repeat (apply Forall_cons; split; [by vm_compute|]). apply Forall_nil_2. }
    destruct (proj2 (proj2 NewlineReceiver_call_frames) chunks [] pending Hne eq_refl)
      as (chunks1 & chunks2 & line & after & Hsplit & _ & Hbuf & _ & Hcall).
    exists chunks1, chunks2, line, after.
    split; [exact Hsplit|]. split; [exact Hbuf | exact Hcall].
Defined.

(** ** What the handlers keep *)

Ltac preserves_tac :=
  repeat match goal with
    | |- preserves _ (ret _) => apply preserves_ret
    | |- preserves _ (raise _) => apply preserves_raise
    | |- preserves _ undefined => apply preserves_undefined
    | |- preserves _ get_world => apply preserves_get_world
    | |- preserves _ (get_thread _) => apply preserves_get_thread
    | |- preserves _ (get_lobby _) => apply preserves_get_lobby
    | |- preserves _ (send_json _ _) => apply preserves_send_json; assumption
    | |- preserves _ (Lobby_message _ _ _) => apply preserves_Lobby_message; assumption
    | |- preserves _ (disconnect_items _ _) => apply preserves_disconnect_items; assumption
    | |- preserves _ (bind _ _) => apply preserves_bind; [|intros ?]
    | |- preserves _ (match ?x with _ => _ end) => destruct x
    | H : preserves _ _ |- preserves _ _ => exact H
    | H : ∀ x, preserves _ _ |- preserves _ _ => apply H
    | H : ∀ x y, preserves _ _ |- preserves _ _ => apply H
    | H : ∀ x y z, preserves _ _ |- preserves _ _ => apply H
    end.

Section HandlerRules.
Context (P : World → Prop) (P_wire : wire_blind P).

Lemma preserves_Lobby_connect l t :
  (∀ n, preserves P (update_lobby l (λ L, set_clients (dict_set n (Some t) (clients L)) L))) →
  preserves P (Lobby_connect l t).
Proof. intros Hup. unfold Lobby_connect. preserves_tac. Qed.

Lemma preserves_Lobby_join t c v :
  (∀ l, preserves P (Lobby_connect l t)) → preserves P (Lobby_join t c v).
Proof. intros Hconn. unfold Lobby_join. preserves_tac. Qed.

Lemma preserves_action_identify t kvs :
  (∀ n, preserves P (update_thread t (set_name n))) →
  (∀ v, preserves P (update_thread t (set_game_version v))) →
  preserves P (action_identify t kvs).
Proof. intros Hn Hv. unfold action_identify, modelled. preserves_tac. Qed.

Lemma preserves_action_create t kvs :
  (∀ v, preserves P (Lobby_create t v)) →
  (∀ l, preserves P (update_thread t (set_lobby (Some l)))) →
  preserves P (action_create t kvs).
Proof. intros Hc Hl. unfold action_create. preserves_tac. Qed.

Lemma preserves_action_join t kvs :
  (∀ c v, preserves P (Lobby_join t c v)) →
  (∀ l, preserves P (update_thread t (set_lobby (Some l)))) →
  preserves P (action_join t kvs).
Proof.
  intros Hj Hl. unfold action_join. preserves_tac.
  apply preserves_try_except.
  - unfold join_with_code. preserves_tac.
  - intros e handler. destruct e; intros [= <-]; preserves_tac.
Qed.

Lemma preserves_action_turn t kvs : preserves P (action_turn t kvs).
Proof. unfold action_turn. preserves_tac. Qed.

Lemma preserves_handle_message t d :
  (∀ kvs, d = JObj kvs → dict_get "action" kvs = Some (JStr "identify") →
          preserves P (action_identify t kvs)) →
  (∀ kvs, d = JObj kvs → dict_get "action" kvs = Some (JStr "create") →
          preserves P (action_create t kvs)) →
  (∀ kvs, d = JObj kvs → dict_get "action" kvs = Some (JStr "join") →
          preserves P (action_join t kvs)) →
  preserves P (handle_message t d).
Proof.
  intros Hi Hc Hj. unfold handle_message.
  destruct d as [| | | | |xs|kvs]; try solve [preserves_tac].
  destruct (dict_get "action" kvs) as [a|] eqn:Ha; [|preserves_tac].
  unfold is_str. destruct a; try solve [preserves_tac].
  repeat case_bool_decide; subst; try solve [preserves_tac].
  - by apply Hi.
  - by apply Hc.
  - by apply Hj.
  - apply preserves_action_turn.
Qed.

Lemma preserves_run_exit t :
  (∀ l n, preserves P (Lobby_disconnect l n)) →
  preserves P (update_thread t (set_socket_closed true)) →
  preserves P (run_exit t).
Proof.
  intros Hd Hc. unfold run_exit. preserves_tac.
  apply preserves_modify. intros w. apply P_wire.
Qed.
End HandlerRules.

(** ** The registry invariant *)

Lemma registry_ok_wire_blind : wire_blind registry_ok.
Proof. intros f w H. exact H. Qed.

Lemma registry_ok_threads_blind : threads_blind registry_ok.
Proof. intros f w H. exact H. Qed.

Lemma preserves_update_thread_blind P t f :
  threads_blind P → preserves P (update_thread t f).
Proof. intros HP. apply preserves_update_thread. intros w th _. apply HP. Qed.

Lemma registry_ok_set_member w l L n t :
  heap w !! l = Some L → registry_ok w →
  registry_ok (set_heap (λ h, <[l := set_clients (dict_set n (Some t) (clients L)) L]> h) w).
Proof.
  intros HL Hok c l' Hc. destruct (Hok c l' Hc) as (L' & HL' & Hcode & Hup & Hact).
  simpl. destruct (decide (l' = l)) as [->|Hne].
  - eexists. rewrite list_lookup_insert_eq by (by eapply lookup_lt_Some).
    assert (L' = L) as -> by congruence.
    split; [reflexivity|]. do 2 (split; [done|]). exists n, t. apply dict_set_elem.
  - exists L'. by rewrite list_lookup_insert_ne.
Qed.

Lemma preserves_registry_ok_Lobby_connect l t : preserves registry_ok (Lobby_connect l t).
Proof.
  apply preserves_Lobby_connect; [apply registry_ok_wire_blind|].
  intros n. apply preserves_update_lobby. intros w L. apply registry_ok_set_member.
Qed.

Lemma forallb_is_tombstone_false (cs : list (string * option tid)) :
  forallb is_tombstone (dict_values cs) = false → ∃ n t, (n, Some t) ∈ cs.
Proof.
  induction cs as [|[n [t|]] cs IH]; simpl; [done| |].
  - intros _. exists n, t. apply list_elem_of_here.
  - intros (n' & t' & Hin)%IH. exists n', t'. by apply list_elem_of_further.
Qed.

(** [Lobby.disconnect], step by step: the tombstone is written; if no
    member is left the registry entry under the lobby's code is deleted
    (a [KeyError] if there is none); then the members left are told. *)
Lemma Lobby_disconnect_inv l n w w' r :
  Lobby_disconnect l n w = Some (w', r) →
  ∃ L, heap w !! l = Some L ∧
    let L' := set_clients (dict_set n None (clients L)) L in
    let w1 := set_heap (λ h, <[l := L']> h) w in
    (forallb is_tombstone (dict_values (clients L')) = true
     ∧ lobbies w !! code L = None ∧ w' = w1 ∧ r = Raise KeyError)
    ∨ (forallb is_tombstone (dict_values (clients L')) = true
       ∧ is_Some (lobbies w !! code L)
       ∧ disconnect_items (clients L') n (set_lobbies (delete (code L)) w1) = Some (w', r))
    ∨ (forallb is_tombstone (dict_values (clients L')) = false
       ∧ disconnect_items (clients L') n w1 = Some (w', r)).
Proof.
  unfold Lobby_disconnect. intros [(w1 & [] & Hup & Hrun)|(e & Hup & _)]%bind_inv;
    apply update_lobby_inv in Hup as (L & HL & -> & ?); [|done].
  exists L. split; [done|]. simpl.
  apply bind_inv in Hrun as [(w2 & L2 & Hget & Hrun)|(e & Hget & _)];
    apply get_lobby_inv in Hget as (-> & L' & HL' & ?); [|done].
  simpl in HL'. rewrite list_lookup_insert_eq in HL' by (by eapply lookup_lt_Some).
  simplify_eq. simpl in Hrun.
  destruct (forallb is_tombstone _) eqn:Hall.
  - apply bind_inv in Hrun as [(w2 & [] & Hdel & Hrun)|(e & Hdel & ->)];
      unfold del_lobbies, bind, get_world, modify, raise in Hdel; simpl in Hdel;
      destruct (lobbies w !! code L) eqn:Hreg; simplify_eq.
    + right; left. eauto.
    + left. done.
  - right; right. split; [done|].
    by apply bind_inv in Hrun as [(w2 & [] & [= <-] & Hrun)|(e & [=] & _)].
Qed.

Lemma preserves_registry_ok_Lobby_disconnect l n :
  preserves registry_ok (Lobby_disconnect l n).
Proof.
  intros w w' r (L & HL & Hcases)%Lobby_disconnect_inv Hok. simpl in Hcases.
  set (L' := set_clients (dict_set n None (clients L)) L) in *.
  assert (Hother : ∀ c l', lobbies w !! c = Some l' → l' ≠ l →
            ∃ L0, <[l := L']> (heap w) !! l' = Some L0 ∧ code L0 = c
                  ∧ uppercase_code c ∧ active_member L0).
  { intros c l' Hc Hne. rewrite list_lookup_insert_ne by done. by apply Hok. }
  assert (Hcode : ∀ c, lobbies w !! c = Some l → c = code L).
  { intros c Hc. destruct (Hok c l Hc) as (L0 & HL0 & <- & _).
    rewrite HL in HL0. by injection HL0 as ->. }
  destruct Hcases as [(Hall & Hreg & -> & _)|[(Hall & Hreg & Hrun)|(Hall & Hrun)]].
  - intros c l' Hc. simpl in *. apply Hother; [done|].
    intros ->. rewrite (Hcode _ Hc) in Hc. congruence.
  - eapply preserves_disconnect_items; [apply registry_ok_wire_blind | exact Hrun |].
    intros c l' Hc. simpl in *.
    apply lookup_delete_Some in Hc as [Hne Hc]. apply Hother; [done|].
    intros ->. apply Hcode in Hc. congruence.
  - eapply preserves_disconnect_items; [apply registry_ok_wire_blind | exact Hrun |].
    intros c l' Hc. simpl in *. destruct (decide (l' = l)) as [->|Hne]; [|by apply Hother].
    destruct (Hok c l Hc) as (L0 & HL0 & Hc0 & Hup & _).
    exists L'. rewrite list_lookup_insert_eq by (by eapply lookup_lt_Some).
    rewrite HL in HL0. injection HL0 as ->.
    do 3 (split; [done|]). by apply forallb_is_tombstone_false.
Qed.

(** [Lobby.generate_code] *)

Lemma random_choice_uppercase i :
  random_choice ascii_uppercase i ∈ list_ascii_of_string ascii_uppercase.
Proof.
  unfold random_choice.
  assert (Hlt : i mod String.length ascii_uppercase < 26)
    by (apply Nat.mod_upper_bound; by vm_compute).
  revert Hlt. generalize (i mod String.length ascii_uppercase). intros k Hk.
  do 26 (destruct k as [|k]; [by apply (bool_decide_unpack _)|]). lia.
Qed.

Lemma code_of_draws_uppercase a b c d : uppercase_code (code_of_draws a b c d).
Proof.
  split; [done|]. unfold code_of_draws. simpl.
  repeat (apply Forall_cons; split; [apply random_choice_uppercase|]). apply Forall_nil_2.
Qed.

Lemma generate_code_loop_inv reg tape c rest :
  generate_code_loop reg tape = Some (c, rest) →
  uppercase_code c ∧ reg !! c = None ∧ rest `suffix_of` tape.
Proof.
  remember (length tape) as k eqn:Hk. revert tape Hk.
  induction k as [k IH] using lt_wf_ind. intros tape Hk.
  destruct tape as [|a [|b [|c0 [|d tape]]]]; try done. simpl.
  destruct (reg !! code_of_draws a b c0 d) eqn:Hreg.
  - intros (Hup & Hfresh & Hsuf)%(IH (length tape)); [|simpl in Hk; lia | done].
    do 2 (split; [done|]). by do 4 apply suffix_cons_r.
  - intros [= <- <-]. split; [apply code_of_draws_uppercase|]. split; [done|].
    by do 4 apply suffix_cons_r.
Qed.

(** Rounds that hit registered codes are retried, and the first round
    that does not is returned. *)
Lemma generate_code_loop_returns reg (rounds : list (nat * nat * nat * nat)) a b c d rest :
  Forall (λ '(a', b', c', d'), is_Some (reg !! code_of_draws a' b' c' d')) rounds →
  reg !! code_of_draws a b c d = None →
  generate_code_loop reg
    (flat_map (λ '(a', b', c', d'), [a'; b'; c'; d']) rounds ++ a :: b :: c :: d :: rest)
  = Some (code_of_draws a b c d, rest).
Proof.
  intros Hrounds Hfresh. induction Hrounds as [|[[[a' b'] c'] d'] rounds [x Hx] _ IH]; simpl.
  - by rewrite Hfresh.
  - by rewrite Hx.
Qed.

Lemma Lobby_generate_code_inv w w' r :
  Lobby_generate_code w = Some (w', r) →
  ∃ c rest, r = Return c ∧ w' = set_random (λ _, rest) w
            ∧ uppercase_code c ∧ lobbies w !! c = None.
Proof.
  unfold Lobby_generate_code.
  destruct (generate_code_loop _ _) as [[c rest]|] eqn:Hloop; [|done].
  intros [= <- <-]. apply generate_code_loop_inv in Hloop as (? & ? & ?). eauto 10.
Qed.

(** [Lobby.connect] and [Lobby.create], step by step *)

Lemma Lobby_connect_inv l t w w' r :
  Lobby_connect l t w = Some (w', r) →
  ∃ th n L, threads w !! t = Some th ∧ name th = Some n ∧ heap w !! l = Some L ∧
    Lobby_message l (connect_frame n) []
      (set_heap (λ h, <[l := set_clients (dict_set n (Some t) (clients L)) L]> h) w)
    = Some (w', r).
Proof.
  unfold Lobby_connect. intros [(w1 & th & Hget & Hrun)|(e & Hget & _)]%bind_inv;
    apply get_thread_inv in Hget as (-> & th' & Hth & Heq); [injection Heq as <-|done].
  destruct (name th) as [n|] eqn:Hn; [|done].
  apply bind_inv in Hrun as [(w1 & [] & Hup & Hrun)|(e & Hup & _)];
    apply update_lobby_inv in Hup as (L & HL & -> & ?); [|done].
  by exists th, n, L.
Qed.

Lemma Lobby_create_inv t v w w' r :
  Lobby_create t v w = Some (w', r) →
  ∃ c rest th n, uppercase_code c ∧ lobbies w !! c = None
    ∧ threads w !! t = Some th ∧ name th = Some n ∧
    let l := length (heap w) in
    (Lobby_message l (connect_frame n) [] ;;
     Lobby_message l [("action", JStr "code"); ("code", JStr c)] [] ;;
     ret l)
      (mkWorld (<[c := l]> (lobbies w)) (heap w ++ [mkLobby c v [(n, Some t)] 2])
               (threads w) (wire w) rest)
    = Some (w', r).
Proof.
  unfold Lobby_create. intros [(w1 & c & Hgen & Hrun)|(e & Hgen & _)]%bind_inv;
    apply Lobby_generate_code_inv in Hgen as (c' & rest & ? & -> & Hup & Hfresh); [|done].
  simplify_eq.
  erewrite bind_run in Hrun by reflexivity.
  erewrite bind_run in Hrun by reflexivity. simpl in Hrun.
  apply bind_inv in Hrun as [(w1 & [] & Hconn & Hrun)|(e & Hconn & ->)];
    apply Lobby_connect_inv in Hconn as (th & n & L & Hth & Hn & HL & Hmsg);
    simpl in HL, Hth; rewrite lookup_app_r, Nat.sub_diag in HL by done;
    injection HL as <-;
    cbv [set_heap set_lobbies set_random set_clients heap lobbies threads wire random
         code version max_players] in Hmsg;
    rewrite (insert_app_r_alt _ _ (length (heap w))), Nat.sub_diag in Hmsg by done;
    simpl in Hmsg; exists c', rest, th, n; (do 4 (split; [done|])); simpl.
  - by rewrite (bind_run _ _ _ _ _ Hmsg).
  - by rewrite (bind_raise _ _ _ _ _ Hmsg).
Qed.

Lemma preserves_registry_ok_Lobby_create t v : preserves registry_ok (Lobby_create t v).
Proof.
  intros w w' r (c & rest & th & n & Hup & Hfresh & Hth & Hn & Hrun)%Lobby_create_inv Hok.
  simpl in Hrun.
  assert (Hp : ∀ l, preserves registry_ok
            (Lobby_message l (connect_frame n) [] ;;
             Lobby_message l [("action", JStr "code"); ("code", JStr c)] [] ;;
             ret l)).
  { intros l. pose proof registry_ok_wire_blind. preserves_tac. }
  eapply Hp; [exact Hrun|]. clear Hp Hrun.
  intros c' l' Hc. simpl in *. destruct (decide (c' = c)) as [->|Hne].
  - rewrite lookup_insert_eq in Hc. injection Hc as <-.
    eexists. rewrite lookup_app_r, Nat.sub_diag by done. split; [done|].
    do 2 (split; [done|]). exists n, t. apply list_elem_of_here.
  - rewrite lookup_insert_ne in Hc by done.
    destruct (Hok c' l' Hc) as (L0 & HL0 & ?). exists L0.
    split; [|done]. by apply lookup_app_l_Some.
Qed.

Lemma preserves_registry_ok_Lobby_join t c v : preserves registry_ok (Lobby_join t c v).
Proof.
  apply preserves_Lobby_join. intros l. apply preserves_registry_ok_Lobby_connect.
Qed.

(** ** The steps of the server *)

Section ServerFacts.
Context (json_loads : string → option json).

Lemma step_Iterate_inv w t sock w' :
  step json_loads w (Iterate t sock) = Some w' →
  ∃ th received buf w2 r,
    threads w !! t = Some th ∧ alive th = Running
    ∧ NewlineReceiver_call sock (buffer th) = Some (received, buf, [])
    ∧ run_iteration json_loads t received
        (set_threads (λ ts, <[t := set_buffer buf th]> ts) w) = Some (w2, r)
    ∧ w' = match r with
           | Return true => w2
           | Return false => set_threads (alter (set_alive Finished) t) w2
           | Raise e => set_threads (alter (set_alive (Crashed e)) t) w2
           end.
Proof.
  simpl. destruct (threads w !! t) as [th|] eqn:Hth; [|done].
  destruct (alive th) eqn:Halive; try done.
  destruct (NewlineReceiver_call _ _) as [[[received buf] [|]]|] eqn:Hrecv; try done.
  destruct (run_iteration _ _ _ _) as [[w2 [[]|e]]|] eqn:Hrun; intros [= <-];
    by exists th, received, buf, w2; eexists.
Qed.

Lemma preserves_run_iteration P t received :
  (∀ d, preserves P (handle_message t d)) → preserves P (run_exit t) →
  preserves P (run_iteration json_loads t received).
Proof.
  intros Hh He. unfold run_iteration. destruct received as [[message|]|e]; preserves_tac.
Qed.

(** A predicate on the registry and the lobbies that the three
    operations of the registry keep is kept by every step. *)
Lemma step_preserves P w lab w' :
  wire_blind P → threads_blind P →
  (∀ t v, preserves P (Lobby_create t v)) →
  (∀ t c v, preserves P (Lobby_join t c v)) →
  (∀ l n, preserves P (Lobby_disconnect l n)) →
  step json_loads w lab = Some w' → P w → P w'.
Proof.
  intros Hwire Hthreads Hcreate Hjoin Hdisc Hstep HP.
  assert (Hupd : ∀ t f, preserves P (update_thread t f))
    by (intros; by apply preserves_update_thread_blind).
  destruct lab as [|t sock].
  - injection Hstep as <-. by apply Hthreads.
  - apply step_Iterate_inv in Hstep as (th & received & buf & w2 & r & _ & _ & _ & Hrun & ->).
    assert (P w2) as HP2.
    { eapply preserves_run_iteration; [| |exact Hrun|by apply Hthreads].
      - intros d. apply preserves_handle_message; [done|intros kvs _ _..].
        + by apply preserves_action_identify.
        + by apply preserves_action_create.
        + by apply preserves_action_join.
      - by apply preserves_run_exit. }
    destruct r as [[]|e]; [done | by apply Hthreads..].
Qed.

Lemma reachable_registry_ok w : reachable json_loads w → registry_ok w.
Proof.
  induction 1 as [tape|w lab w' _ IH Hstep].
  - intros c l Hc. simpl in Hc. by rewrite lookup_empty in Hc.
  - eapply step_preserves; [..|exact Hstep|exact IH].
    + apply registry_ok_wire_blind.
    + apply registry_ok_threads_blind.
    + apply preserves_registry_ok_Lobby_create.
    + apply preserves_registry_ok_Lobby_join.
    + apply preserves_registry_ok_Lobby_disconnect.
Qed.
End ServerFacts.

Lemma exec_reachable json_loads labs : ∀ w w',
  reachable json_loads w → exec json_loads w labs = Some w' → reachable json_loads w'.
Proof.
  induction labs as [|lab labs IH]; intros w w' Hw; simpl.
  - by intros [= <-].
  - destruct (step json_loads w lab) as [w1|] eqn:Hstep; [|done].
    apply IH. by eapply reachable_step.
Qed.

Lemma world_after_reachable labs : reachable Json.loads (Scenario.world_after labs).
Proof.
  unfold Scenario.world_after, Scenario.after.
  destruct (exec _ _ _) as [w|] eqn:Hexec; [|apply reachable_initial].
  eapply exec_reachable; [apply reachable_initial | exact Hexec].
Qed.

(** ** Memberships are dictionaries *)

Section PyDictKeys.
Context {V : Type}.
Implicit Types (d : list (string * V)) (k : string) (v : V).

Lemma dict_has_keys k d : dict_has k d = true ↔ k ∈ dict_keys d.
Proof.
  unfold dict_has, dict_keys. induction d as [|[k' v'] d IH]; simpl.
  - split; [done | by intros ?%not_elem_of_nil].
  - rewrite elem_of_cons. destruct (decide (k = k')); [by split; auto|].
    rewrite IH. split; [by right | by intros [?|?]].
Qed.

Lemma dict_keys_set k v d :
  dict_keys (dict_set k v d) = if dict_has k d then dict_keys d else dict_keys d ++ [k].
Proof.
  unfold dict_has, dict_keys. induction d as [|[k' v'] d IH]; csimpl; [done|].
  destruct (decide (k = k')); csimpl; [done|].
  rewrite IH. by destruct (dict_get k d).
Qed.

Lemma dict_set_NoDup k v d : NoDup (dict_keys d) → NoDup (dict_keys (dict_set k v d)).
Proof.
  intros Hd. rewrite dict_keys_set. destruct (dict_has k d) eqn:Hk; [done|].
  apply NoDup_app. split_and!; [done | | apply NoDup_singleton].
  intros x Hx ->%list_elem_of_singleton.
  apply dict_has_keys in Hx. congruence.
Qed.

Lemma dict_NoDup_functional k v1 v2 d :
  NoDup (dict_keys d) → (k, v1) ∈ d → (k, v2) ∈ d → v1 = v2.
Proof.
  unfold dict_keys. induction d as [|[k' v'] d IH]; simpl.
  - by intros _ ?%not_elem_of_nil.
  - intros [Hnot Hd]%NoDup_cons [[= -> ->]|H1]%elem_of_cons [[= ?]|H2]%elem_of_cons;
      [done | | | by apply IH].
    + destruct Hnot. by apply (list_elem_of_fmap_2 fst _ (k', v2)).
    + subst. destruct Hnot. by apply (list_elem_of_fmap_2 fst _ (k', v1)).
Qed.
End PyDictKeys.

Lemma tombstone_last_active (cs : list (string * option tid)) n :
  NoDup (dict_keys cs) → (∀ n' t', (n', Some t') ∈ cs → n' = n) →
  forallb is_tombstone (dict_values (dict_set n None cs)) = true.
Proof.
  intros Hd Hlast. apply forallb_forall. intros c Hc.
  apply list_elem_of_In, list_elem_of_fmap in Hc as ([k c'] & -> & Hin). simpl.
  destruct c' as [t'|]; [|done]. destruct (decide (k = n)) as [->|Hne].
  - pose proof (dict_set_elem n None cs) as Hn.
    by pose proof (dict_NoDup_functional _ _ _ _ (dict_set_NoDup n None cs Hd) Hin Hn).
  - apply dict_set_elem_ne in Hin; [|done]. by apply Hlast in Hin.
Qed.

Lemma disconnect_items_tombstones items n w :
  forallb is_tombstone (dict_values items) = true →
  disconnect_items items n w = Some (w, Return tt).
Proof.
  induction items as [|[n' [t'|]] items IH]; simpl; intros H.
  - done.
  - done.
  - rewrite (bind_run _ _ _ w tt) by done. by apply IH.
Qed.

Section HeapRules.
Context (P : World → Prop) (P_wire : wire_blind P).

Lemma preserves_Lobby_disconnect l n :
  preserves P (update_lobby l (λ L, set_clients (dict_set n None (clients L)) L)) →
  (∀ c, preserves P (modify (set_lobbies (delete c)))) →
  preserves P (Lobby_disconnect l n).
Proof. intros Hup Hdel. unfold Lobby_disconnect, del_lobbies. preserves_tac. Qed.

Lemma preserves_Lobby_create t v :
  preserves P Lobby_generate_code →
  (∀ c, preserves P (new_Lobby c v)) →
  (∀ c l, preserves P (modify (set_lobbies (<[c := l]>)))) →
  (∀ l, preserves P (Lobby_connect l t)) →
  preserves P (Lobby_create t v).
Proof. intros Hgen Hnew Hins Hconn. unfold Lobby_create. preserves_tac. Qed.
End HeapRules.

Lemma heap_ok_update w l L cs :
  heap w !! l = Some L → NoDup (dict_keys cs) → heap_ok w →
  heap_ok (set_heap (λ h, <[l := set_clients cs L]> h) w).
Proof.
  intros HL Hcs Hok l' L'. simpl. destruct (decide (l' = l)) as [->|Hne].
  - rewrite list_lookup_insert_eq by (by eapply lookup_lt_Some). intros [= <-].
    split; [done|]. by apply (Hok l L).
  - rewrite list_lookup_insert_ne by done. apply Hok.
Qed.

Lemma preserves_heap_ok_Lobby_connect l t : preserves heap_ok (Lobby_connect l t).
Proof.
  apply preserves_Lobby_connect; [by intros f w|].
  intros n. apply preserves_update_lobby. intros w L HL Hok.
  apply heap_ok_update; [done | | done]. apply dict_set_NoDup. by apply (Hok l L).
Qed.

Lemma reachable_heap_ok json_loads w : reachable json_loads w → heap_ok w.
Proof.
  induction 1 as [tape|w lab w' _ IH Hstep]; [by intros l L [=]|].
  eapply step_preserves; [by intros f w0.. | | | | exact Hstep | exact IH].
  - intros t v. apply preserves_Lobby_create; [by intros f w0 | | | |].
    + intros w0 w1 r (c & rest & _ & -> & _)%Lobby_generate_code_inv. done.
    + intros c w0 w1 r [= <- <-] Hok l L. simpl.
      intros [Hl|[_ Hl]]%lookup_app_Some; [by apply (Hok l L)|].
      apply list_lookup_singleton_Some in Hl as [_ <-]. split; [apply NoDup_nil_2 | done].
    + intros c l. by apply preserves_modify.
    + intros l. apply preserves_heap_ok_Lobby_connect.
  - intros t c v. apply preserves_Lobby_join. intros l. apply preserves_heap_ok_Lobby_connect.
  - intros l n. apply preserves_Lobby_disconnect; [by intros f w0 | |].
    + apply preserves_update_lobby. intros w0 L HL Hok.
      apply heap_ok_update; [done | | done]. apply dict_set_NoDup. by apply (Hok l L).
    + intros c. by apply preserves_modify.
Qed.

Lemma Lobby_disconnect_last l n w L l' :
  heap w !! l = Some L → lobbies w !! code L = Some l' →
  forallb is_tombstone (dict_values (dict_set n None (clients L))) = true →
  Lobby_disconnect l n w
  = Some (set_lobbies (delete (code L))
            (set_heap (λ h, <[l := set_clients (dict_set n None (clients L)) L]> h) w),
          Return tt).
Proof.
  intros HL Hreg Hall. unfold Lobby_disconnect.
  erewrite bind_run by (by apply update_lobby_run).
  erewrite bind_run
    by (apply get_lobby_run; simpl; apply list_lookup_insert_eq; by eapply lookup_lt_Some).
  simpl. rewrite Hall.
  erewrite bind_run; [by apply disconnect_items_tombstones|].
  unfold del_lobbies. erewrite bind_run by reflexivity. simpl. by rewrite Hreg.
Qed.

(** C5.  In every state the server can reach, a lobby that is in the
    registry has a member entry that is not a tombstone; and when
    [disconnect] tombstones the only member of a registered lobby that is
    still active, it returns with the lobby removed from the registry. *)
Theorem registry_holds_only_lobbies_with_an_active_member json_loads w :
  reachable json_loads w →
  (∀ c l, lobbies w !! c = Some l → ∃ L, heap w !! l = Some L ∧ active_member L)
  ∧ (∀ c l L n,
       lobbies w !! c = Some l → heap w !! l = Some L →
       (∀ n' t', (n', Some t') ∈ clients L → n' = n) →
       ∃ w', Lobby_disconnect l n w = Some (w', Return tt)
             ∧ lobbies w' = delete c (lobbies w)
             ∧ ¬ registered w' l).
Proof.
  intros Hreach. pose proof (reachable_registry_ok _ _ Hreach) as Hok.
  pose proof (reachable_heap_ok _ _ Hreach) as Hheap. split.
  - intros c l Hc. destruct (Hok c l Hc) as (L & HL & _ & _ & Hact). eauto.
  - intros c l L n Hc HL Hlast.
    assert (code L = c) as Hcode.
    { destruct (Hok c l Hc) as (L0 & HL0 & <- & _). congruence. }
    eexists. split; [|split].
    + apply (Lobby_disconnect_last l n w L l); [done | by rewrite Hcode |].
      apply tombstone_last_active; [by apply (Hheap l L) | done].
    + simpl. by rewrite Hcode.
    + intros (c' & Hc'). simpl in Hc'. apply lookup_delete_Some in Hc' as [Hne Hc'].
      destruct (Hok c' l Hc') as (L0 & HL0 & <- & _). congruence.
Qed.

(** Bob has left the lobby KDQZ; Alice is its last active member. *)
Lemma registry_holds_only_lobbies_with_an_active_member_witness :
  let w := Scenario.world_after Scenario.bob_left in
  lobbies w !! "KDQZ" = Some 0
  ∧ (∃ L, heap w !! 0 = Some L ∧ active_member L)
  ∧ ∃ w', Lobby_disconnect 0 "Alice" w = Some (w', Return tt)
          ∧ lobbies w' = delete "KDQZ" (lobbies w) ∧ ¬ registered w' 0.
Proof.
  intros w.
  destruct (registry_holds_only_lobbies_with_an_active_member
              Json.loads w (world_after_reachable Scenario.bob_left)) as [Hactive Hlast].
  assert (Hreg : lobbies w !! "KDQZ" = Some 0) by (vm_compute; reflexivity).
  split; [exact Hreg|]. split; [exact (Hactive "KDQZ" 0 Hreg)|].
  apply (Hlast "KDQZ" 0 (mkLobby "KDQZ" (Some "v1") [("Alice", Some 0); ("Bob", None)] 2) "Alice").
  - exact Hreg.
  - vm_compute; reflexivity.
  - intros n' t' Hin. simpl in Hin.
    apply elem_of_cons in Hin as [[= -> _]|Hin]; [reflexivity|].
    apply elem_of_cons in Hin as [[=]|Hin]. by apply not_elem_of_nil in Hin.
Defined.

(** C6.  A code that [generate_code] returns has four characters, each
    of them an uppercase letter, and is not a key of the registry when it
    is returned; and in every state the server can reach, a registered
    lobby carries the four-letter code it is registered under, so that
    two registered lobbies never carry the same code. *)
Theorem generate_code_is_uppercase_and_unused json_loads :
  (∀ w w' r,
     Lobby_generate_code w = Some (w', r) →
     ∃ c, r = Return c ∧ uppercase_code c ∧ lobbies w !! c = None
          ∧ lobbies w' = lobbies w)
  ∧ (∀ w c1 c2 l1 l2 L1 L2,
       reachable json_loads w →
       lobbies w !! c1 = Some l1 → lobbies w !! c2 = Some l2 →
       heap w !! l1 = Some L1 → heap w !! l2 = Some L2 →
       uppercase_code c1 ∧ code L1 = c1 ∧ (code L1 = code L2 → l1 = l2)).
Proof.
  split.
  - intros w w' r (c & rest & -> & -> & Hup & Hfresh)%Lobby_generate_code_inv.
    by exists c.
  - intros w c1 c2 l1 l2 L1 L2 Hreach Hc1 Hc2 HL1 HL2.
    pose proof (reachable_registry_ok _ _ Hreach) as Hok.
    destruct (Hok c1 l1 Hc1) as (L1' & HL1' & Hcode1 & Hup & _).
    destruct (Hok c2 l2 Hc2) as (L2' & HL2' & Hcode2 & _).
    assert (L1' = L1) as -> by congruence. assert (L2' = L2) as -> by congruence.
    do 2 (split; [done|]). intros Heq. congruence.
Qed.

(** The first round of draws spells ABCD, which is taken; the second
    spells KDQZ. *)
Lemma generate_code_is_uppercase_and_unused_witness :
  let w := mkWorld {["ABCD" := 0]} [mkLobby "ABCD" (Some "v1") [("Alice", Some 0)] 2]
             [new_ClientThread] [] [0; 1; 2; 3; 10; 3; 16; 25] in
  Lobby_generate_code w = Some (set_random (λ _, []) w, Return "KDQZ")
  ∧ ∃ c, Return "KDQZ" = Return c ∧ uppercase_code c ∧ lobbies w !! c = None
         ∧ lobbies (set_random (λ _, []) w) = lobbies w.
Proof.
  intros w.
  assert (Hrun : Lobby_generate_code w = Some (set_random (λ _, []) w, Return "KDQZ"))
    by (vm_compute; reflexivity).
  split; [exact Hrun|].
  exact (proj1 (generate_code_is_uppercase_and_unused Json.loads) w _ _ Hrun).
Defined.

(** ** Sending to a lobby *)

Lemma send_json_open t d w th :
  threads w !! t = Some th → socket_closed th = false →
  send_json t d w = Some (set_wire (λ evs, evs ++ [Sent t d]) w, Return tt).
Proof.
  intros Hth Hopen. unfold send_json.
  rewrite (bind_run _ _ _ _ _ (get_thread_run _ _ _ Hth)). by rewrite Hopen.
Qed.

Lemma send_json_inv t d w w' r :
  send_json t d w = Some (w', r) →
  (r = Raise OSError ∧ w' = w)
  ∨ (r = Return tt ∧ w' = set_wire (λ evs, evs ++ [Sent t d]) w).
Proof.
  unfold send_json. intros [(w1 & th & Hget & Hrun)|(e & Hget & _)]%bind_inv;
    apply get_thread_inv in Hget as (-> & th' & Hth & Heq); [injection Heq as <-|done].
  destruct (socket_closed th); injection Hrun as <- <-; auto.
Qed.

Lemma recipients_cons_Some ex n t cs :
  recipients ex ((n, Some t) :: cs)
  = if decide (t ∈ ex) then recipients ex cs else t :: recipients ex cs.
Proof.
  unfold recipients. csimpl. destruct (decide (t ∈ ex)).
  - by rewrite filter_cons_False by (by intros ?).
  - by rewrite filter_cons_True.
Qed.

Lemma recipients_not_excluded ex cs t : t ∈ recipients ex cs → t ∉ ex.
Proof. unfold recipients. by intros [? _]%list_elem_of_filter. Qed.

(** Whatever its outcome, [message] has sent the payload to the first
    few of the recipients, in their order, and to all of them when it
    returns. *)
Lemma message_items_inv items d ex : ∀ w w' r,
  message_items items d ex w = Some (w', r) →
  same_store w w'
  ∧ ∃ ts, ts `prefix_of` recipients ex items
          ∧ emitted w w' (map (λ t, Sent t d) ts)
          ∧ (r = Return tt → ts = recipients ex items).
Proof.
  unfold emitted.
  induction items as [|[n c] items IH]; intros w w' r; simpl.
  - intros [= <- <-]. split; [done|]. exists []. by rewrite app_nil_r.
  - intros [(w1 & [] & Hhead & Hrest)|(e & Hhead & ->)]%bind_inv.
    + apply IH in Hrest as (Hstore & ts & Hpre & Hwire & Hall).
      destruct c as [t|]; simpl in Hhead.
      * rewrite recipients_cons_Some. case_bool_decide; simpl in Hhead.
        -- rewrite decide_True by done. injection Hhead as <-. eauto.
        -- rewrite decide_False by done.
           apply send_json_inv in Hhead as [[[=] _]|[_ ->]].
           split; [done|]. exists (t :: ts). split_and!.
           ++ by apply prefix_cons.
           ++ rewrite Hwire. simpl. by rewrite <- app_assoc.
           ++ intros Hr. by rewrite Hall.
      * done.
    + split.
      * destruct c as [t|]; simpl in Hhead; [|by injection Hhead as <-].
        case_bool_decide; simpl in Hhead; [by injection Hhead|].
        by apply send_json_inv in Hhead as [[_ ->]|[[=] _]].
      * exists []. split_and!; [apply prefix_nil | | done].
        destruct c as [t|]; simpl in Hhead; [|injection Hhead as <-; by rewrite app_nil_r].
        case_bool_decide; simpl in Hhead; [by injection Hhead|].
        apply send_json_inv in Hhead as [[_ ->]|[[=] _]]. by rewrite app_nil_r.
Qed.

(** With no tombstone among the members and every recipient's socket
    open, [message] returns. *)
Lemma message_items_run items d ex : ∀ w,
  (∀ n, (n, None) ∉ items) →
  (∀ t, t ∈ recipients ex items → socket_open w t) →
  ∃ w', message_items items d ex w = Some (w', Return tt)
        ∧ same_store w w'
        ∧ emitted w w' (map (λ t, Sent t d) (recipients ex items)).
Proof.
  unfold emitted.
  induction items as [|[n c] items IH]; intros w Hnone Hopen; simpl.
  - exists w. by rewrite app_nil_r.
  - destruct c as [t|]; [|by destruct (Hnone n); apply list_elem_of_here].
    assert (Hnone' : ∀ n', (n', None) ∉ items).
    { intros n' Hin. apply (Hnone n'). by apply list_elem_of_further. }
    rewrite recipients_cons_Some in *. simpl. case_bool_decide; simpl.
    + rewrite decide_True in * by done.
      destruct (IH w Hnone' Hopen) as (w' & Hrun & ?). exists w'.
      by rewrite (bind_run _ _ _ w tt).
    + rewrite decide_False in * by done.
      destruct (Hopen t) as (th & Hth & Hsock); [apply list_elem_of_here|].
      destruct (IH (set_wire (λ evs, evs ++ [Sent t d]) w) Hnone')
        as (w' & Hrun & Hstore & Hwire).
      { intros t' Hin. apply Hopen. by apply list_elem_of_further. }
      exists w'. rewrite (bind_run _ _ _ _ _ (send_json_open _ _ _ _ Hth Hsock)).
      split_and!; [done.. |]. rewrite Hwire. simpl. by rewrite <- app_assoc.
Qed.

(** C7.  A turn sent by a member of a lobby goes out with the name field
    set to the sender's name and every other field as it came; whatever
    happens, it is only sent to members other than the sender; and when
    no member is tombstoned and the others' sockets are open, each of
    them receives it. *)
Theorem turn_is_relayed_to_the_others w t th n l L d :
  threads w !! t = Some th → name th = Some n → lobby th = Some l →
  heap w !! l = Some L →
  let payload := dict_set "name" (JStr n) d in
  (dict_get "name" payload = Some (JStr n)
   ∧ ∀ k, k ≠ "name" → dict_get k payload = dict_get k d)
  ∧ (∀ w' r, action_turn t d w = Some (w', r) →
       same_store w w'
       ∧ ∃ ts, ts `prefix_of` recipients [t] (clients L)
               ∧ emitted w w' (map (λ t', Sent t' payload) ts)
               ∧ t ∉ ts)
  ∧ ((∀ n', (n', None) ∉ clients L) →
     (∀ t', t' ∈ recipients [t] (clients L) → socket_open w t') →
     ∃ w', action_turn t d w = Some (w', Return tt)
           ∧ same_store w w'
           ∧ emitted w w' (map (λ t', Sent t' payload) (recipients [t] (clients L)))).
Proof.
  intros Hth Hn Hl HL payload.
  assert (Hturn : action_turn t d w = message_items (clients L) payload [t] w).
  { unfold action_turn. rewrite (bind_run _ _ _ _ _ (get_thread_run _ _ _ Hth)).
    rewrite Hn, Hl. unfold Lobby_message.
    by rewrite (bind_run _ _ _ _ _ (get_lobby_run _ _ _ HL)). }
  split; [|split].
  - split; [apply dict_get_set_eq|]. intros k Hk. by apply dict_get_set_ne.
  - intros w' r. rewrite Hturn.
    intros (Hstore & ts & Hpre & Hwire & _)%message_items_inv.
    split; [done|]. exists ts. split_and!; [done..|].
    intros Hin. eapply recipients_not_excluded; [by eapply elem_of_prefix|].
    apply list_elem_of_here.
  - intros Hnone Hopen. rewrite Hturn. by apply message_items_run.
Qed.

(** Alice's turn reaches Bob, with her name in it, and nobody else. *)
Lemma turn_is_relayed_to_the_others_witness :
  let w := Scenario.world_after Scenario.paired in
  let d := [("action", JStr "turn"); ("move", JNum 5)] in
  ∃ w', action_turn 0 d w = Some (w', Return tt)
        ∧ same_store w w'
        ∧ emitted w w' [Sent 1 [("action", JStr "turn"); ("move", JNum 5);
                                ("name", JStr "Alice")]].
Proof.
  intros w d.
  refine (proj2 (proj2 (turn_is_relayed_to_the_others w 0
            (mkClientThread [] (Some "Alice") (Some "v1") (Some 0) false Running)
            "Alice" 0
            (mkLobby "KDQZ" (Some "v1") [("Alice", Some 0); ("Bob", Some 1)] 2) d
            _ _ _ _)) _ _);
    try (vm_compute; reflexivity).
  - intros n' Hin. simpl in Hin.
    repeat (apply elem_of_cons in Hin as [[=]|Hin]). by apply not_elem_of_nil in Hin.
  - intros t' Hin. vm_compute in Hin.
    apply list_elem_of_singleton in Hin as ->.
    eexists. split; vm_compute; reflexivity.
Defined.

(** ** Joining *)

Lemma try_except_raise {A} (c : M A) h w w1 e handler :
  c w = Some (w1, Raise e) → h e = Some handler → try_except c h w = handler w1.
Proof. unfold try_except. by intros -> ->. Qed.

Lemma try_except_uncaught {A} (c : M A) h w w1 e :
  c w = Some (w1, Raise e) → h e = None → try_except c h w = Some (w1, Raise e).
Proof. unfold try_except. by intros -> ->. Qed.

Lemma message_items_raises items d ex : ∀ w w' e,
  message_items items d ex w = Some (w', Raise e) → e = OSError ∨ e = AttributeError.
Proof.
  induction items as [|[n c] items IH]; intros w w' e; simpl; [done|].
  intros [(w1 & [] & _ & Hrest)|(e' & Hhead & [= <-])]%bind_inv; [by eapply IH|].
  destruct (not_in_exclude c ex); [|done].
  destruct c as [t|]; [|injection Hhead as _ <-; auto].
  apply send_json_inv in Hhead as [[[= <-] _]|[[=] _]]. auto.
Qed.

Lemma Lobby_connect_raises l t w w' e :
  Lobby_connect l t w = Some (w', Raise e) → e = OSError ∨ e = AttributeError.
Proof.
  intros (th & n & L & _ & _ & _ & Hmsg)%Lobby_connect_inv. unfold Lobby_message in Hmsg.
  apply bind_inv in Hmsg as [(w1 & L' & _ & Hmsg)|(e' & Hget & _)].
  - by eapply message_items_raises.
  - by apply get_lobby_inv in Hget as (_ & ? & _ & ?).
Qed.

(** The checks of [Lobby.join] come before any change: an exception of
    its own leaves the world as it was, and tells which check failed. *)
Lemma Lobby_join_raises t th n c gv w w' e :
  threads w !! t = Some th → name th = Some n →
  Lobby_join t c gv w = Some (w', Raise e) →
  (w' = w ∧ join_refused w n gv c e ∧ is_Some (join_error e))
  ∨ (e = OSError ∨ e = AttributeError).
Proof.
  intros Hth Hn. unfold Lobby_join. erewrite bind_run by reflexivity.
  destruct (lobbies w !! c) as [l|] eqn:Hreg; [|intros [= <- <-]; left; by eauto].
  intros [(w1 & L & Hget & Hrun)|(e' & Hget & _)]%bind_inv;
    apply get_lobby_inv in Hget as (-> & L' & HL & Heq); [injection Heq as <-|done].
  case_bool_decide as Hv; simpl in Hrun.
  2: { injection Hrun as <- <-. left. split_and!; [done | | by eexists]. by exists l, L. }
  rewrite (bind_run _ _ _ _ _ (get_thread_run _ _ _ Hth)), Hn in Hrun.
  unfold dict_has in Hrun. destruct (dict_get n (clients L)) as [[t'|]|] eqn:Hmember;
    simpl in Hrun; repeat case_bool_decide; simplify_eq/=.
  - injection Hrun as <- <-. left. split_and!; [done | | by eexists]. by exists l, L, t'.
  - right. apply bind_inv in Hrun as [(? & [] & _ & [=])|(e' & Hconn & [= <-])].
    by eapply Lobby_connect_raises.
  - injection Hrun as <- <-. left. split_and!; [done | | by eexists]. by exists l, L.
  - right. apply bind_inv in Hrun as [(? & [] & _ & [=])|(e' & Hconn & [= <-])].
    by eapply Lobby_connect_raises.
Qed.

(** C4.  When [Lobby.join] refuses a request (no such code, another
    version, the name already connected, or the lobby full), the handler
    sends the requester one error frame of that type (the one for a
    mismatched version carrying the version of the lobby) and nothing
    else changes: the registry, the lobbies and the threads are as
    before. *)
Theorem refused_join_sends_one_error_frame w t th n gv d c w1 e frame :
  threads w !! t = Some th → name th = Some n → game_version th = gv →
  socket_closed th = false →
  dict_get "code" d = Some (JStr c) →
  Lobby_join t c gv w = Some (w1, Raise e) → join_error e = Some frame →
  w1 = w
  ∧ join_refused w n gv c e
  ∧ ∃ w', action_join t d w = Some (w', Return tt)
          ∧ same_store w w' ∧ emitted w w' [Sent t frame].
Proof.
  intros Hth Hn Hgv Hopen Hcode Hjoin Hframe.
  destruct (Lobby_join_raises _ _ _ _ _ _ _ _ Hth Hn Hjoin) as [(-> & Hwhy & _)|[-> | ->]];
    [|done..].
  do 2 (split; [done|]). exists (set_wire (λ evs, evs ++ [Sent t frame]) w).
  split; [|done].
  unfold action_join. rewrite (bind_run _ _ _ _ _ (get_thread_run _ _ _ Hth)), Hn.
  erewrite try_except_raise.
  - by apply (send_json_open t frame w th).
  - rewrite Hcode, Hgv. simpl. by apply bind_raise.
  - destruct e; simplify_eq/=; done.
Qed.

(** Carol asks for a code that no lobby has, and for Alice's lobby with
    another version. *)
Lemma refused_join_sends_one_error_frame_witness :
  let w := Scenario.world_after (Scenario.paired ++ [Accept; Iterate 2 (Scenario.identify "Carol" "v2")]) in
  let carol := mkClientThread [] (Some "Carol") (Some "v2") None false Running in
  (∃ w', action_join 2 [("action", JStr "join"); ("code", JStr "ZZZZ")] w = Some (w', Return tt)
         ∧ same_store w w'
         ∧ emitted w w' [Sent 2 (error_frame "lobby_doesnt_exist")])
  ∧ (∃ w', action_join 2 [("action", JStr "join"); ("code", JStr "KDQZ")] w = Some (w', Return tt)
           ∧ same_store w w'
           ∧ emitted w w' [Sent 2 [("action", JStr "error"); ("type", JStr "mismatched_version");
                                   ("message", JStr "v1")]]).
Proof.
  intros w carol. split.
  - refine (proj2 (proj2 (refused_join_sends_one_error_frame w 2 carol "Carol" (Some "v2")
              [("action", JStr "join"); ("code", JStr "ZZZZ")] "ZZZZ" w
              LobbyDoesntExistException _ _ _ _ _ _ _ _)));
      vm_compute; reflexivity.
  - refine (proj2 (proj2 (refused_join_sends_one_error_frame w 2 carol "Carol" (Some "v2")
              [("action", JStr "join"); ("code", JStr "KDQZ")] "KDQZ" w
              (MismatchedVersionException (Some "v1")) _ _ _ _ _ _ _ _)));
      vm_compute; reflexivity.
Defined.

Lemma Lobby_connect_member l t w w' r n th :
  threads w !! t = Some th → name th = Some n →
  Lobby_connect l t w = Some (w', r) →
  ∃ L L', heap w !! l = Some L ∧ heap w' !! l = Some L'
          ∧ clients L' = dict_set n (Some t) (clients L)
          ∧ lobbies w' = lobbies w.
Proof.
  intros Hth Hn (th' & n' & L & Hth' & Hn' & HL & Hmsg)%Lobby_connect_inv.
  assert (n' = n) as -> by congruence.
  exists L, (set_clients (dict_set n (Some t) (clients L)) L). split; [done|].
  set (P := λ w0 : World,
         heap w0 !! l = Some (set_clients (dict_set n (Some t) (clients L)) L)
         ∧ lobbies w0 = lobbies w).
  assert (P w') as [? ?]; [|done].
  eapply (preserves_Lobby_message P); [by intros f w0 | exact Hmsg |].
  split; [|done]. simpl. apply list_lookup_insert_eq. by eapply lookup_lt_Some.
Qed.

(** C3, as the code has it.  [Lobby.join] raises [LobbyFullException]
    exactly when the code is registered, the version is the lobby's,
    the joining name has no entry in the membership (neither an active
    one nor a tombstone) and the membership has [max_players] entries or
    more, tombstones counted; and a request under a name that is
    tombstoned goes on to [connect], which puts the thread in the place
    of that tombstone and adds no entry. *)
Theorem join_is_full_iff_name_is_new_and_entries_at_capacity w t th n gv c :
  threads w !! t = Some th → name th = Some n →
  ((∃ w', Lobby_join t c gv w = Some (w', Raise LobbyFullException))
   ↔ ∃ l L, lobbies w !! c = Some l ∧ heap w !! l = Some L ∧ version L = gv
            ∧ dict_get n (clients L) = None
            ∧ max_players L ≤ length (clients L))
  ∧ (∀ l L, lobbies w !! c = Some l → heap w !! l = Some L → version L = gv →
       dict_get n (clients L) = Some None →
       Lobby_join t c gv w = (Lobby_connect l t ;; ret l) w
       ∧ ∀ w' r, Lobby_join t c gv w = Some (w', r) →
           ∃ L', heap w' !! l = Some L'
                 ∧ dict_get n (clients L') = Some (Some t)
                 ∧ length (clients L') = length (clients L)).
Proof.
  intros Hth Hn. split; [split|].
  - intros [w' Hjoin].
    by destruct (Lobby_join_raises _ _ _ _ _ _ _ _ Hth Hn Hjoin) as [(_ & Hwhy & _)|[?|?]].
  - intros (l & L & Hreg & HL & Hv & Hmember & Hfull). exists w.
    unfold Lobby_join. erewrite bind_run by reflexivity. rewrite Hreg.
    rewrite (bind_run _ _ _ _ _ (get_lobby_run _ _ _ HL)).
    rewrite bool_decide_eq_true_2 by done. simpl.
    rewrite (bind_run _ _ _ _ _ (get_thread_run _ _ _ Hth)), Hn.
    unfold dict_has. rewrite Hmember. cbn [andb negb].
    by rewrite bool_decide_eq_true_2.
  - intros l L Hreg HL Hv Hmember.
    assert (Hjoin : Lobby_join t c gv w = (Lobby_connect l t ;; ret l) w).
    { unfold Lobby_join. erewrite bind_run by reflexivity. rewrite Hreg.
      rewrite (bind_run _ _ _ _ _ (get_lobby_run _ _ _ HL)).
      rewrite bool_decide_eq_true_2 by done. simpl.
      rewrite (bind_run _ _ _ _ _ (get_thread_run _ _ _ Hth)), Hn.
      unfold dict_has. rewrite Hmember. cbn [andb negb].
      by rewrite bool_decide_eq_true_2. }
    split; [done|]. intros w' r. rewrite Hjoin.
    intros [(w1 & [] & Hconn & [= <- _])|(e & Hconn & _)]%bind_inv;
      apply (Lobby_connect_member _ _ _ _ _ _ _ Hth Hn) in Hconn
        as (L0 & L' & HL0 & HL' & Hclients & _);
      assert (L0 = L) as -> by congruence;
      exists L'; (split; [done|]); rewrite Hclients;
      (split; [apply dict_get_set_eq|]);
      rewrite dict_set_length; unfold dict_has; by rewrite Hmember.
Qed.

(** Carol asks for the lobby that Alice is in and Bob has left: two
    entries, one of them a tombstone, and her name is not among them. *)
Lemma join_is_full_iff_name_is_new_and_entries_at_capacity_witness :
  let w := Scenario.world_after Scenario.carol_arrived in
  heap w !! 0 = Some (mkLobby "KDQZ" (Some "v1") [("Alice", Some 0); ("Bob", None)] 2)
  ∧ ∃ w', Lobby_join 2 "KDQZ" (Some "v1") w = Some (w', Raise LobbyFullException).
Proof.
  intros w. split; [vm_compute; reflexivity|].
  apply (proj1 (join_is_full_iff_name_is_new_and_entries_at_capacity w 2
                  (mkClientThread [] (Some "Carol") (Some "v1") None false Running)
                  "Carol" (Some "v1") "KDQZ" ltac:(vm_compute; reflexivity) eq_refl)).
  exists 0, (mkLobby "KDQZ" (Some "v1") [("Alice", Some 0); ("Bob", None)] 2).
  split_and!; vm_compute; reflexivity.
Defined.

(** The tombstone of Bob does not let Carol in. *)
Lemma join_by_third_name_is_refused_despite_tombstone :
  ¬ AsSpecified.join_is_full_iff_no_tombstone
  ∧ ¬ AsSpecified.third_name_takes_the_tombstone.
Proof.
  set (w := Scenario.world_after Scenario.carol_arrived).
  set (carol := mkClientThread [] (Some "Carol") (Some "v1") None false Running).
  set (L := mkLobby "KDQZ" (Some "v1") [("Alice", Some 0); ("Bob", None)] 2).
  assert (Hreach : reachable Json.loads w) by apply world_after_reachable.
  assert (Hth : threads w !! 2 = Some carol) by (vm_compute; reflexivity).
  assert (Hreg : lobbies w !! "KDQZ" = Some 0) by (vm_compute; reflexivity).
  assert (HL : heap w !! 0 = Some L) by (vm_compute; reflexivity).
  assert (Hfull : Lobby_join 2 "KDQZ" (Some "v1") w = Some (w, Raise LobbyFullException))
    by (vm_compute; reflexivity).
  split.
  - intros Hspec.
    destruct (Hspec w 2 carol "Carol" (Some "v1") "KDQZ" 0 L Hreach Hth eq_refl Hreg HL
                eq_refl eq_refl) as [Hto _].
    destruct Hto as [Hnone _]; [by exists w|].
    apply Hnone. exists "Bob". simpl. apply list_elem_of_further, list_elem_of_here.
  - intros Hspec.
    destruct (Hspec w 2 carol "Carol" (Some "v1") "KDQZ" 0 L "Alice" 0 "Bob" Hreach Hth eq_refl)
      as (w' & L' & Hjoin & _); [by exists carol | done.. | | done | done |].
    + eexists. split; vm_compute; reflexivity.
    + rewrite Hfull in Hjoin. discriminate.
Qed.

(** ** The lobby of a connection *)

Section RegistryBlind.
Context (P : World → Prop) (P_blind : registry_blind P).

Lemma preserves_blind_Lobby_connect l t : preserves P (Lobby_connect l t).
Proof.
  apply preserves_Lobby_connect; [apply P_blind|]. intros n.
  apply preserves_update_lobby. intros w L _. apply P_blind.
Qed.

Lemma preserves_blind_Lobby_join t c v : preserves P (Lobby_join t c v).
Proof. apply preserves_Lobby_join. intros l. apply preserves_blind_Lobby_connect. Qed.

Lemma preserves_blind_Lobby_create t v : preserves P (Lobby_create t v).
Proof.
  apply preserves_Lobby_create; [apply P_blind | | | |].
  - intros w w' r (c & rest & _ & -> & _)%Lobby_generate_code_inv. apply P_blind.
  - intros c w w' r [= <- _]. apply P_blind.
  - intros c l. apply preserves_modify. intros w. apply P_blind.
  - intros l. apply preserves_blind_Lobby_connect.
Qed.

Lemma preserves_blind_Lobby_disconnect l n : preserves P (Lobby_disconnect l n).
Proof.
  apply preserves_Lobby_disconnect; [apply P_blind | |].
  - apply preserves_update_lobby. intros w L _. apply P_blind.
  - intros c. apply preserves_modify. intros w. apply P_blind.
Qed.
End RegistryBlind.

Section ThreadLobby.
Context (Q : option nat → Prop) (t : tid).

Lemma thread_lobby_blind : registry_blind (thread_lobby Q t).
Proof. by split_and!; intros f w. Qed.

Lemma thread_lobby_update t' f w th0 :
  threads w !! t' = Some th0 → (t' = t → Q (lobby th0) → Q (lobby (f th0))) →
  thread_lobby Q t w → thread_lobby Q t (set_threads (λ ts, <[t' := f th0]> ts) w).
Proof.
  intros Hth0 Hf (th & Hth & HQ). unfold thread_lobby. simpl.
  destruct (decide (t' = t)) as [->|Hne].
  - exists (f th0). rewrite list_lookup_insert_eq by (by eapply lookup_lt_Some).
    split; [done|]. apply Hf; [done|]. congruence.
  - exists th. by rewrite list_lookup_insert_ne.
Qed.

Lemma preserves_thread_lobby_update t' f :
  (t' = t → ∀ th0, Q (lobby th0) → Q (lobby (f th0))) →
  preserves (thread_lobby Q t) (update_thread t' f).
Proof.
  intros Hf. apply preserves_update_thread. intros w th0 Hth0.
  apply thread_lobby_update; [done|]. intros ->. by apply Hf.
Qed.

Lemma thread_lobby_alter_alive t' a w :
  thread_lobby Q t w → thread_lobby Q t (set_threads (alter (set_alive a) t') w).
Proof.
  intros (th & Hth & HQ). unfold thread_lobby. simpl.
  destruct (decide (t' = t)) as [->|Hne].
  - exists (set_alive a th). by rewrite list_lookup_alter_eq, Hth.
  - exists th. by rewrite list_lookup_alter_ne.
Qed.

(** A message handled by [t'] keeps what [Q] says of the lobby of [t],
    unless [t'] is [t], the message is one that assigns [self.lobby],
    and [Q] does not hold of every lobby. *)
Lemma preserves_thread_lobby_handle_message t' d :
  t' ≠ t ∨ assigns_lobby d = false ∨ (∀ l, Q (Some l)) →
  preserves (thread_lobby Q t) (handle_message t' d).
Proof.
  intros Hcase. pose proof thread_lobby_blind as Hblind.
  assert (Hset : (t' ≠ t ∨ (∀ l, Q (Some l))) →
            ∀ l, preserves (thread_lobby Q t) (update_thread t' (set_lobby (Some l)))).
  { intros Hok l. apply preserves_thread_lobby_update. intros -> th0 _.
    destruct Hok as [?|HQ]; [done | apply HQ]. }
  assert (Hnot : ∀ kvs a, d = JObj kvs → dict_get "action" kvs = Some (JStr a) →
            a = "create" ∨ a = "join" → t' ≠ t ∨ (∀ l, Q (Some l))).
  { intros kvs a -> Ha Hcj. destruct Hcase as [?|[Hd|?]]; [by left | | by right].
    simpl in Hd. rewrite Ha in Hd. by destruct Hcj as [-> | ->]. }
  apply preserves_handle_message; [apply Hblind | intros kvs Hd Ha..].
  - apply preserves_action_identify; [apply Hblind | intros ?..];
      by apply preserves_thread_lobby_update.
  - apply preserves_action_create; [apply Hblind | |].
    + intros v. by apply preserves_blind_Lobby_create.
    + apply Hset. eapply Hnot; eauto.
  - apply preserves_action_join; [apply Hblind | |].
    + intros c v. by apply preserves_blind_Lobby_join.
    + apply Hset. eapply Hnot; eauto.
Qed.

Lemma preserves_thread_lobby_run_exit t' : preserves (thread_lobby Q t) (run_exit t').
Proof.
  pose proof thread_lobby_blind as Hblind.
  apply preserves_run_exit; [apply Hblind | |].
  - intros l n. by apply preserves_blind_Lobby_disconnect.
  - by apply preserves_thread_lobby_update.
Qed.
End ThreadLobby.

Section LobbyOfAConnection.
Context (json_loads : string → option json).

(** A step keeps what [Q] says of the lobby of [t], unless it is [t]
    itself handling a message that assigns [self.lobby]. *)
Lemma step_thread_lobby Q t w lab w' :
  step json_loads w lab = Some w' → thread_lobby Q t w →
  (∀ sock th text buf d,
     lab = Iterate t sock → threads w !! t = Some th →
     NewlineReceiver_call sock (buffer th) = Some (Return (Some text), buf, []) →
     json_loads text = Some d →
     assigns_lobby d = false ∨ (∀ l, Q (Some l))) →
  thread_lobby Q t w'.
Proof.
  intros Hstep HQ Hcase. destruct lab as [|t' sock].
  - injection Hstep as <-. destruct HQ as (th & Hth & ?). exists th.
    split; [|done]. simpl. by apply lookup_app_l_Some.
  - apply step_Iterate_inv in Hstep
      as (th0 & received & buf & w2 & r & Hth0 & _ & Hrecv & Hrun & ->).
    assert (thread_lobby Q t w2) as HQ2.
    { assert (thread_lobby Q t (set_threads (λ ts, <[t' := set_buffer buf th0]> ts) w)) as HQ1
        by (by apply thread_lobby_update).
      revert Hrun HQ1. unfold run_iteration.
      destruct received as [[text|]|e].
      - destruct (json_loads text) as [d|] eqn:Hd; [|by intros [= <- _]].
        apply preserves_bind; [|intros []; apply preserves_ret].
        apply preserves_thread_lobby_handle_message.
        destruct (decide (t' = t)) as [->|?]; [right | by left]. eauto.
      - apply preserves_bind; [|intros []; apply preserves_ret].
        apply preserves_thread_lobby_run_exit.
      - by intros [= <- _]. }
    destruct r as [[]|e]; [done | by apply thread_lobby_alter_alive..].
Qed.

Lemma step_cases t w lab w' :
  step json_loads w lab = Some w' →
  (∃ sock th text buf d,
     lab = Iterate t sock ∧ threads w !! t = Some th
     ∧ NewlineReceiver_call sock (buffer th) = Some (Return (Some text), buf, [])
     ∧ json_loads text = Some d ∧ assigns_lobby d = true)
  ∨ (∀ Q, thread_lobby Q t w → thread_lobby Q t w').
Proof.
  intros Hstep.
  assert (Hkeep : (∀ sock th text buf d,
             lab = Iterate t sock → threads w !! t = Some th →
             NewlineReceiver_call sock (buffer th) = Some (Return (Some text), buf, []) →
             json_loads text = Some d → assigns_lobby d = false) →
           ∀ Q, thread_lobby Q t w → thread_lobby Q t w').
  { intros Hno Q HQ. eapply step_thread_lobby; [done..|]. intros. left. eauto. }
  destruct lab as [|t' sock]; [right; by apply Hkeep|].
  destruct (decide (t' = t)) as [->|Hne]; [|right; apply Hkeep; by intros ????? [= ? ?]].
  pose proof Hstep as (th0 & received & buf & _ & _ & Hth0 & _ & Hrecv & _)%step_Iterate_inv.
  destruct received as [[text|]|e].
  2,3: right; apply Hkeep; intros ????? [= <-] ? Hrecv' ?; simplify_eq.
  destruct (json_loads text) as [d|] eqn:Hd.
  2: right; apply Hkeep; intros ????? [= <-] ? Hrecv' ?; simplify_eq.
  destruct (assigns_lobby d) eqn:Hassign.
  - left. by exists sock, th0, text, buf, d.
  - right. apply Hkeep. intros ????? [= <-] ? Hrecv' ?. by simplify_eq.
Qed.

(** C8, as the code has it.  Once the lobby of a connection is set, no
    step unsets it, and no step changes it but the connection's own
    handling of a create or a join message. *)
Theorem current_lobby_is_kept_or_reassigned w lab w' t th l :
  step json_loads w lab = Some w' → threads w !! t = Some th → lobby th = Some l →
  ∃ th' l', threads w' !! t = Some th' ∧ lobby th' = Some l'
    ∧ (l' ≠ l →
       ∃ sock text buf d,
         lab = Iterate t sock
         ∧ NewlineReceiver_call sock (buffer th) = Some (Return (Some text), buf, [])
         ∧ json_loads text = Some d ∧ assigns_lobby d = true).
Proof.
  intros Hstep Hth Hl.
  assert (thread_lobby is_Some t w') as (th' & Hth' & l' & Hl').
  { eapply step_thread_lobby; [done | by exists th; rewrite Hl |].
    intros. right. by eexists. }
  exists th', l'. do 2 (split; [done|]). intros Hne.
  destruct (step_cases t _ _ _ Hstep)
    as [(sock & th0 & text & buf & d & -> & Hth0 & Hrecv & Hd & Hassign)|Hkeep].
  - assert (th0 = th) as -> by congruence. by exists sock, text, buf, d.
  - destruct (Hkeep (λ o, o = Some l)) as (th'' & Hth'' & Hl''); [by exists th|].
    congruence.
Qed.
End LobbyOfAConnection.

(** Alice, in her lobby with Bob, identifies again: her lobby stays. *)
Lemma current_lobby_is_kept_or_reassigned_witness :
  let w := Scenario.world_after Scenario.paired in
  ∃ w' th', step Json.loads w (Iterate 0 (Scenario.identify "Alys" "v1")) = Some w'
            ∧ threads w' !! 0 = Some th' ∧ lobby th' = Some 0.
Proof.
  intros w.
  set (w' := Scenario.world_after (Scenario.paired ++ [Iterate 0 (Scenario.identify "Alys" "v1")])).
  assert (Hstep : step Json.loads w (Iterate 0 (Scenario.identify "Alys" "v1")) = Some w')
    by (vm_compute; reflexivity).
  destruct (current_lobby_is_kept_or_reassigned Json.loads w _ w' 0
              (mkClientThread [] (Some "Alice") (Some "v1") (Some 0) false Running) 0
              Hstep ltac:(vm_compute; reflexivity) eq_refl)
    as (th' & l' & Hth' & Hl' & Hchange).
  exists w', th'. do 2 (split; [done|]).
  destruct (decide (l' = 0)) as [->|Hne]; [done|].
  destruct (Hchange Hne) as (sock & text & buf & d & [= <-] & Hrecv & Hd & Hassign).
  vm_compute in Hrecv. injection Hrecv as <- <-.
  vm_compute in Hd. injection Hd as <-. discriminate.
Defined.

(** Alice, in her lobby with Bob, creates another lobby: she is now in
    that one, and still listed in the first. *)
Lemma second_create_changes_the_lobby : ¬ AsSpecified.current_lobby_is_fixed.
Proof.
  intros Hspec.
  set (w := Scenario.world_after Scenario.paired).
  set (w' := Scenario.world_after (Scenario.paired ++ [Iterate 0 Scenario.create])).
  assert (Hstep : step Json.loads w (Iterate 0 Scenario.create) = Some w')
    by (vm_compute; reflexivity).
  specialize (Hspec w (Iterate 0 Scenario.create) w' 0
                (mkClientThread [] (Some "Alice") (Some "v1") (Some 0) false Running)
                (mkClientThread [] (Some "Alice") (Some "v1") (Some 1) false Running) 0
                (world_after_reachable _) Hstep).
  discriminate Hspec; vm_compute; reflexivity.
Qed.

(** ** Messages that end the thread *)

Section Faults.
Context (json_loads : string → option json).

Lemma step_handle_message w t th sock text buf d :
  threads w !! t = Some th → alive th = Running →
  NewlineReceiver_call sock (buffer th) = Some (Return (Some text), buf, []) →
  json_loads text = Some d →
  step json_loads w (Iterate t sock)
  = match handle_message t d (set_threads (λ ts, <[t := set_buffer buf th]> ts) w) with
    | None => None
    | Some (w2, Return _) => Some w2
    | Some (w2, Raise e) => Some (set_threads (alter (set_alive (Crashed e)) t) w2)
    end.
Proof.
  intros Hth Halive Hrecv Hd. simpl. rewrite Hth, Halive, Hrecv. simpl. rewrite Hd.
  unfold bind. by destruct (handle_message _ _ _) as [[w2 [[]|e]]|].
Qed.

(** A line that [json.loads] rejects ends the thread in the middle of
    the loop: nothing is sent, no lobby is touched and the socket stays
    open. *)
Lemma step_undecodable w t th sock text buf :
  threads w !! t = Some th → alive th = Running →
  NewlineReceiver_call sock (buffer th) = Some (Return (Some text), buf, []) →
  json_loads text = None →
  step json_loads w (Iterate t sock)
  = Some (set_threads (alter (set_alive (Crashed JSONDecodeError)) t)
            (set_threads (λ ts, <[t := set_buffer buf th]> ts) w)).
Proof.
  intros Hth Halive Hrecv Hd. simpl. rewrite Hth, Halive, Hrecv. simpl. by rewrite Hd.
Qed.

End Faults.

(** ** Tombstones in a broadcast *)

(** [message] stops with an [AttributeError] at the first tombstone it
    meets, after the members before it have been served. *)
Lemma message_items_tombstone pre n post d ex : ∀ w,
  (∀ n', (n', None) ∉ pre) →
  (∀ t, t ∈ recipients ex pre → socket_open w t) →
  ∃ w', message_items (pre ++ (n, None) :: post) d ex w = Some (w', Raise AttributeError)
        ∧ same_store w w'
        ∧ emitted w w' (map (λ t, Sent t d) (recipients ex pre)).
Proof.
  unfold emitted.
  induction pre as [|[n0 c] pre IH]; intros w Hnone Hopen; simpl.
  - exists w. by rewrite app_nil_r.
  - destruct c as [t|]; [|by destruct (Hnone n0); apply list_elem_of_here].
    assert (Hnone' : ∀ n', (n', None) ∉ pre).
    { intros n' Hin. apply (Hnone n'). by apply list_elem_of_further. }
    rewrite recipients_cons_Some in *. simpl. case_bool_decide; simpl.
    + rewrite decide_True in * by done.
      destruct (IH w Hnone' Hopen) as (w' & Hrun & ?). exists w'.
      by rewrite (bind_run _ _ _ w tt).
    + rewrite decide_False in * by done.
      destruct (Hopen t) as (th & Hth & Hsock); [apply list_elem_of_here|].
      destruct (IH (set_wire (λ evs, evs ++ [Sent t d]) w) Hnone')
        as (w' & Hrun & Hstore & Hwire).
      { intros t' Hin. apply Hopen. by apply list_elem_of_further. }
      exists w'. rewrite (bind_run _ _ _ _ _ (send_json_open _ _ _ _ Hth Hsock)).
      split_and!; [done.. |]. rewrite Hwire. simpl. by rewrite <- app_assoc.
Qed.

(** C2 (the code departs from it).  Bob has left and is tombstoned in
    the lobby; Alice sends a turn.  [Lobby.message] reaches Bob's entry,
    which is [None] and is not in [exclude], and calls [send_json] on
    it: the [AttributeError] ends Alice's thread. *)
Theorem turn_after_peer_left_raises_AttributeError :
  let w := Scenario.world_after Scenario.bob_left in
  let payload := [("action", JStr "turn"); ("move", JNum 5); ("name", JStr "Alice")] in
  heap w !! 0 = Some (mkLobby "KDQZ" (Some "v1") [("Alice", Some 0); ("Bob", None)] 2)
  ∧ Lobby_message 0 payload [0] w = Some (w, Raise AttributeError)
  ∧ ∃ w', step Json.loads w (Iterate 0 Scenario.turn) = Some w'
          ∧ threads w' !! 0
            = Some (mkClientThread [] (Some "Alice") (Some "v1") (Some 0) false
                      (Crashed AttributeError))
          ∧ wire w' = wire w.
Proof.
  intros w payload. split; [vm_compute; reflexivity|].
  split; [vm_compute; reflexivity|].
  exists (Scenario.world_after (Scenario.bob_left ++ [Iterate 0 Scenario.turn])).
  split_and!; vm_compute; reflexivity.
Qed.

(** ** The end of a connection *)


(** C1 (the code departs from it).  Alice is in a lobby with Bob.  When
    her stream ends, she is tombstoned, Bob is told, and then her socket
    is closed.  When instead she sends a line that is not JSON,
    [json.loads] raises in the middle of the loop and nothing catches
    it: she stays an active member of the lobby, Bob is told nothing and
    her socket is not closed.  A line that is not UTF-8 does the same
    from inside the line reader. *)
Theorem undecodable_line_skips_the_disconnect :
  let w := Scenario.world_after Scenario.paired in
  (∃ w', step Json.loads w (Iterate 0 client_close) = Some w'
         ∧ heap w' !! 0 = Some (mkLobby "KDQZ" (Some "v1") [("Alice", None); ("Bob", Some 1)] 2)
         ∧ wire w' = wire w ++ [Sent 1 [("action", JStr "disconnect"); ("name", JStr "Alice")];
                                SocketClosed 0])
  ∧ (∃ w', step Json.loads w (Iterate 0 Scenario.garbage) = Some w'
           ∧ threads w' !! 0
             = Some (mkClientThread [] (Some "Alice") (Some "v1") (Some 0) false
                       (Crashed JSONDecodeError))
           ∧ heap w' !! 0
             = Some (mkLobby "KDQZ" (Some "v1") [("Alice", Some 0); ("Bob", Some 1)] 2)
           ∧ lobbies w' !! "KDQZ" = Some 0
           ∧ wire w' = wire w)
  ∧ (∃ w', step Json.loads w (Iterate 0 Scenario.not_utf8) = Some w'
           ∧ threads w' !! 0
             = Some (mkClientThread [] (Some "Alice") (Some "v1") (Some 0) false
                       (Crashed UnicodeDecodeError))
           ∧ heap w' !! 0
             = Some (mkLobby "KDQZ" (Some "v1") [("Alice", Some 0); ("Bob", Some 1)] 2)
           ∧ wire w' = wire w).
Proof.
  intros w. split; [|split].
  - exists (Scenario.world_after (Scenario.paired ++ [Iterate 0 client_close])).
    split_and!; vm_compute; reflexivity.
  - exists (Scenario.world_after (Scenario.paired ++ [Iterate 0 Scenario.garbage])).
    split_and!; vm_compute; reflexivity.
  - exists (Scenario.world_after (Scenario.paired ++ [Iterate 0 Scenario.not_utf8])).
    split_and!; vm_compute; reflexivity.
Qed.

(** ** The scenario of the specification, run *)

(** Alice creates a lobby and gets its code, Bob joins and both are
    told, Alice's turn reaches Bob with her name in it, Bob leaves and
    Alice is told, Alice leaves and the lobby is out of the registry. *)
Example scenario_wire :
  wire (Scenario.world_after
          (Scenario.paired ++ [Iterate 0 Scenario.turn; Iterate 1 client_close;
                               Iterate 0 client_close]))
  = [Sent 0 [("action", JStr "message"); ("message", JStr "Hi Alice using v1")];
     Sent 0 (connect_frame "Alice");
     Sent 0 [("action", JStr "code"); ("code", JStr "KDQZ")];
     Sent 1 [("action", JStr "message"); ("message", JStr "Hi Bob using v1")];
     Sent 0 (connect_frame "Bob");
     Sent 1 (connect_frame "Bob");
     Sent 1 [("action", JStr "turn"); ("move", JNum 5); ("name", JStr "Alice")];
     Sent 0 [("action", JStr "disconnect"); ("name", JStr "Bob")];
     SocketClosed 1;
     SocketClosed 0].
Proof. vm_compute. reflexivity. Qed.

Example scenario_registry :
  lobbies (Scenario.world_after Scenario.paired) !! "KDQZ" = Some 0
  ∧ lobbies (Scenario.world_after Scenario.bob_left) !! "KDQZ" = Some 0
  ∧ lobbies (Scenario.world_after Scenario.both_left) !! "KDQZ" = None.
Proof. split_and!; vm_compute; reflexivity. Qed.

(** * Further properties of the code *)

(** ** Replies to what the protocol does not allow *)

Lemma send_json_sends_only t d w th :
  threads w !! t = Some th → socket_closed th = false →
  ∃ w', send_json t d w = Some (w', Return tt) ∧ sends_only t d w w'.
Proof.
  intros Hth Hopen. eexists. split; [by eapply send_json_open|]. by split.
Qed.

(** X1.  An object without an action, or with an action that is not one
    of the four the server knows (a value that is not a string
    included), is answered with one [unknown_action] error frame to its
    sender, and nothing else changes. *)
Theorem unknown_action_is_answered w t th kvs :
  threads w !! t = Some th → socket_closed th = false →
  (∀ a, dict_get "action" kvs = Some (JStr a) →
        a ∉ ["identify"; "create"; "join"; "turn"]) →
  ∃ w', handle_message t (JObj kvs) w = Some (w', Return tt)
        ∧ sends_only t (error_frame "unknown_action") w w'.
Proof.
  intros Hth Hopen Hother. simpl.
  destruct (dict_get "action" kvs) as [a|]; [|by eapply send_json_sends_only].
  destruct a as [| | | |a| |]; simpl; try by eapply send_json_sends_only.
  specialize (Hother a eq_refl).
  rewrite !bool_decide_eq_false_2 by (intros <-; apply Hother; set_solver).
  by eapply send_json_sends_only.
Qed.

Lemma unknown_action_is_answered_witness :
  let w := Scenario.world_after Scenario.paired in
  ∃ w', handle_message 1 (JObj [("action", JNum 7); ("move", JNum 5)]) w = Some (w', Return tt)
        ∧ sends_only 1 (error_frame "unknown_action") w w'.
Proof.
  intros w.
  apply (unknown_action_is_answered w 1
           (mkClientThread [] (Some "Bob") (Some "v1") (Some 0) false Running));
    [vm_compute; reflexivity | reflexivity |].
  intros a Ha. vm_compute in Ha. discriminate.
Defined.

(** ** Identifying *)

(** X3.  [identify] can be sent at any time, also again: it sets the
    name and the version of the connection and greets it, and it
    touches neither the lobby of the connection nor any membership, so
    that a member that identifies again stays listed under the name it
    joined with. *)
Theorem identify_renames_the_connection_only w t th kvs n gv :
  threads w !! t = Some th → socket_closed th = false →
  dict_get "name" kvs = Some (JStr n) → dict_get "game_version" kvs = Some (JStr gv) →
  ∃ w', action_identify t kvs w = Some (w', Return tt)
        ∧ threads w' = <[t := set_game_version (Some gv) (set_name (Some n) th)]> (threads w)
        ∧ lobbies w' = lobbies w ∧ heap w' = heap w ∧ random w' = random w
        ∧ emitted w w' [Sent t [("action", JStr "message");
                                ("message", JStr ("Hi " +:+ n +:+ " using " +:+ gv))]].
Proof.
  intros Hth Hopen Hname Hgv.
  assert (Hlt : t < length (threads w)) by (by eapply lookup_lt_Some).
  unfold action_identify. rewrite Hname. simpl. erewrite bind_run by reflexivity.
  erewrite bind_run by (by apply update_thread_run). rewrite Hgv. simpl.
  erewrite bind_run by reflexivity.
  erewrite bind_run
    by (apply update_thread_run; simpl; by apply list_lookup_insert_eq).
  eexists. split.
  - eapply send_json_open; simpl.
    + apply list_lookup_insert_eq. by rewrite length_insert.
    + done.
  - simpl. by rewrite list_insert_insert_eq.
Qed.

Lemma identify_renames_the_connection_only_witness :
  let w := Scenario.world_after Scenario.paired in
  ∃ w', action_identify 0 [("action", JStr "identify"); ("name", JStr "Alys");
                           ("game_version", JStr "v1")] w = Some (w', Return tt)
        ∧ threads w' !! 0 = Some (mkClientThread [] (Some "Alys") (Some "v1") (Some 0) false Running)
        ∧ heap w' !! 0 = Some (mkLobby "KDQZ" (Some "v1") [("Alice", Some 0); ("Bob", Some 1)] 2).
Proof.
  intros w.
  destruct (identify_renames_the_connection_only w 0
              (mkClientThread [] (Some "Alice") (Some "v1") (Some 0) false Running)
              [("action", JStr "identify"); ("name", JStr "Alys"); ("game_version", JStr "v1")]
              "Alys" "v1") as (w' & Hrun & Hthreads & _ & Hheap & _);
    try (vm_compute; reflexivity).
  exists w'. split; [exact Hrun|]. rewrite Hthreads, Hheap.
  split; vm_compute; reflexivity.
Defined.

(** ** Creating and joining, forward *)

Lemma socket_open_same_threads w w' t :
  threads w' = threads w → socket_open w t → socket_open w' t.
Proof. unfold socket_open. by intros ->. Qed.

Lemma Lobby_message_run l d ex w L :
  heap w !! l = Some L →
  (∀ n, (n, None) ∉ clients L) →
  (∀ t, t ∈ recipients ex (clients L) → socket_open w t) →
  ∃ w', Lobby_message l d ex w = Some (w', Return tt)
        ∧ same_store w w'
        ∧ emitted w w' (map (λ t, Sent t d) (recipients ex (clients L))).
Proof.
  intros HL Hnone Hopen. unfold Lobby_message.
  rewrite (bind_run _ _ _ _ _ (get_lobby_run _ _ _ HL)). by apply message_items_run.
Qed.

(** [connect] on a membership that is without tombstone once the thread
    is in, with every member's socket open *)
Lemma Lobby_connect_run l t w th n L :
  threads w !! t = Some th → name th = Some n → heap w !! l = Some L →
  let cs := dict_set n (Some t) (clients L) in
  (∀ n', (n', None) ∉ cs) →
  (∀ t', t' ∈ recipients [] cs → socket_open w t') →
  ∃ w', Lobby_connect l t w = Some (w', Return tt)
        ∧ heap w' = <[l := set_clients cs L]> (heap w)
        ∧ lobbies w' = lobbies w ∧ threads w' = threads w ∧ random w' = random w
        ∧ emitted w w' (map (λ t', Sent t' (connect_frame n)) (recipients [] cs)).
Proof.
  intros Hth Hn HL cs Hnone Hopen. unfold Lobby_connect.
  rewrite (bind_run _ _ _ _ _ (get_thread_run _ _ _ Hth)), Hn.
  rewrite (bind_run _ _ _ _ _ (update_lobby_run _ _ _ _ HL)). cbv beta. fold cs.
  destruct (Lobby_message_run l (connect_frame n) []
              (set_heap (λ h, <[l := set_clients cs L]> h) w) (set_clients cs L))
    as (w' & Hrun & (Hlob & Hheap & Hthr & Hrand) & Hwire); [| done | done |].
  { simpl. apply list_lookup_insert_eq. by eapply lookup_lt_Some. }
  exists w'. by rewrite Hrun.
Qed.

Lemma Lobby_create_run
    w t th n gv (rounds : list (nat * nat * nat * nat)) a b c e rest :
  threads w !! t = Some th → name th = Some n → socket_closed th = false →
  random w = flat_map (λ '(a', b', c', d'), [a'; b'; c'; d']) rounds ++ a :: b :: c :: e :: rest →
  Forall (λ '(a', b', c', d'), is_Some (lobbies w !! code_of_draws a' b' c' d')) rounds →
  lobbies w !! code_of_draws a b c e = None →
  let code := code_of_draws a b c e in
  let l := length (heap w) in
  ∃ w', Lobby_create t gv w = Some (w', Return l)
        ∧ lobbies w' = <[code := l]> (lobbies w)
        ∧ heap w' = heap w ++ [mkLobby code gv [(n, Some t)] 2]
        ∧ threads w' = threads w
        ∧ random w' = rest
        ∧ emitted w w' [Sent t (connect_frame n);
                        Sent t [("action", JStr "code"); ("code", JStr code)]].
Proof.
  intros Hth Hn Hopen Htape Hrounds Hfresh code l. unfold Lobby_create.
  assert (Hgen : Lobby_generate_code w = Some (set_random (λ _, rest) w, Return code)).
  { unfold Lobby_generate_code. rewrite Htape.
    by rewrite (generate_code_loop_returns _ _ _ _ _ _ _ Hrounds Hfresh). }
  rewrite (bind_run _ _ _ _ _ Hgen).
  erewrite bind_run by reflexivity. erewrite bind_run by reflexivity. simpl.
  set (w1 := set_lobbies _ _).
  assert (Hnew : heap w1 !! l = Some (mkLobby code gv [] 2)).
  { simpl. by rewrite lookup_app_r, Nat.sub_diag. }
  assert (Hopen1 : socket_open w1 t) by (by exists th).
  destruct (Lobby_connect_run l t w1 th n _ Hth Hn Hnew)
    as (w2 & Hconn & Hheap2 & Hlob2 & Hthr2 & Hrand2 & Hwire2).
  { intros n' Hin. simpl in Hin. by apply list_elem_of_singleton in Hin. }
  { intros t' Hin. vm_compute in Hin. by apply list_elem_of_singleton in Hin as ->. }
  rewrite (bind_run _ _ _ _ _ Hconn).
  assert (Hheap2' : heap w2 = heap w ++ [mkLobby code gv [(n, Some t)] 2]).
  { rewrite Hheap2. simpl.
    by rewrite (insert_app_r_alt _ _ (length (heap w))), Nat.sub_diag. }
  destruct (Lobby_message_run l [("action", JStr "code"); ("code", JStr code)] [] w2
              (mkLobby code gv [(n, Some t)] 2))
    as (w3 & Hmsg & (Hlob3 & Hheap3 & Hthr3 & Hrand3) & Hwire3).
  { rewrite Hheap2'. by rewrite lookup_app_r, Nat.sub_diag. }
  { intros n' Hin. simpl in Hin. by apply list_elem_of_singleton in Hin. }
  { intros t' Hin. vm_compute in Hin. apply list_elem_of_singleton in Hin as ->.
    by apply (socket_open_same_threads w1). }
  rewrite (bind_run _ _ _ _ _ Hmsg). exists w3. split; [done|].
  rewrite Hlob3, Hlob2, Hheap3, Hheap2', Hthr3, Hthr2, Hrand3, Hrand2.
  split_and!; try done. unfold emitted in *. rewrite Hwire3, Hwire2.
  vm_compute recipients. simpl. by rewrite <- app_assoc.
Qed.

(** X4.  A create, with a round of draws that spells a code not in the
    registry after rounds that spell taken codes, registers a new lobby
    under that code, with the version of the connection (none before it
    has identified itself) and with the connection as its only member,
    tells the connection that it is connected and then which code it
    got, and makes the new lobby the lobby of the connection; the
    lobbies and the entries that were there stay. *)
Theorem create_registers_a_lobby_for_the_creator
    w t th n gv d (rounds : list (nat * nat * nat * nat)) a b c e rest :
  threads w !! t = Some th → name th = Some n → game_version th = gv →
  socket_closed th = false →
  random w = flat_map (λ '(a', b', c', d'), [a'; b'; c'; d']) rounds ++ a :: b :: c :: e :: rest →
  Forall (λ '(a', b', c', d'), is_Some (lobbies w !! code_of_draws a' b' c' d')) rounds →
  lobbies w !! code_of_draws a b c e = None →
  let code := code_of_draws a b c e in
  let l := length (heap w) in
  ∃ w', action_create t d w = Some (w', Return tt)
        ∧ lobbies w' = <[code := l]> (lobbies w)
        ∧ heap w' = heap w ++ [mkLobby code gv [(n, Some t)] 2]
        ∧ threads w' = <[t := set_lobby (Some l) th]> (threads w)
        ∧ random w' = rest
        ∧ emitted w w' [Sent t (connect_frame n);
                        Sent t [("action", JStr "code"); ("code", JStr code)]].
Proof.
  intros Hth Hn Hgv Hopen Htape Hrounds Hfresh code l.
  destruct (Lobby_create_run w t th n gv rounds a b c e rest Hth Hn Hopen Htape Hrounds Hfresh)
    as (w1 & Hrun & Hlob & Hheap & Hthr & Hrand & Hwire).
  unfold action_create. rewrite (bind_run _ _ _ _ _ (get_thread_run _ _ _ Hth)), Hn, Hgv.
  rewrite (bind_run _ _ _ _ _ Hrun).
  assert (Hth1 : threads w1 !! t = Some th) by (by rewrite Hthr).
  rewrite (update_thread_run _ _ _ _ Hth1). eexists. split; [done|]. simpl.
  by rewrite Hthr.
Qed.

Lemma create_registers_a_lobby_for_the_creator_witness :
  let w := Scenario.world_after (Scenario.paired ++ [Accept; Iterate 2 (Scenario.identify "Carol" "v2")]) in
  ∃ w', action_create 2 [("action", JStr "create")] w = Some (w', Return tt)
        ∧ lobbies w' = <["ABCD" := 1]> (lobbies w)
        ∧ heap w' = heap w ++ [mkLobby "ABCD" (Some "v2") [("Carol", Some 2)] 2].
Proof.
  intros w.
  assert (Hth : threads w !! 2
                = Some (mkClientThread [] (Some "Carol") (Some "v2") None false Running))
    by (vm_compute; reflexivity).
  assert (Htape : random w = flat_map (λ '(a', b', c', d'), [a'; b'; c'; d']) [] ++ [0; 1; 2; 3])
    by (vm_compute; reflexivity).
  assert (Hfresh : lobbies w !! code_of_draws 0 1 2 3 = None) by (vm_compute; reflexivity).
  pose proof (create_registers_a_lobby_for_the_creator w 2 _ "Carol" (Some "v2")
                [("action", JStr "create")] [] 0 1 2 3 [] Hth eq_refl eq_refl eq_refl
                Htape (Forall_nil_2 _) Hfresh) as (w' & Hrun & Hlob & Hheap & _).
  exists w'. split; [exact Hrun|]. split; [exact Hlob | exact Hheap].
Defined.

Lemma try_except_return {A} (c : M A) h w w1 a :
  c w = Some (w1, Return a) → try_except c h w = Some (w1, Return a).
Proof. unfold try_except. by intros ->. Qed.

Lemma Lobby_join_checks_passed t c gv w th n l L :
  threads w !! t = Some th → name th = Some n →
  lobbies w !! c = Some l → heap w !! l = Some L → version L = gv →
  (dict_get n (clients L) = None ∧ length (clients L) < max_players L)
  ∨ dict_get n (clients L) = Some None →
  Lobby_join t c gv w = (Lobby_connect l t ;; ret l) w.
Proof.
  intros Hth Hn Hreg HL Hv Hmember.
  unfold Lobby_join. erewrite bind_run by reflexivity. rewrite Hreg.
  rewrite (bind_run _ _ _ _ _ (get_lobby_run _ _ _ HL)).
  rewrite bool_decide_eq_true_2 by done. simpl.
  rewrite (bind_run _ _ _ _ _ (get_thread_run _ _ _ Hth)), Hn.
  unfold dict_has. destruct Hmember as [[-> Hroom]| ->]; cbn [andb negb].
  - rewrite bool_decide_eq_false_2 by lia. done.
  - by rewrite bool_decide_eq_true_2.
Qed.

(** X5.  A join that passes the checks (the code is registered, the
    version is the lobby's, and the name is new with room left or is
    tombstoned) puts the connection into the membership under its name,
    tells every member, the new one included, in the order of the
    membership, that it is connected, and makes the lobby the lobby of
    the connection; the registry does not change. *)
Theorem join_adds_the_member_and_tells_everyone w t th n gv d c l L :
  threads w !! t = Some th → name th = Some n → game_version th = gv →
  dict_get "code" d = Some (JStr c) →
  lobbies w !! c = Some l → heap w !! l = Some L → version L = gv →
  (dict_get n (clients L) = None ∧ length (clients L) < max_players L)
  ∨ dict_get n (clients L) = Some None →
  let cs := dict_set n (Some t) (clients L) in
  (∀ n', (n', None) ∉ cs) →
  (∀ t', t' ∈ recipients [] cs → socket_open w t') →
  ∃ w', action_join t d w = Some (w', Return tt)
        ∧ lobbies w' = lobbies w
        ∧ heap w' = <[l := set_clients cs L]> (heap w)
        ∧ threads w' = <[t := set_lobby (Some l) th]> (threads w)
        ∧ random w' = random w
        ∧ emitted w w' (map (λ t', Sent t' (connect_frame n)) (recipients [] cs)).
Proof.
  intros Hth Hn Hgv Hcode Hreg HL Hv Hmember cs Hnone Hopen.
  destruct (Lobby_connect_run l t w th n L Hth Hn HL Hnone Hopen)
    as (w1 & Hconn & Hheap & Hlob & Hthr & Hrand & Hwire).
  assert (Hth1 : threads w1 !! t = Some th) by (by rewrite Hthr).
  unfold action_join. rewrite (bind_run _ _ _ _ _ (get_thread_run _ _ _ Hth)), Hn.
  erewrite try_except_return.
  2: { rewrite Hcode, Hgv. simpl.
       erewrite bind_run.
       - by apply update_thread_run.
       - rewrite (Lobby_join_checks_passed _ _ _ _ _ _ _ _ Hth Hn Hreg HL Hv Hmember).
         by rewrite (bind_run _ _ _ _ _ Hconn). }
  eexists. split; [done|]. simpl. by rewrite Hthr.
Qed.

(** Bob, who has left, comes back on a new connection. *)
Lemma join_adds_the_member_and_tells_everyone_witness :
  let w := Scenario.world_after (Scenario.bob_left ++ [Accept; Iterate 2 (Scenario.identify "Bob" "v1")]) in
  ∃ w', action_join 2 [("action", JStr "join"); ("code", JStr "KDQZ")] w = Some (w', Return tt)
        ∧ heap w' !! 0 = Some (mkLobby "KDQZ" (Some "v1") [("Alice", Some 0); ("Bob", Some 2)] 2)
        ∧ emitted w w' [Sent 0 (connect_frame "Bob"); Sent 2 (connect_frame "Bob")].
Proof.
  intros w.
  destruct (join_adds_the_member_and_tells_everyone w 2
              (mkClientThread [] (Some "Bob") (Some "v1") None false Running)
              "Bob" (Some "v1") [("action", JStr "join"); ("code", JStr "KDQZ")] "KDQZ" 0
              (mkLobby "KDQZ" (Some "v1") [("Alice", Some 0); ("Bob", None)] 2))
    as (w' & Hrun & _ & Hheap & _ & _ & Hwire); try (vm_compute; reflexivity).
  - right. reflexivity.
  - intros n' Hin. vm_compute in Hin.
    repeat (apply elem_of_cons in Hin as [[=]|Hin]). by apply not_elem_of_nil in Hin.
  - intros t' Hin. vm_compute in Hin.
    repeat (apply elem_of_cons in Hin as [->|Hin]); [..|by apply not_elem_of_nil in Hin];
      eexists; split; vm_compute; reflexivity.
  - exists w'. split; [exact Hrun|]. rewrite Hheap. split; [vm_compute; reflexivity | exact Hwire].
Defined.

(** ** The checks of a join *)

Lemma Lobby_join_refuses t th n c gv w e :
  threads w !! t = Some th → name th = Some n →
  join_refused w n gv c e → Lobby_join t c gv w = Some (w, Raise e).
Proof.
  intros Hth Hn Hwhy. unfold Lobby_join. erewrite bind_run by reflexivity.
  destruct e; try done; simpl in Hwhy.
  - by rewrite Hwhy.
  - destruct Hwhy as (l & L & Hreg & HL & Hv & Hmember & Hfull). rewrite Hreg.
    rewrite (bind_run _ _ _ _ _ (get_lobby_run _ _ _ HL)).
    rewrite bool_decide_eq_true_2 by done. simpl.
    rewrite (bind_run _ _ _ _ _ (get_thread_run _ _ _ Hth)), Hn.
    unfold dict_has. rewrite Hmember. cbn [andb negb].
    by rewrite bool_decide_eq_true_2.
  - destruct Hwhy as (l & L & Hreg & HL & Hv & ->). rewrite Hreg.
    rewrite (bind_run _ _ _ _ _ (get_lobby_run _ _ _ HL)).
    by rewrite bool_decide_eq_false_2.
  - destruct Hwhy as (l & L & t' & Hreg & HL & Hv & Hmember). rewrite Hreg.
    rewrite (bind_run _ _ _ _ _ (get_lobby_run _ _ _ HL)).
    rewrite bool_decide_eq_true_2 by done. simpl.
    rewrite (bind_run _ _ _ _ _ (get_thread_run _ _ _ Hth)), Hn.
    unfold dict_has. rewrite Hmember. cbn [andb negb].
    by rewrite bool_decide_eq_false_2.
Qed.

(** X6.  [Lobby.join] tries its checks in the order code, version,
    name, capacity, and the first that fails decides the exception: it
    raises [LobbyDoesntExistException] exactly when the code is not
    registered, [MismatchedVersionException] (with the version of the
    lobby) exactly when the code is registered and the versions differ,
    [AlreadyConnectedException] exactly when code and version are right
    and the name is an active member, and [LobbyFullException] exactly
    when code and version are right, the name has no entry and the
    membership is at capacity. *)
Theorem join_raises_what_its_first_failing_check_says w t th n gv c e :
  threads w !! t = Some th → name th = Some n → is_Some (join_error e) →
  (∃ w', Lobby_join t c gv w = Some (w', Raise e)) ↔ join_refused w n gv c e.
Proof.
  intros Hth Hn Herr. split.
  - intros [w' Hjoin].
    destruct (Lobby_join_raises _ _ _ _ _ _ _ _ Hth Hn Hjoin) as [(_ & Hwhy & _)|[-> | ->]];
      [done | by destruct Herr..].
  - intros Hwhy. exists w. by eapply Lobby_join_refuses.
Qed.

(** A wrong version is reported even when the lobby is also full. *)
Lemma join_raises_what_its_first_failing_check_says_witness :
  let w := Scenario.world_after (Scenario.paired ++ [Accept; Iterate 2 (Scenario.identify "Carol" "v2")]) in
  (∃ w', Lobby_join 2 "KDQZ" (Some "v2") w = Some (w', Raise (MismatchedVersionException (Some "v1"))))
  ∧ ¬ (∃ w', Lobby_join 2 "KDQZ" (Some "v2") w = Some (w', Raise LobbyFullException)).
Proof.
  intros w.
  pose proof (join_raises_what_its_first_failing_check_says w 2
                (mkClientThread [] (Some "Carol") (Some "v2") None false Running)
                "Carol" (Some "v2") "KDQZ") as Hiff.
  split.
  - apply (Hiff (MismatchedVersionException (Some "v1"))); [vm_compute; reflexivity | reflexivity | by eexists |].
    exists 0, (mkLobby "KDQZ" (Some "v1") [("Alice", Some 0); ("Bob", Some 1)] 2).
    split_and!; try (vm_compute; reflexivity). discriminate.
  - intros Hfull.
    apply (Hiff LobbyFullException) in Hfull; [|vm_compute; reflexivity | reflexivity | by eexists].
    destruct Hfull as (l & L & Hreg & HL & Hv & _).
    vm_compute in Hreg. injection Hreg as <-.
    vm_compute in HL. injection HL as <-. discriminate.
Defined.

Lemma Lobby_message_inv l d ex w w' r :
  Lobby_message l d ex w = Some (w', r) → same_store w w'.
Proof.
  unfold Lobby_message. intros [(w1 & L & Hget & Hrun)|(e & Hget & _)]%bind_inv;
    apply get_lobby_inv in Hget as (-> & L' & _ & ?); [|done].
  by apply message_items_inv in Hrun as [? _].
Qed.

(** Whatever its outcome, [connect] has put the thread into the
    membership under its name and changed nothing else but the wire. *)
Lemma Lobby_connect_post l t w w' r :
  Lobby_connect l t w = Some (w', r) →
  ∃ th n L, threads w !! t = Some th ∧ name th = Some n ∧ heap w !! l = Some L
    ∧ heap w' = <[l := set_clients (dict_set n (Some t) (clients L)) L]> (heap w)
    ∧ lobbies w' = lobbies w ∧ threads w' = threads w ∧ random w' = random w.
Proof.
  intros (th & n & L & Hth & Hn & HL & Hmsg)%Lobby_connect_inv.
  apply Lobby_message_inv in Hmsg as (? & ? & ? & ?). by exists th, n, L.
Qed.

Lemma Lobby_join_returns t th n c gv w w' l :
  threads w !! t = Some th → name th = Some n →
  Lobby_join t c gv w = Some (w', Return l) →
  ∃ L, lobbies w !! c = Some l ∧ heap w !! l = Some L ∧ version L = gv
       ∧ heap w' = <[l := set_clients (dict_set n (Some t) (clients L)) L]> (heap w)
       ∧ lobbies w' = lobbies w ∧ threads w' = threads w ∧ random w' = random w.
Proof.
  intros Hth Hn. unfold Lobby_join. erewrite bind_run by reflexivity.
  destruct (lobbies w !! c) as [l0|] eqn:Hreg; [|done].
  intros [(w1 & L & Hget & Hrun)|(e' & Hget & [=])]%bind_inv.
  apply get_lobby_inv in Hget as (-> & L' & HL & [= <-]).
  case_bool_decide as Hv; simpl in Hrun; [|done].
  rewrite (bind_run _ _ _ _ _ (get_thread_run _ _ _ Hth)), Hn in Hrun.
  assert (Hconn : (Lobby_connect l0 t ;; ret l0) w = Some (w', Return l)).
  { repeat (case_match; try done). }
  apply bind_inv in Hconn as [(w1 & [] & Hconn & [= <- <-])|(e' & _ & [=])].
  apply Lobby_connect_post in Hconn
    as (th' & n' & L0 & Hth' & Hn' & HL0 & Hheap & Hlob & Hthr & Hrand).
  assert (n' = n) as -> by congruence. assert (L0 = L) as -> by congruence.
  by exists L.
Qed.

(** X7.  A join that has succeeded cannot be repeated: the same request
    from the same connection is then refused with
    [AlreadyConnectedException], and changes nothing. *)
Theorem join_twice_is_already_connected w t th n c gv w' l :
  threads w !! t = Some th → name th = Some n →
  Lobby_join t c gv w = Some (w', Return l) →
  Lobby_join t c gv w' = Some (w', Raise AlreadyConnectedException).
Proof.
  intros Hth Hn (L & Hreg & HL & Hv & Hheap & Hlob & Hthr & Hrand)%(Lobby_join_returns _ th n);
    [|done..].
  apply (Lobby_join_refuses t th n); [by rewrite Hthr | done |].
  exists l, (set_clients (dict_set n (Some t) (clients L)) L), t.
  rewrite Hlob, Hheap. split_and!; [done | | done | apply dict_get_set_eq].
  apply list_lookup_insert_eq. by eapply lookup_lt_Some.
Qed.

Lemma join_twice_is_already_connected_witness :
  let w := Scenario.world_after (Scenario.bob_left ++ [Accept; Iterate 2 (Scenario.identify "Bob" "v1")]) in
  ∃ w', Lobby_join 2 "KDQZ" (Some "v1") w = Some (w', Return 0)
        ∧ Lobby_join 2 "KDQZ" (Some "v1") w' = Some (w', Raise AlreadyConnectedException).
Proof.
  intros w.
  assert (Hth : threads w !! 2
                = Some (mkClientThread [] (Some "Bob") (Some "v1") None false Running))
    by (vm_compute; reflexivity).
  assert (Hjoin : ∃ w', Lobby_join 2 "KDQZ" (Some "v1") w = Some (w', Return 0))
    by (vm_compute; eexists; reflexivity).
  destruct Hjoin as [w' Hjoin]. exists w'. split; [exact Hjoin|].
  exact (join_twice_is_already_connected w 2 _ "Bob" "KDQZ" (Some "v1") w' 0 Hth eq_refl Hjoin).
Defined.

(** ** Leaving, forward *)

Lemma dict_set_absent {V} (k : string) (v : V) (d : list (string * V)) :
  dict_get k d = None → dict_set k v d = d ++ [(k, v)].
Proof.
  induction d as [|[k' v'] d IH]; simpl; [done|].
  destruct (decide (k = k')); [done|]. intros Hget. by rewrite IH.
Qed.

Lemma forallb_is_tombstone_omap (cs : list (string * option tid)) :
  forallb is_tombstone (dict_values cs) = bool_decide (omap snd cs = []).
Proof.
  induction cs as [|[n [t|]] cs IH]; csimpl; [done | done | exact IH].
Qed.

(** [disconnect] tells the members that are left, in the order of the
    membership, and passes over the tombstones. *)
Lemma disconnect_items_run items n : ∀ w,
  (∀ t, t ∈ omap snd items → socket_open w t) →
  ∃ w', disconnect_items items n w = Some (w', Return tt)
        ∧ same_store w w'
        ∧ emitted w w' (map (λ t, Sent t (disconnect_frame n)) (omap snd items)).
Proof.
  unfold emitted.
  induction items as [|[n0 [t|]] items IH]; intros w Hopen; csimpl.
  - exists w. by rewrite app_nil_r.
  - destruct (Hopen t) as (th & Hth & Hsock); [apply list_elem_of_here|].
    destruct (IH (set_wire (λ evs, evs ++ [Sent t (disconnect_frame n)]) w))
      as (w' & Hrun & Hstore & Hwire).
    { intros t' Hin. apply Hopen. by apply list_elem_of_further. }
    exists w'. rewrite (bind_run _ _ _ _ _ (send_json_open _ _ _ _ Hth Hsock)).
    split_and!; [done.. |]. rewrite Hwire. simpl. by rewrite <- app_assoc.
  - destruct (IH w Hopen) as (w' & Hrun & ?). exists w'.
    by rewrite (bind_run _ _ _ w tt).
Qed.

Lemma Lobby_disconnect_run l n w L :
  heap w !! l = Some L →
  let cs := dict_set n None (clients L) in
  (∀ t, t ∈ omap snd cs → socket_open w t) →
  (omap snd cs = [] → is_Some (lobbies w !! code L)) →
  ∃ w', Lobby_disconnect l n w = Some (w', Return tt)
        ∧ heap w' = <[l := set_clients cs L]> (heap w)
        ∧ lobbies w' = (if decide (omap snd cs = [])
                        then delete (code L) (lobbies w) else lobbies w)
        ∧ threads w' = threads w ∧ random w' = random w
        ∧ emitted w w' (map (λ t, Sent t (disconnect_frame n)) (omap snd cs)).
Proof.
  intros HL cs Hopen Hreg. unfold Lobby_disconnect.
  erewrite bind_run by (by apply update_lobby_run).
  erewrite bind_run
    by (apply get_lobby_run; simpl; apply list_lookup_insert_eq; by eapply lookup_lt_Some).
  cbn [clients code set_clients]. fold cs. rewrite forallb_is_tombstone_omap.
  set (w1 := set_heap _ w).
  destruct (decide (omap snd cs = [])) as [Hnone|Hsome].
  - rewrite bool_decide_eq_true_2 by done. destruct (Hreg Hnone) as [l' Hl'].
    assert (Hdel : del_lobbies (code L) w1 = Some (set_lobbies (delete (code L)) w1, Return tt)).
    { unfold del_lobbies. erewrite bind_run by reflexivity. simpl. by rewrite Hl'. }
    rewrite (bind_run _ _ _ _ _ Hdel).
    destruct (disconnect_items_run cs n (set_lobbies (delete (code L)) w1))
      as (w' & Hrun & (Hlob & Hheap & Hthr & Hrand) & Hwire); [exact Hopen|].
    exists w'. by rewrite Hrun, Hlob, Hheap, Hthr, Hrand.
  - rewrite bool_decide_eq_false_2 by done. erewrite bind_run by reflexivity.
    destruct (disconnect_items_run cs n w1)
      as (w' & Hrun & (Hlob & Hheap & Hthr & Hrand) & Hwire); [exact Hopen|].
    exists w'. by rewrite Hrun, Hlob, Hheap, Hthr, Hrand.
Qed.





(** X9.  [disconnect] goes by the name the connection has when it
    leaves.  If that name is not in the membership (the connection has
    identified itself again since it joined), a tombstone is added at
    the end of the membership, whatever the capacity, no entry is taken
    out, the lobby stays registered and every member is told, the entry
    the connection joined under among them. *)
Theorem disconnect_under_a_new_name_adds_a_tombstone l n w L :
  heap w !! l = Some L → dict_get n (clients L) = None →
  omap snd (clients L) ≠ [] →
  (∀ t, t ∈ omap snd (clients L) → socket_open w t) →
  ∃ w', Lobby_disconnect l n w = Some (w', Return tt)
        ∧ heap w' = <[l := set_clients (clients L ++ [(n, None)]) L]> (heap w)
        ∧ lobbies w' = lobbies w
        ∧ emitted w w' (map (λ t, Sent t (disconnect_frame n)) (omap snd (clients L))).
Proof.
  intros HL Hnew Hsome Hopen.
  assert (Hcs : omap snd (dict_set n None (clients L)) = omap snd (clients L)).
  { rewrite dict_set_absent by done. rewrite omap_app. csimpl. by rewrite app_nil_r. }
  destruct (Lobby_disconnect_run l n w L HL)
    as (w' & Hrun & Hheap & Hlob & _ & _ & Hwire).
  { by rewrite Hcs. }
  { by rewrite Hcs. }
  exists w'. rewrite Hcs in *. rewrite decide_False in Hlob by done.
  by rewrite dict_set_absent in Hheap.
Qed.

Lemma disconnect_under_a_new_name_adds_a_tombstone_witness :
  let w := Scenario.world_after (Scenario.paired ++ [Iterate 1 (Scenario.identify "Robert" "v1")]) in
  ∃ w', Lobby_disconnect 0 "Robert" w = Some (w', Return tt)
        ∧ heap w' = [mkLobby "KDQZ" (Some "v1") [("Alice", Some 0); ("Bob", Some 1); ("Robert", None)] 2]
        ∧ emitted w w' [Sent 0 (disconnect_frame "Robert"); Sent 1 (disconnect_frame "Robert")].
Proof.
  intros w.
  assert (HL : heap w !! 0 = Some (mkLobby "KDQZ" (Some "v1") [("Alice", Some 0); ("Bob", Some 1)] 2))
    by (vm_compute; reflexivity).
  assert (Hopen : ∀ t, t ∈ [0; 1] → socket_open w t).
  { intros t [->|[->|[]%not_elem_of_nil]%elem_of_cons]%elem_of_cons;
      eexists; split; vm_compute; reflexivity. }
  pose proof (disconnect_under_a_new_name_adds_a_tombstone 0 "Robert" w _ HL eq_refl
                ltac:(discriminate) Hopen) as (w' & Hrun & Hheap & _ & Hwire).
  exists w'. split; [exact Hrun|]. split; [|exact Hwire].
  rewrite Hheap. vm_compute. reflexivity.
Defined.

(** ** A turn in a lobby that somebody has left *)

(** X10.  A turn in a lobby with a tombstone in its membership is sent to
    the members listed before the first tombstone (the sender apart),
    and then raises [AttributeError]: the members listed after the
    tombstone do not get it. *)
Theorem turn_stops_at_the_first_tombstone w t th n l L d pre n0 post :
  threads w !! t = Some th → name th = Some n → lobby th = Some l →
  heap w !! l = Some L → clients L = pre ++ (n0, None) :: post →
  (∀ n', (n', None) ∉ pre) →
  (∀ t', t' ∈ recipients [t] pre → socket_open w t') →
  ∃ w', action_turn t d w = Some (w', Raise AttributeError)
        ∧ same_store w w'
        ∧ emitted w w' (map (λ t', Sent t' (dict_set "name" (JStr n) d)) (recipients [t] pre)).
Proof.
  intros Hth Hn Hl HL Hcs Hpre Hopen.
  unfold action_turn. rewrite (bind_run _ _ _ _ _ (get_thread_run _ _ _ Hth)).
  rewrite Hn, Hl. unfold Lobby_message.
  rewrite (bind_run _ _ _ _ _ (get_lobby_run _ _ _ HL)), Hcs.
  by apply message_items_tombstone.
Qed.

Lemma turn_stops_at_the_first_tombstone_witness :
  let w := Scenario.world_after (Scenario.paired ++ [Iterate 0 client_close]) in
  let d := [("action", JStr "turn"); ("move", JNum 5)] in
  ∃ w', action_turn 1 d w = Some (w', Raise AttributeError) ∧ same_store w w'
        ∧ emitted w w' [].
Proof.
  intros w d.
  assert (Hth : threads w !! 1
                = Some (mkClientThread [] (Some "Bob") (Some "v1") (Some 0) false Running))
    by (vm_compute; reflexivity).
  assert (HL : heap w !! 0 = Some (mkLobby "KDQZ" (Some "v1") [("Alice", None); ("Bob", Some 1)] 2))
    by (vm_compute; reflexivity).
  exact (turn_stops_at_the_first_tombstone w 1 _ "Bob" 0 _ d [] "Alice" [("Bob", Some 1)]
           Hth eq_refl eq_refl HL eq_refl
           (λ n' Hin, not_elem_of_nil _ Hin)
           (λ t' Hin, False_ind _ (not_elem_of_nil _ Hin))).
Defined.

(** ** What a step does to the threads *)

Lemma set_threads_insert_alter t x w :
  set_threads (λ ts, <[t := x]> ts) w = set_threads (alter (λ _, x) t) w.
Proof. unfold set_threads. by rewrite list_insert_alter. Qed.

Section OwnThread.
Context (json_loads : string → option json) (P : World → Prop) (t : tid).
Hypothesis P_blind : registry_blind P.
Hypothesis P_alter : ∀ g w, P w → P (set_threads (alter g t) w).

Lemma preserves_own_update f : preserves P (update_thread t f).
Proof.
  apply preserves_update_thread. intros w th _ HP.
  rewrite set_threads_insert_alter. by apply P_alter.
Qed.

Lemma preserves_own_handle_message d : preserves P (handle_message t d).
Proof.
  apply preserves_handle_message; [apply P_blind | intros kvs _ _..].
  - apply preserves_action_identify; [apply P_blind | intros; apply preserves_own_update..].
  - apply preserves_action_create; [apply P_blind | |].
    + intros v. by apply preserves_blind_Lobby_create.
    + intros l. apply preserves_own_update.
  - apply preserves_action_join; [apply P_blind | |].
    + intros c v. by apply preserves_blind_Lobby_join.
    + intros l. apply preserves_own_update.
Qed.

Lemma preserves_own_run_exit : preserves P (run_exit t).
Proof.
  apply preserves_run_exit; [apply P_blind | |].
  - intros l n. by apply preserves_blind_Lobby_disconnect.
  - apply preserves_own_update.
Qed.

(** What the updates of the record of [t] keep, a step of [t] keeps. *)
Lemma step_own sock w w' :
  step json_loads w (Iterate t sock) = Some w' → P w → P w'.
Proof.
  intros (th & received & buf & w2 & r & _ & _ & _ & Hrun & ->)%step_Iterate_inv HP.
  assert (P w2) as HP2.
  { eapply preserves_run_iteration; [| |exact Hrun|].
    - apply preserves_own_handle_message.
    - apply preserves_own_run_exit.
    - rewrite set_threads_insert_alter. by apply P_alter. }
  destruct r as [[]|e]; [done | by apply P_alter..].
Qed.
End OwnThread.

(** X11.  A step of the accept loop appends a fresh thread and touches
    nothing else; a step of a thread starts no thread and leaves the
    record of every other thread as it is. *)
Theorem step_leaves_the_other_connections_alone json_loads w lab w' :
  step json_loads w lab = Some w' →
  match lab with
  | Accept =>
      threads w' = threads w ++ [new_ClientThread] ∧ lobbies w' = lobbies w
      ∧ heap w' = heap w ∧ wire w' = wire w ∧ random w' = random w
  | Iterate t _ =>
      length (threads w') = length (threads w)
      ∧ ∀ t', t' ≠ t → threads w' !! t' = threads w !! t'
  end.
Proof.
  destruct lab as [|t sock]; [by intros [= <-]|]. intros Hstep. split.
  - apply (step_own json_loads (λ w0, length (threads w0) = length (threads w)) t)
      with (sock := sock) (w := w); [by split_and!; intros f w0 | | done | done].
    intros g w0 Hlen. simpl. by rewrite length_alter.
  - intros t' Hne.
    apply (step_own json_loads (λ w0, threads w0 !! t' = threads w !! t') t)
      with (sock := sock) (w := w); [by split_and!; intros f w0 | | done | done].
    intros g w0 Hlook. simpl. by rewrite list_lookup_alter_ne.
Qed.

Lemma step_leaves_the_other_connections_alone_witness :
  let w := Scenario.world_after Scenario.paired in
  ∃ w', step Json.loads w (Iterate 0 Scenario.create) = Some w'
        ∧ length (threads w') = 2
        ∧ threads w' !! 1 = threads w !! 1.
Proof.
  intros w.
  set (w' := Scenario.world_after (Scenario.paired ++ [Iterate 0 Scenario.create])).
  assert (Hstep : step Json.loads w (Iterate 0 Scenario.create) = Some w')
    by (vm_compute; reflexivity).
  pose proof (step_leaves_the_other_connections_alone Json.loads w _ w' Hstep)
    as [Hlen Hother].
  exists w'. split; [exact Hstep|]. split; [exact Hlen|]. apply Hother. discriminate.
Defined.

(** ** What a thread does to its own record *)

Section OwnRecord.
Context (t : tid) (th : ClientThread).

Lemma is_record_blind : registry_blind (λ w, threads w !! t = Some th).
Proof. by split_and!; intros f w. Qed.

Lemma own_same {A} (c : M A) w w' r :
  preserves (λ w, threads w !! t = Some th) c →
  c w = Some (w', r) → threads w !! t = Some th → threads w' !! t = Some th.
Proof. intros Hc Hrun Hth. by eapply Hc. Qed.

Lemma own_update f w w' r :
  update_thread t f w = Some (w', r) → threads w !! t = Some th →
  r = Return tt ∧ threads w' !! t = Some (f th).
Proof.
  intros (th' & Hth' & -> & ->)%update_thread_inv Hth. split; [done|]. simpl.
  rewrite list_lookup_insert_eq by (by eapply lookup_lt_Some). congruence.
Qed.

Lemma own_send_json d w w' r :
  send_json t d w = Some (w', r) → threads w !! t = Some th → threads w' !! t = Some th.
Proof. by intros [[_ ->]|[_ ->]]%send_json_inv. Qed.
End OwnRecord.

Lemma action_identify_own t th d w w' r :
  action_identify t d w = Some (w', r) → threads w !! t = Some th →
  ∃ th', threads w' !! t = Some th' ∧ handled th r th'.
Proof.
  intros Hrun Hth. unfold action_identify in Hrun.
  destruct (dict_get "name" d) as [v|]; [|injection Hrun as <- <-; eauto using handled].
  destruct (py_str v) as [n|]; [|done]. simpl in Hrun.
  erewrite bind_run in Hrun by reflexivity.
  apply bind_inv in Hrun as [(w1 & [] & Hup & Hrun)|(e & Hup & _)];
    destruct (own_update _ _ _ _ _ _ Hup Hth) as [? Hth1]; [|done].
  destruct (dict_get "game_version" d) as [v'|];
    [|injection Hrun as <- <-; eauto using handled].
  destruct (as_version v') as [gv|]; [|done]. simpl in Hrun.
  erewrite bind_run in Hrun by reflexivity.
  apply bind_inv in Hrun as [(w2 & [] & Hup2 & Hrun)|(e & Hup2 & _)];
    destruct (own_update _ _ _ _ _ _ Hup2 Hth1) as [? Hth2]; [|done].
  pose proof (own_send_json _ _ _ _ _ _ Hrun Hth2). eauto using handled.
Qed.

Lemma action_create_own t th d w w' r :
  action_create t d w = Some (w', r) → threads w !! t = Some th →
  ∃ th', threads w' !! t = Some th' ∧ handled th r th'.
Proof.
  intros Hrun Hth. unfold action_create in Hrun.
  rewrite (bind_run _ _ _ _ _ (get_thread_run _ _ _ Hth)) in Hrun.
  destruct (name th) as [n|] eqn:Hn;
    [|pose proof (own_send_json _ _ _ _ _ _ Hrun Hth); eauto using handled].
  set (gv := game_version th) in Hrun; clearbody gv.
  assert (Hkeep : preserves (λ w, threads w !! t = Some th) (Lobby_create t gv))
    by (by apply preserves_blind_Lobby_create, is_record_blind).
  apply bind_inv in Hrun as [(w1 & l & Hcreate & Hup)|(e & Hcreate & ->)];
    pose proof (Hkeep _ _ _ Hcreate Hth) as Hth1.
  - destruct (own_update _ _ _ _ _ _ Hup Hth1) as [-> Hth2].
    exists (set_lobby (Some l) th). split; [done|]. apply handled_lobby. by rewrite Hn.
  - eauto using handled.
Qed.

Lemma join_with_code_own t th c gv w w' r :
  join_with_code t c gv w = Some (w', r) → threads w !! t = Some th →
  threads w' !! t = Some th.
Proof.
  intros Hrun Hth. eapply (own_same t th); [|exact Hrun|exact Hth].
  pose proof (is_record_blind t th) as Hblind.
  unfold join_with_code. destruct c; try apply preserves_raise.
  by apply preserves_blind_Lobby_join.
Qed.

Lemma action_join_own t th d w w' r :
  action_join t d w = Some (w', r) → threads w !! t = Some th →
  ∃ th', threads w' !! t = Some th' ∧ handled th r th'.
Proof.
  intros Hrun Hth. unfold action_join in Hrun.
  rewrite (bind_run _ _ _ _ _ (get_thread_run _ _ _ Hth)) in Hrun.
  destruct (name th) as [n|] eqn:Hn;
    [|pose proof (own_send_json _ _ _ _ _ _ Hrun Hth); eauto using handled].
  unfold try_except in Hrun.
  destruct (dict_get "code" d) as [c|].
  - set (gv := game_version th) in Hrun; clearbody gv.
    unfold bind at 1 in Hrun.
    destruct (join_with_code t c gv w) as [[w1 [l|e]]|] eqn:Hjoin; [| |done];
      pose proof (join_with_code_own _ _ _ _ _ _ _ Hjoin Hth) as Hth1.
    + destruct (update_thread t (set_lobby (Some l)) w1) as [[w2 r2]|] eqn:Hup; [|done].
      destruct (own_update _ _ _ _ _ _ Hup Hth1) as [-> Hth2]. injection Hrun as <- <-.
      exists (set_lobby (Some l) th). split; [done|]. apply handled_lobby. by rewrite Hn.
    + destruct e; simpl in Hrun;
        first [ injection Hrun as <- <-
              | pose proof (own_send_json _ _ _ _ _ _ Hrun Hth1) ];
        eauto using handled.
  - simpl in Hrun. injection Hrun as <- <-. eauto using handled.
Qed.

Lemma handle_message_own t th d w w' r :
  handle_message t d w = Some (w', r) → threads w !! t = Some th →
  ∃ th', threads w' !! t = Some th' ∧ handled th r th'.
Proof.
  intros Hrun Hth.
  assert (Hsame : preserves (λ w, threads w !! t = Some th) (handle_message t d) →
                  ∃ th', threads w' !! t = Some th' ∧ handled th r th').
  { intros Hc. exists th. split; [by eapply Hc | apply handled_same]. }
  pose proof (is_record_blind t th) as Hblind.
  assert (Hwire : wire_blind (λ w, threads w !! t = Some th)) by apply Hblind.
  unfold handle_message in *.
  destruct d as [| | | | |xs|kvs]; try solve [apply Hsame; preserves_tac].
  destruct (dict_get "action" kvs) as [a|]; [|apply Hsame; preserves_tac].
  destruct (is_str "identify" a); [by eapply action_identify_own|].
  destruct (is_str "create" a); [by eapply action_create_own|].
  destruct (is_str "join" a); [by eapply action_join_own|].
  destruct (is_str "turn" a); [|apply Hsame; preserves_tac].
  apply Hsame. by apply preserves_action_turn.
Qed.

Lemma run_exit_own t th w w' r :
  run_exit t w = Some (w', r) → threads w !! t = Some th →
  (r = Return tt ∧ threads w' !! t = Some (set_socket_closed true th))
  ∨ (∃ e, r = Raise e ∧ threads w' !! t = Some th).
Proof.
  intros Hrun Hth. unfold run_exit in Hrun.
  rewrite (bind_run _ _ _ _ _ (get_thread_run _ _ _ Hth)) in Hrun.
  pose proof (is_record_blind t th) as Hblind.
  assert (Hleave : preserves (λ w, threads w !! t = Some th)
            (match lobby th with
             | Some l => match name th with
                         | Some n => Lobby_disconnect l n
                         | None => undefined
                         end
             | None => ret tt
             end)).
  { destruct (lobby th); [|apply preserves_ret].
    destruct (name th); [|apply preserves_undefined].
    by apply preserves_blind_Lobby_disconnect. }
  apply bind_inv in Hrun as [(w1 & [] & Hdisc & Hrun)|(e & Hdisc & ->)].
  - pose proof (Hleave _ _ _ Hdisc Hth) as Hth1.
    apply bind_inv in Hrun as [(w2 & [] & Hup & Hrun)|(e & Hup & _)];
      destruct (own_update _ _ _ _ _ _ Hup Hth1) as [? Hth2]; [|done].
    injection Hrun as <- <-. by left.
  - right. exists e. split; [done|]. by eapply Hleave.
Qed.

Lemma handled_thread_ok th r th' :
  handled th r th' → thread_ok th → alive th = Running →
  thread_ok (match r with Return _ => th' | Raise e => set_alive (Crashed e) th' end).
Proof.
  intros Hh (Hname & Hsock) Halive.
  assert (Hopen : socket_closed th = false).
  { destruct (socket_closed th); [|done]. destruct Hsock as [Hsock _].
    rewrite Halive in Hsock. by discriminate Hsock. }
  destruct Hh as [r|n e|n gv r|l Hn]; repeat (destruct r as [[]|e']);
    unfold thread_ok; simpl; rewrite ?Hopen, ?Halive;
    split_and!; try done; try (by split); eauto.
Qed.

Section ThreadsOk.
Context (json_loads : string → option json).

Lemma step_threads_ok w lab w' :
  step json_loads w lab = Some w' → threads_ok w → threads_ok w'.
Proof.
  intros Hstep Hok. destruct lab as [|t sock].
  - injection Hstep as <-. intros t th. simpl.
    intros [Hth|[_ Hth]]%lookup_app_Some; [by eapply Hok|].
    apply list_lookup_singleton_Some in Hth as [_ <-].
    unfold thread_ok. simpl. split_and!; try done; by split.
  - intros t' th'. destruct (decide (t' = t)) as [->|Hne].
    2:{ assert (threads w' !! t' = threads w !! t') as ->; [|apply Hok].
        apply (step_own json_loads (λ w0, threads w0 !! t' = threads w !! t') t)
          with (sock := sock) (w := w); [by split_and!; intros f w0 | | done | done].
        intros g w0 Hlook. simpl. by rewrite list_lookup_alter_ne. }
    apply step_Iterate_inv in Hstep
      as (th & received & buf & w2 & r & Hth & Halive & _ & Hrun & ->).
    assert (Hlt : t < length (threads w)) by (by eapply lookup_lt_Some).
    remember (set_threads (λ ts, <[t := set_buffer buf th]> ts) w) as w1 eqn:Hw1.
    assert (Hth1 : threads w1 !! t = Some (set_buffer buf th))
      by (subst w1; by apply list_lookup_insert_eq).
    clear Hw1.
    assert (Hok1 : thread_ok (set_buffer buf th)) by (by apply (Hok t th)).
    assert (Hopen : socket_closed th = false).
    { destruct (Hok t th Hth) as (_ & Hsock). destruct (socket_closed th); [|done].
      destruct Hsock as [Hsock _]. rewrite Halive in Hsock. by discriminate Hsock. }
    assert (Hcrash : ∀ e, thread_ok (set_alive (Crashed e) (set_buffer buf th))).
    { intros e. apply (handled_thread_ok _ (Raise e) _ (handled_same _ _) Hok1 Halive). }
    unfold run_iteration in Hrun. destruct received as [[text|]|e].
    + destruct (json_loads text) as [d|].
      * apply bind_inv in Hrun as [(w3 & [] & Hh & [= <- <-])|(e & Hh & ->)];
          destruct (handle_message_own _ _ _ _ _ _ Hh Hth1) as (th2 & Hth2 & Hhandled).
        -- rewrite Hth2. intros [= <-].
           apply (handled_thread_ok _ (Return tt) _ Hhandled Hok1 Halive).
        -- simpl. rewrite list_lookup_alter_eq, Hth2. intros [= <-].
           apply (handled_thread_ok _ (Raise e) _ Hhandled Hok1 Halive).
      * injection Hrun as <- <-. simpl. rewrite list_lookup_alter_eq, Hth1.
        intros [= <-]. apply Hcrash.
    + apply bind_inv in Hrun as [(w3 & [] & Hexit & [= <- <-])|(e & Hexit & ->)];
        destruct (run_exit_own _ _ _ _ _ Hexit Hth1) as [[? Hth2]|(e' & ? & Hth2)];
        simplify_eq; simpl; rewrite list_lookup_alter_eq, Hth2; intros [= <-].
      * destruct Hok1 as (Hname & _). unfold thread_ok. simpl. by split.
      * apply Hcrash.
    + injection Hrun as <- <-. simpl. rewrite list_lookup_alter_eq, Hth1.
      intros [= <-]. apply Hcrash.
Qed.

Lemma reachable_all_threads_ok w : reachable json_loads w → threads_ok w.
Proof.
  induction 1 as [tape|w lab w' _ IH Hstep]; [by intros t th [=]|].
  by eapply step_threads_ok.
Qed.

(** X12.  In every state the server can reach, every thread has a name:
    a thread is accepted with the name ["None"], which is what the
    setter of [Thread.name] makes of [None], and an identify replaces it
    by the [str] of what it is given.  So no thread is ever found
    without a name by the tests [self.name is None] of the handlers.
    And the socket of a thread is closed exactly when its [run] has
    returned: a thread that an exception has ended keeps its socket
    open. *)
Theorem reachable_threads_ok w t th :
  reachable json_loads w → threads w !! t = Some th →
  is_Some (name th)
  ∧ (socket_closed th = true ↔ alive th = Finished).
Proof. intros Hreach. by apply reachable_all_threads_ok. Qed.
End ThreadsOk.

(** A connection that has just been accepted, and one that a line that
    is no JSON has ended. *)
Lemma reachable_threads_ok_witness :
  let w := Scenario.world_after (Scenario.paired ++ [Iterate 0 Scenario.garbage; Accept]) in
  let alice := mkClientThread [] (Some "Alice") (Some "v1") (Some 0) false
                 (Crashed JSONDecodeError) in
  (threads w !! 0 = Some alice
   ∧ (socket_closed alice = true ↔ alive alice = Finished))
  ∧ (threads w !! 2 = Some new_ClientThread
     ∧ is_Some (name new_ClientThread)).
Proof.
  intros w alice.
  assert (Hth : threads w !! 0 = Some alice) by (vm_compute; reflexivity).
  assert (Hnew : threads w !! 2 = Some new_ClientThread) by (vm_compute; reflexivity).
  split; (split; [done|]).
  - exact (proj2 (reachable_threads_ok Json.loads w 0 alice (world_after_reachable _) Hth)).
  - exact (proj1 (reachable_threads_ok Json.loads w 2 _ (world_after_reachable _) Hnew)).
Defined.

(** ** Messages that lack a field, and turns outside a lobby *)

Section Named.
Context (json_loads : string → option json).

(** C10.  A join message without a code, and an identify message without
    a name, or with a name and without a game version, raise a
    [KeyError] that nothing catches, on whatever connection and whether
    it has identified itself or not (the test [self.name is None] that
    comes before the lookup of the code never succeeds): the thread is
    left by the exception, with nothing sent, no lobby touched and the
    socket not closed. *)
Theorem missing_field_is_a_KeyError w t th sock text buf kvs :
  reachable json_loads w →
  threads w !! t = Some th → alive th = Running →
  NewlineReceiver_call sock (buffer th) = Some (Return (Some text), buf, []) →
  json_loads text = Some (JObj kvs) →
  (dict_get "action" kvs = Some (JStr "join") ∧ dict_get "code" kvs = None)
  ∨ (dict_get "action" kvs = Some (JStr "identify") ∧ dict_get "name" kvs = None)
  ∨ (dict_get "action" kvs = Some (JStr "identify")
     ∧ (∃ v, dict_get "name" kvs = Some v ∧ is_Some (py_str v))
     ∧ dict_get "game_version" kvs = None) →
  ∃ w' th', step json_loads w (Iterate t sock) = Some w'
            ∧ threads w' !! t = Some th' ∧ alive th' = Crashed KeyError
            ∧ socket_closed th' = socket_closed th ∧ lobby th' = lobby th
            ∧ wire w' = wire w ∧ lobbies w' = lobbies w ∧ heap w' = heap w.
Proof.
  intros Hreach Hth Halive Hrecv Hd Hcase.
  destruct (reachable_all_threads_ok json_loads w Hreach t th Hth) as [[n0 Hn0] _].
  rewrite (step_handle_message _ _ _ _ _ _ _ _ Hth Halive Hrecv Hd).
  assert (Hlt : t < length (threads w)) by (by eapply lookup_lt_Some).
  set (w1 := set_threads (λ ts, <[t := set_buffer buf th]> ts) w).
  assert (Hth1 : threads w1 !! t = Some (set_buffer buf th))
    by (by apply list_lookup_insert_eq).
  destruct Hcase as [(Ha & Hcode)|[(Ha & Hname)|(Ha & (v & Hname & n & Hstr) & Hgv)]];
    simpl; rewrite Ha; simpl.
  - assert (action_join t kvs w1 = Some (w1, Raise KeyError)) as ->.
    { unfold action_join. rewrite (bind_run _ _ _ _ _ (get_thread_run _ _ _ Hth1)).
      simpl. rewrite Hn0. apply try_except_uncaught; [by rewrite Hcode | done]. }
    eexists _, _. split; [done|]. simpl in *.
    rewrite list_lookup_alter_eq, Hth1. done.
  - assert (action_identify t kvs w1 = Some (w1, Raise KeyError)) as ->
      by (unfold action_identify; by rewrite Hname).
    eexists _, _. split; [done|]. simpl in *.
    rewrite list_lookup_alter_eq, Hth1. done.
  - assert (action_identify t kvs w1
            = Some (set_threads (λ ts, <[t := set_name (Some n) (set_buffer buf th)]> ts) w1,
                    Raise KeyError)) as ->.
    { unfold action_identify. rewrite Hname, Hstr. simpl. erewrite bind_run by reflexivity.
      erewrite bind_run by (by apply update_thread_run). by rewrite Hgv. }
    eexists _, _. split; [done|]. simpl.
    rewrite list_lookup_alter_eq, list_lookup_insert_eq by (by rewrite length_insert). done.
Qed.

(** X2.  A turn from a connection that is in no lobby is answered with
    one [not_in_lobby] error frame, whether the connection has
    identified itself or not, and nothing else changes. *)
Theorem turn_outside_a_lobby_is_answered w t th kvs :
  reachable json_loads w →
  threads w !! t = Some th → socket_closed th = false → lobby th = None →
  dict_get "action" kvs = Some (JStr "turn") →
  ∃ w', handle_message t (JObj kvs) w = Some (w', Return tt)
        ∧ sends_only t (error_frame "not_in_lobby") w w'.
Proof.
  intros Hreach Hth Hopen Hl Haction.
  destruct (reachable_all_threads_ok json_loads w Hreach t th Hth) as [[n Hn] _].
  simpl. rewrite Haction. simpl.
  unfold action_turn. rewrite (bind_run _ _ _ _ _ (get_thread_run _ _ _ Hth)), Hn, Hl.
  by eapply send_json_sends_only.
Qed.
End Named.

(** A connection that has just been accepted sends a join message
    without a code. *)
Lemma missing_field_is_a_KeyError_witness :
  let w := Scenario.world_after [Accept] in
  ∃ w' th', step Json.loads w (Iterate 0 (client_send [("action", JStr "join")])) = Some w'
            ∧ threads w' !! 0 = Some th' ∧ alive th' = Crashed KeyError
            ∧ socket_closed th' = false ∧ lobby th' = None
            ∧ wire w' = wire w ∧ lobbies w' = lobbies w ∧ heap w' = heap w.
Proof.
  intros w.
  assert (Hth : threads w !! 0 = Some new_ClientThread) by (vm_compute; reflexivity).
  assert (Hrecv : NewlineReceiver_call (client_send [("action", JStr "join")])
                    (buffer new_ClientThread)
                  = Some (Return (Some (Json.dumps (JObj [("action", JStr "join")]))), [], []))
    by (vm_compute; reflexivity).
  assert (Hd : Json.loads (Json.dumps (JObj [("action", JStr "join")]))
               = Some (JObj [("action", JStr "join")])) by (vm_compute; reflexivity).
  exact (missing_field_is_a_KeyError Json.loads w 0 _ _ _ [] _
           (world_after_reachable _) Hth eq_refl Hrecv Hd
           (or_introl (conj eq_refl eq_refl))).
Defined.

(** A connection that has just been accepted sends a turn. *)
Lemma turn_outside_a_lobby_is_answered_witness :
  let w := Scenario.world_after [Accept] in
  ∃ w', handle_message 0 (JObj [("action", JStr "turn"); ("move", JNum 5)]) w
        = Some (w', Return tt)
        ∧ sends_only 0 (error_frame "not_in_lobby") w w'.
Proof.
  intros w.
  assert (Hth : threads w !! 0 = Some new_ClientThread) by (vm_compute; reflexivity).
  exact (turn_outside_a_lobby_is_answered Json.loads w 0 _
           [("action", JStr "turn"); ("move", JNum 5)]
           (world_after_reachable _) Hth eq_refl eq_refl eq_refl).
Defined.

(** ** Memberships only grow *)

Lemma dict_keys_set_prefix {V} k (v : V) (d : list (string * V)) :
  dict_keys d `prefix_of` dict_keys (dict_set k v d).
Proof. rewrite dict_keys_set. destruct (dict_has k d); [done | by apply prefix_app_r]. Qed.

Section LobbyExtends.
Context (json_loads : string → option json) (l : lid) (L : Lobby).

Lemma lobby_extends_refl w : heap w !! l = Some L → lobby_extends l L w.
Proof. intros HL. by exists L. Qed.

Lemma preserves_lobby_extends_update l0 n c :
  preserves (lobby_extends l L)
    (update_lobby l0 (λ L0, set_clients (dict_set n c (clients L0)) L0)).
Proof.
  apply preserves_update_lobby. intros w L0 HL0 (L' & HL' & Hc & Hv & Hm & Hk).
  unfold lobby_extends. simpl. destruct (decide (l = l0)) as [<-|Hne].
  - rewrite list_lookup_insert_eq by (by eapply lookup_lt_Some).
    assert (L0 = L') as -> by congruence. eexists. split; [done|]. simpl.
    split_and!; [done..|]. etransitivity; [exact Hk | apply dict_keys_set_prefix].
  - rewrite list_lookup_insert_ne by done. by exists L'.
Qed.

Lemma preserves_lobby_extends_connect l0 t :
  preserves (lobby_extends l L) (Lobby_connect l0 t).
Proof.
  apply preserves_Lobby_connect; [by intros f w|]. intros n.
  apply preserves_lobby_extends_update.
Qed.

Lemma step_lobby_extends w lab w' :
  step json_loads w lab = Some w' → lobby_extends l L w → lobby_extends l L w'.
Proof.
  intros Hstep. eapply step_preserves; [by intros f w0.. | | | | exact Hstep].
  - intros t v. apply preserves_Lobby_create; [by intros f w0 | | | |].
    + by intros w0 w1 r (c & rest & _ & -> & _)%Lobby_generate_code_inv.
    + intros c w0 w1 r [= <- <-] (L' & HL' & ?). exists L'. split; [|done]. simpl.
      by apply lookup_app_l_Some.
    + intros c l0. by apply preserves_modify.
    + intros l0. apply preserves_lobby_extends_connect.
  - intros t c v. apply preserves_Lobby_join. intros l0.
    apply preserves_lobby_extends_connect.
  - intros l0 n. apply preserves_Lobby_disconnect; [by intros f w0 | |].
    + apply preserves_lobby_extends_update.
    + intros c. by apply preserves_modify.
Qed.

Lemma exec_lobby_extends labs : ∀ w w',
  exec json_loads w labs = Some w' → lobby_extends l L w → lobby_extends l L w'.
Proof.
  induction labs as [|lab labs IH]; intros w w'; simpl; [by intros [= <-]|].
  destruct (step json_loads w lab) as [w1|] eqn:Hstep; [|done].
  intros Hexec Hext. eapply IH; [exact Hexec|]. by eapply step_lobby_extends.
Qed.

(** X13.  Whatever the server does, a lobby object keeps its code, its
    version and its capacity, and no name ever leaves its membership:
    the names it had stay the first names, in their order, and names
    are only added after them. *)
Theorem membership_only_grows w labs w' :
  exec json_loads w labs = Some w' → heap w !! l = Some L →
  ∃ L', heap w' !! l = Some L' ∧ code L' = code L ∧ version L' = version L
        ∧ max_players L' = max_players L
        ∧ dict_keys (clients L) `prefix_of` dict_keys (clients L')
        ∧ length (clients L) ≤ length (clients L').
Proof.
  intros Hexec HL.
  destruct (exec_lobby_extends labs w w' Hexec (lobby_extends_refl w HL))
    as (L' & HL' & Hc & Hv & Hm & Hk).
  exists L'. split_and!; [done..|].
  apply prefix_length in Hk. unfold dict_keys in Hk. by rewrite !length_fmap in Hk.
Qed.

(** X14.  A lobby that has as many names as it has places never has
    room again: after whatever the server does next, its members
    leaving included, a join under a name that is not in its membership
    raises [LobbyFullException], as long as the lobby is registered. *)
Theorem full_lobby_stays_full w labs w' L' c t th n :
  exec json_loads w labs = Some w' → heap w !! l = Some L →
  max_players L ≤ length (clients L) →
  lobbies w' !! c = Some l → heap w' !! l = Some L' →
  threads w' !! t = Some th → name th = Some n →
  dict_get n (clients L') = None →
  Lobby_join t c (version L) w' = Some (w', Raise LobbyFullException).
Proof.
  intros Hexec HL Hfull Hreg HL' Hth Hn Hnew.
  destruct (exec_lobby_extends labs w w' Hexec (lobby_extends_refl w HL))
    as (L'' & HL'' & Hc & Hv & Hm & Hk).
  assert (L'' = L') as -> by congruence.
  apply (Lobby_join_refuses t th n); [done..|].
  exists l, L'. split_and!; [done..|].
  apply prefix_length in Hk. unfold dict_keys in Hk. rewrite !length_fmap in Hk. lia.
Qed.
End LobbyExtends.

Lemma membership_only_grows_witness :
  let w := Scenario.world_after Scenario.paired in
  let labs := [Iterate 1 client_close; Iterate 0 client_close] in
  ∃ L', heap (Scenario.world_after (Scenario.paired ++ labs)) !! 0 = Some L'
        ∧ code L' = "KDQZ" ∧ version L' = Some "v1"
        ∧ [ "Alice"; "Bob" ] `prefix_of` dict_keys (clients L').
Proof.
  intros w labs.
  assert (Hexec : exec Json.loads w labs
                  = Some (Scenario.world_after (Scenario.paired ++ labs)))
    by (vm_compute; reflexivity).
  assert (HL : heap w !! 0 = Some (mkLobby "KDQZ" (Some "v1") [("Alice", Some 0); ("Bob", Some 1)] 2))
    by (vm_compute; reflexivity).
  pose proof (membership_only_grows Json.loads 0 _ w labs _ Hexec HL)
    as (L' & HL' & Hc & Hv & _ & Hk & _).
  exists L'. split; [exact HL'|]. split; [exact Hc|]. split; [exact Hv | exact Hk].
Defined.

Lemma full_lobby_stays_full_witness :
  let w := Scenario.world_after Scenario.paired in
  let labs := [Iterate 1 client_close; Accept; Iterate 2 (Scenario.identify "Carol" "v1")] in
  let w' := Scenario.world_after (Scenario.paired ++ labs) in
  Lobby_join 2 "KDQZ" (Some "v1") w' = Some (w', Raise LobbyFullException).
Proof.
  intros w labs w'.
  assert (Hexec : exec Json.loads w labs = Some w') by (vm_compute; reflexivity).
  assert (HL : heap w !! 0 = Some (mkLobby "KDQZ" (Some "v1") [("Alice", Some 0); ("Bob", Some 1)] 2))
    by (vm_compute; reflexivity).
  assert (HL' : heap w' !! 0 = Some (mkLobby "KDQZ" (Some "v1") [("Alice", Some 0); ("Bob", None)] 2))
    by (vm_compute; reflexivity).
  assert (Hreg : lobbies w' !! "KDQZ" = Some 0) by (vm_compute; reflexivity).
  assert (Hth : threads w' !! 2
                = Some (mkClientThread [] (Some "Carol") (Some "v1") None false Running))
    by (vm_compute; reflexivity).
  exact (full_lobby_stays_full Json.loads 0 _ w labs w' _ "KDQZ" 2 _ "Carol"
           Hexec HL (le_n 2) Hreg HL' Hth eq_refl eq_refl).
Defined.

(** ** Frames over a stream, however it is cut *)

Lemma split_lines_cons line rest :
  delimiter ∉ line →
  split_lines (line ++ delimiter :: rest)
  = (line :: (split_lines rest).1, (split_lines rest).2).
Proof.
  induction line as [|x line IH]; intros Hnot; simpl.
  - by destruct (split_lines rest).
  - apply not_elem_of_cons in Hnot as [Hx Hnot]. rewrite (IH Hnot).
    destruct (Byte.eqb delimiter x) eqn:Heq; [|done].
    by apply Byte.byte_dec_bl in Heq.
Qed.

Lemma split_lines_no_delimiter b : has_delimiter b = false → split_lines b = ([], b).
Proof.
  induction b as [|x b IH]; simpl; [done|].
  intros [Hx Hb]%orb_false_elim. by rewrite (IH Hb), Hx.
Qed.

Lemma split_lines_has_delimiter b :
  has_delimiter b = negb (bool_decide ((split_lines b).1 = [])).
Proof.
  destruct (has_delimiter b) eqn:Hd.
  - destruct (bytes_partition b) as [line after] eqn:Hpart.
    apply bytes_partition_split in Hpart as [-> Hnot]; [|done].
    by rewrite split_lines_cons.
  - by rewrite split_lines_no_delimiter.
Qed.

Lemma split_lines_length b : length (split_lines b).1 ≤ length b.
Proof.
  induction b as [|x b IH]; simpl; [done|].
  destruct (split_lines b) as [lines last]. simpl in IH.
  destruct (Byte.eqb delimiter x); [simpl; lia|].
  destruct lines; simpl in *; lia.
Qed.

(** X15.  What [send_string] puts on a socket, the line reader at the
    other end gives back, however the stream is cut into reads and
    whatever follows it in them: the text is returned, the reads up to
    the one with its newline are taken from the socket, and what
    followed the newline there is kept in the buffer. *)
Theorem sent_line_is_read_back message more chunks rest :
  delimiter ∉ list_byte_of_string message →
  utf8_valid (list_byte_of_string message) = true →
  Forall (λ c, c ≠ []) chunks →
  concat chunks = send_string_bytes message ++ more →
  ∃ chunks1 chunks2 after,
    chunks = chunks1 ++ chunks2
    ∧ NewlineReceiver_call (map RecvData chunks ++ rest) []
      = Some (Return (Some message), after, map RecvData chunks2 ++ rest)
    ∧ after ++ concat chunks2 = more.
Proof.
  intros Hnot Hvalid Hne Hcat. unfold send_string_bytes in Hcat.
  assert (Hd : has_delimiter ([] ++ concat chunks) = true).
  { simpl. rewrite Hcat. apply has_delimiter_elem. set_solver. }
  destruct (recv_loop_chunks chunks [] rest Hne Hd)
    as (chunks1 & chunks2 & -> & Hloop & Hd1 & _).
  simpl in Hloop, Hd1.
  destruct (bytes_partition (concat chunks1)) as [line after] eqn:Hpart.
  pose proof (bytes_partition_split _ _ _ Hd1 Hpart) as [Hsplit Hline].
  rewrite concat_app, Hsplit, <- !app_assoc in Hcat. simpl in Hcat.
  assert (Hsame : split_lines (line ++ delimiter :: after ++ concat chunks2)
                  = split_lines (list_byte_of_string message ++ delimiter :: more))
    by (by rewrite Hcat).
  rewrite !split_lines_cons in Hsame by done.
  exists chunks1, chunks2, after. split; [done|].
  unfold NewlineReceiver_call. rewrite Hloop, Hpart.
  assert (line = list_byte_of_string message) as -> by congruence.
  unfold decode_utf8. rewrite Hvalid, string_of_list_byte_of_string.
  split; [done|]. by apply app_inv_head in Hcat as [= ->].
Qed.

Section Streams.
Context (json_loads : string → option json).

Lemma TestClient_run_loop_chunks lines : ∀ fuel buf chunks last,
  (split_lines (buf ++ concat chunks)).1 = lines → length lines < fuel →
  Forall (λ c, c ≠ []) chunks → end_of_stream last →
  TestClient_run_loop json_loads fuel (map RecvData chunks ++ [last]) buf
  = Some (TestClient_prints json_loads lines).
Proof.
  induction lines as [|line lines IH]; intros fuel buf chunks last Hlines Hfuel Hne Hlast;
    (destruct fuel as [|fuel]; [simpl in Hfuel; lia|]).
  - assert (Hd : has_delimiter (buf ++ concat chunks) = false)
      by (by rewrite split_lines_has_delimiter, Hlines).
    simpl. unfold NewlineReceiver_call. by rewrite recv_loop_chunks_end.
  - assert (Hd : has_delimiter (buf ++ concat chunks) = true)
      by (by rewrite split_lines_has_delimiter, Hlines).
    destruct (recv_loop_chunks chunks buf [last] Hne Hd)
      as (chunks1 & chunks2 & -> & Hloop & Hd1 & _).
    apply Forall_app in Hne as [_ Hne2].
    destruct (bytes_partition (buf ++ concat chunks1)) as [line0 after] eqn:Hpart.
    pose proof (bytes_partition_split _ _ _ Hd1 Hpart) as [Hsplit Hnot].
    rewrite concat_app, app_assoc, Hsplit, <- app_assoc in Hlines. simpl in Hlines.
    rewrite split_lines_cons in Hlines by done. simpl in Hlines.
    injection Hlines as -> Hlines.
    cbn [TestClient_run_loop TestClient_prints]. unfold NewlineReceiver_call.
    rewrite Hloop, Hpart.
    destruct (decode_utf8 line) as [message|e]; [|done].
    destruct (json_loads message) as [d|]; [|done].
    rewrite (IH fuel after chunks2 last Hlines); [|simpl in Hfuel; lia|done..].
    by destruct (TestClient_prints json_loads lines).
Qed.

(** X16.  What the test client prints depends on the bytes it is sent
    and not on how they arrive: on a stream that its peer closes or
    resets, cut into reads in whatever way, [run] prints the complete
    lines of the stream that decode and parse, one after the other, up
    to the first that does not, which ends the thread; after the last
    complete line it returns, and an unfinished line is dropped. *)
Theorem TestClient_run_prints_the_lines chunks last :
  Forall (λ c, c ≠ []) chunks → end_of_stream last →
  TestClient_run json_loads (map RecvData chunks ++ [last])
  = Some (TestClient_prints json_loads (split_lines (concat chunks)).1).
Proof.
  intros Hne Hlast. unfold TestClient_run.
  apply TestClient_run_loop_chunks; [done | | done..].
  rewrite received_app, received_RecvData, length_app.
  pose proof (split_lines_length (concat chunks)). lia.
Qed.
End Streams.

Lemma sent_line_is_read_back_witness :
  let frame := Json.dumps (JObj (connect_frame "Bob")) in
  let b := send_string_bytes frame ++ send_string_bytes frame in
  ∃ after rest,
    NewlineReceiver_call [RecvData (take 7 b); RecvData (take 30 (drop 7 b)); RecvData (drop 37 b)] []
    = Some (Return (Some frame), after, rest)
    ∧ after ++ received rest = send_string_bytes frame.
Proof.
  intros frame b.
  destruct (sent_line_is_read_back frame (send_string_bytes frame)
              [take 7 b; take 30 (drop 7 b); drop 37 b] [])
    as (chunks1 & chunks2 & after & Hsplit & Hcall & Hmore).
  - vm_compute. intros Hin. repeat (apply elem_of_cons in Hin as [[=]|Hin]).
    by apply not_elem_of_nil in Hin.
  - vm_compute. reflexivity.
  - repeat (apply Forall_cons; split; [by vm_compute|]). apply Forall_nil_2.
  - vm_compute. reflexivity.
  - exists after, (map RecvData chunks2). rewrite !app_nil_r in Hcall.
    split; [exact Hcall|]. by rewrite received_RecvData.
Defined.

Lemma TestClient_run_prints_the_lines_witness :
  let frame := Json.dumps (JObj (connect_frame "Bob")) in
  let b := send_string_bytes frame ++ send_string_bytes frame ++ list_byte_of_string frame in
  TestClient_run Json.loads
    [RecvData (take 7 b); RecvData (take 30 (drop 7 b)); RecvData (drop 37 b); RecvReset]
  = Some ([JObj (connect_frame "Bob"); JObj (connect_frame "Bob")], RunReturned).
Proof.
  intros frame b.
  assert (Hne : Forall (λ c : list byte, c ≠ []) [take 7 b; take 30 (drop 7 b); drop 37 b]).
  { repeat (apply Forall_cons; split; [by vm_compute|]). apply Forall_nil_2. }
  refine (eq_trans (TestClient_run_prints_the_lines Json.loads
                      [take 7 b; take 30 (drop 7 b); drop 37 b] RecvReset Hne
                      (or_introl eq_refl)) _).
  vm_compute. reflexivity.
Defined.

(** ** Lines that are JSON and no object *)



(** ** What touches the registry *)

Section RegistryChanges.
Context (json_loads : string → option json).

Lemma preserves_lobbies_handle_message reg t d :
  (∀ kvs, d = JObj kvs → dict_get "action" kvs ≠ Some (JStr "create")) →
  preserves (λ w, lobbies w = reg) (handle_message t d).
Proof.
  intros Hnot.
  assert (Hconn : ∀ l, preserves (λ w, lobbies w = reg) (Lobby_connect l t)).
  { intros l. apply preserves_Lobby_connect; [by intros f w|]. intros n.
    by apply preserves_update_lobby. }
  apply preserves_handle_message; [by intros f w | intros kvs Hd Ha..].
  - apply preserves_action_identify; [by intros f w | intros ?..];
      apply preserves_update_thread_blind; by intros f w.
  - by destruct (Hnot kvs Hd).
  - apply preserves_action_join; [by intros f w | |].
    + intros c v. by apply preserves_Lobby_join.
    + intros l. apply preserves_update_thread_blind. by intros f w.
Qed.

(** X18.  The registry is touched by two things only: a step that
    changes it is a thread's handling of a create message, or a thread
    leaving on the end of its stream.  No identify, join or turn, no
    message that is refused and no exception changes it. *)
Theorem registry_changes_only_by_create_or_leave w t sock w' :
  step json_loads w (Iterate t sock) = Some w' → lobbies w' ≠ lobbies w →
  ∃ th buf,
    threads w !! t = Some th
    ∧ (NewlineReceiver_call sock (buffer th) = Some (Return None, buf, [])
       ∨ ∃ text kvs,
           NewlineReceiver_call sock (buffer th) = Some (Return (Some text), buf, [])
           ∧ json_loads text = Some (JObj kvs)
           ∧ dict_get "action" kvs = Some (JStr "create")).
Proof.
  intros (th & received & buf & w2 & r & Hth & _ & Hrecv & Hrun & ->)%step_Iterate_inv Hne.
  exists th, buf. split; [done|].
  assert (Hsame : lobbies w2 = lobbies w → False).
  { intros Heq. apply Hne. by destruct r as [[]|e]. }
  unfold run_iteration in Hrun. destruct received as [[text|]|e].
  - destruct (json_loads text) as [d|] eqn:Hd;
      [|injection Hrun as <- <-; by destruct Hsame].
    assert (Hcreate : (∃ kvs, d = JObj kvs ∧ dict_get "action" kvs = Some (JStr "create"))
                      ∨ ∀ kvs, d = JObj kvs → dict_get "action" kvs ≠ Some (JStr "create")).
    { destruct d as [| | | | | |kvs]; try (right; by intros kvs' [=]).
      destruct (dict_get "action" kvs) as [a|] eqn:Ha; [|right; intros kvs' [= <-]; by rewrite Ha].
      destruct a as [| | | |s| |]; try (right; intros kvs' [= <-]; by rewrite Ha).
      destruct (decide (s = "create")) as [->|Hs].
      - left. by exists kvs.
      - right. intros kvs' [= <-]. rewrite Ha. by intros [= ?]. }
    destruct Hcreate as [(kvs & -> & Ha)|Hnot]; [right; by exists text, kvs|].
    destruct Hsame.
    apply bind_inv in Hrun as [(w3 & [] & Hh & [= <- <-])|(e & Hh & ->)];
      by eapply (preserves_lobbies_handle_message (lobbies w) t d Hnot _ _ _ Hh).
  - by left.
  - injection Hrun as <- <-. by destruct Hsame.
Qed.
End RegistryChanges.

Lemma registry_changes_only_by_create_or_leave_witness :
  let w := Scenario.world_after Scenario.paired in
  ∃ w' th buf,
    step Json.loads w (Iterate 0 Scenario.create) = Some w'
    ∧ lobbies w' !! "ABCD" = Some 1
    ∧ threads w !! 0 = Some th
    ∧ (NewlineReceiver_call Scenario.create (buffer th) = Some (Return None, buf, [])
       ∨ ∃ text kvs,
           NewlineReceiver_call Scenario.create (buffer th)
           = Some (Return (Some text), buf, [])
           ∧ Json.loads text = Some (JObj kvs)
           ∧ dict_get "action" kvs = Some (JStr "create")).
Proof.
  intros w.
  set (w' := Scenario.world_after (Scenario.paired ++ [Iterate 0 Scenario.create])).
  assert (Hstep : step Json.loads w (Iterate 0 Scenario.create) = Some w')
    by (vm_compute; reflexivity).
  assert (Hnew : lobbies w' !! "ABCD" = Some 1) by (vm_compute; reflexivity).
  assert (Hold : lobbies w !! "ABCD" = None) by (vm_compute; reflexivity).
  assert (Hne : lobbies w' ≠ lobbies w).
  { intros Heq. rewrite Heq, Hold in Hnew. discriminate Hnew. }
  destruct (registry_changes_only_by_create_or_leave Json.loads w 0 Scenario.create w'
              Hstep Hne) as (th & buf & Hth & Hcase).
  exists w', th, buf. split; [exact Hstep|]. split; [exact Hnew|].
  split; [exact Hth | exact Hcase].
Defined.

(** X19.  In every state the server can reach, a lobby that is in the
    registry is registered under the code that the lobby object
    carries, which is four capital letters, and under no other code. *)
Theorem registered_lobby_has_its_one_code json_loads w c l :
  reachable json_loads w → lobbies w !! c = Some l →
  ∃ L, heap w !! l = Some L ∧ code L = c ∧ uppercase_code c
       ∧ ∀ c', lobbies w !! c' = Some l → c' = c.
Proof.
  intros Hreach Hc. pose proof (reachable_registry_ok _ _ Hreach) as Hok.
  destruct (Hok c l Hc) as (L & HL & Hcode & Hup & _).
  exists L. split_and!; [done..|]. intros c' Hc'.
  destruct (Hok c' l Hc') as (L' & HL' & Hcode' & _). congruence.
Qed.

Lemma registered_lobby_has_its_one_code_witness :
  let w := Scenario.world_after (Scenario.paired ++ [Iterate 0 Scenario.create]) in
  ∃ L, heap w !! 1 = Some L ∧ code L = "ABCD" ∧ uppercase_code "ABCD".
Proof.
  intros w.
  destruct (registered_lobby_has_its_one_code Json.loads w "ABCD" 1
              (world_after_reachable _) ltac:(vm_compute; reflexivity))
    as (L & HL & Hcode & Hup & _).
  exists L. split; [exact HL|]. split; [exact Hcode | exact Hup].
Defined.

(** ** What a step does to the lobbies *)

Lemma handled_alive th r th' : handled th r th' → alive th' = alive th.
Proof. by intros []. Qed.

Lemma store_blind (h : list Lobby) (reg : gmap string nat) :
  wire_blind (λ w, heap w = h ∧ lobbies w = reg)
  ∧ threads_blind (λ w, heap w = h ∧ lobbies w = reg).
Proof. by split; intros f w. Qed.

(** A message that is no create and no join touches no lobby, nor the
    registry, nor the lobby of the thread. *)
Lemma handle_message_quiet t d w w' r th :
  assigns_lobby d = false →
  handle_message t d w = Some (w', r) → threads w !! t = Some th →
  heap w' = heap w ∧ lobbies w' = lobbies w
  ∧ ∃ th', threads w' !! t = Some th' ∧ lobby th' = lobby th ∧ alive th' = alive th.
Proof.
  intros Hd Hrun Hth.
  destruct (store_blind (heap w) (lobbies w)) as [Hwire Hthreads].
  assert (heap w' = heap w ∧ lobbies w' = lobbies w) as [Hheap Hlob].
  { eapply (preserves_handle_message _ Hwire t d); [| | |exact Hrun|done].
    - intros kvs _ _. apply preserves_action_identify; [done | intros ?..];
        by apply preserves_update_thread_blind.
    - intros kvs -> Ha. simpl in Hd. by rewrite Ha in Hd.
    - intros kvs -> Ha. simpl in Hd. by rewrite Ha in Hd. }
  do 2 (split; [done|]).
  destruct (handle_message_own _ _ _ _ _ _ Hrun Hth) as (th' & Hth' & Hh).
  exists th'. split; [done|]. split; [|by eapply handled_alive].
  destruct (preserves_thread_lobby_handle_message (λ o, o = lobby th) t t d
              ltac:(auto) _ _ _ Hrun) as (th'' & Hth'' & Hl); [by exists th|].
  congruence.
Qed.

Lemma messages_keep_the_store {A} l d1 d2 (a : A) w w' r :
  (Lobby_message l d1 [] ;; Lobby_message l d2 [] ;; ret a) w = Some (w', r) →
  heap w' = heap w ∧ lobbies w' = lobbies w ∧ threads w' = threads w
  ∧ (r = Return a ∨ ∃ e, r = Raise e).
Proof.
  intros [(w1 & [] & H1 & [(w2 & [] & H2 & [= <- <-])|(e & H2 & ->)]%bind_inv)
         |(e & H1 & ->)]%bind_inv;
    repeat match goal with
      | H : Lobby_message _ _ _ _ = Some _ |- _ =>
          apply Lobby_message_inv in H as (? & ? & ? & ?)
      end;
    split_and!; try congruence; eauto.
Qed.

Lemma action_create_effect t d w w' r th :
  action_create t d w = Some (w', r) → threads w !! t = Some th →
  (heap w' = heap w ∧ lobbies w' = lobbies w ∧ threads w' !! t = Some th)
  ∨ ∃ c L, lobbies w !! c = None ∧ code L = c ∧ omap snd (clients L) = [t]
      ∧ heap w' = heap w ++ [L]
      ∧ lobbies w' = <[c := length (heap w)]> (lobbies w)
      ∧ threads w' !! t
        = Some (match r with
                | Return _ => set_lobby (Some (length (heap w))) th
                | Raise _ => th
                end).
Proof.
  intros Hrun Hth. unfold action_create in Hrun.
  rewrite (bind_run _ _ _ _ _ (get_thread_run _ _ _ Hth)) in Hrun.
  destruct (name th) as [n0|] eqn:Hn.
  2:{ left. by apply send_json_inv in Hrun as [[_ ->]|[_ ->]]. }
  set (gv := game_version th) in Hrun; clearbody gv. right.
  apply bind_inv in Hrun as [(w1 & l & Hcreate & Hup)|(e & Hcreate & ->)];
    apply Lobby_create_inv in Hcreate
      as (c & rest & th0 & n & _ & Hfresh & Hth0 & Hn0 & Hmsgs);
    apply messages_keep_the_store in Hmsgs as (Hheap & Hlob & Hthr & Hr);
    simpl in Hheap, Hlob, Hthr; exists c, (mkLobby c gv [(n, Some t)] 2).
  - destruct Hr as [[= ->]|[e [=]]].
    apply update_thread_inv in Hup as (th1 & Hth1 & -> & ->). simpl.
    rewrite Hthr, Hth in Hth1. injection Hth1 as <-.
    split_and!; try done.
    rewrite list_lookup_insert_eq; [done|]. rewrite Hthr. by eapply lookup_lt_Some.
  - split_and!; try done. by rewrite Hthr.
Qed.

Lemma join_error_except t e : is_Some (join_error e) ↔ is_Some (action_join_except t e).
Proof. destruct e; simpl; split; intros [? [=]]; by eexists. Qed.

Lemma Lobby_join_inv t th n c gv w w' r :
  threads w !! t = Some th → name th = Some n →
  Lobby_join t c gv w = Some (w', r) →
  (w' = w ∧ ∃ e, r = Raise e ∧ is_Some (join_error e))
  ∨ ∃ l L, lobbies w !! c = Some l ∧ heap w !! l = Some L
      ∧ (∀ t', dict_get n (clients L) ≠ Some (Some t'))
      ∧ heap w' = <[l := set_clients (dict_set n (Some t) (clients L)) L]> (heap w)
      ∧ lobbies w' = lobbies w ∧ threads w' = threads w
      ∧ (r = Return l ∨ ∃ e, r = Raise e ∧ join_error e = None).
Proof.
  intros Hth Hn Hjoin.
  destruct r as [l|e].
  - right. destruct (Lobby_join_returns _ _ _ _ _ _ _ _ Hth Hn Hjoin)
      as (L & Hreg & HL & _ & Hheap & Hlob & Hthr & _).
    exists l, L. split_and!; try done; [|by left].
    intros t' Hmember.
    assert (Hagain : Lobby_join t c gv w = Some (w, Raise AlreadyConnectedException)).
    { apply (Lobby_join_refuses t th n); [done..|]. exists l, L, t'.
      split_and!; try done.
      destruct (Lobby_join_returns _ _ _ _ _ _ _ _ Hth Hn Hjoin) as (L' & ? & ? & ? & _).
      congruence. }
    congruence.
  - destruct (Lobby_join_raises _ _ _ _ _ _ _ _ Hth Hn Hjoin) as [(-> & _ & Herr)|He].
    { left. eauto. }
    right. revert Hjoin. unfold Lobby_join. erewrite bind_run by reflexivity.
    destruct (lobbies w !! c) as [l|] eqn:Hreg;
      [|intros [= _ <-]; by destruct He].
    intros [(w1 & L & Hget & Hrun)|(e' & Hget & _)]%bind_inv;
      apply get_lobby_inv in Hget as (-> & L' & HL & Heq); [injection Heq as <-|done].
    case_bool_decide as Hv; simpl in Hrun;
      [|injection Hrun as _ <-; by destruct He].
    rewrite (bind_run _ _ _ _ _ (get_thread_run _ _ _ Hth)), Hn in Hrun.
    assert (Hconn : (∀ t', dict_get n (clients L) ≠ Some (Some t'))
                    ∧ (Lobby_connect l t ;; ret l) w = Some (w', Raise e)).
    { unfold dict_has in Hrun. destruct (dict_get n (clients L)) as [[t'|]|];
        simpl in Hrun; repeat case_bool_decide; simplify_eq/=;
        try (unfold raise in Hrun; simplify_eq; by destruct He); by split. }
    destruct Hconn as [Hfree Hconn].
    apply bind_inv in Hconn as [(? & [] & _ & [=])|(e' & Hconn & [= <-])].
    apply Lobby_connect_post in Hconn
      as (th' & n' & L0 & Hth' & Hn' & HL0 & Hheap & Hlob & Hthr & _).
    assert (n' = n) as -> by congruence. assert (L0 = L) as -> by congruence.
    exists l, L. split_and!; try done. right. exists e. split; [done|].
    by destruct He as [-> | ->].
Qed.

Lemma action_join_effect t d w w' r th :
  action_join t d w = Some (w', r) → threads w !! t = Some th →
  (heap w' = heap w ∧ lobbies w' = lobbies w ∧ threads w' !! t = Some th)
  ∨ ∃ c l L n, name th = Some n ∧ lobbies w !! c = Some l ∧ heap w !! l = Some L
      ∧ (∀ t', dict_get n (clients L) ≠ Some (Some t'))
      ∧ heap w' = <[l := set_clients (dict_set n (Some t) (clients L)) L]> (heap w)
      ∧ lobbies w' = lobbies w
      ∧ threads w' !! t
        = Some (match r with Return _ => set_lobby (Some l) th | Raise _ => th end).
Proof.
  intros Hrun Hth. unfold action_join in Hrun.
  rewrite (bind_run _ _ _ _ _ (get_thread_run _ _ _ Hth)) in Hrun.
  destruct (name th) as [n|] eqn:Hn.
  2:{ left. by apply send_json_inv in Hrun as [[_ ->]|[_ ->]]. }
  assert (Hhandler : ∀ e handler w0 w1 r1,
            action_join_except t e = Some handler → handler w0 = Some (w1, r1) →
            heap w1 = heap w0 ∧ lobbies w1 = lobbies w0 ∧ threads w1 = threads w0).
  { intros e handler w0 w1 r1 He Hh.
    destruct e; simpl in He; try done; injection He as <-;
      by apply send_json_inv in Hh as [[_ ->]|[_ ->]]. }
  unfold try_except in Hrun.
  destruct (dict_get "code" d) as [cv|].
  2:{ left. simpl in Hrun. by injection Hrun as <- <-. }
  set (gv := game_version th) in Hrun; clearbody gv.
  destruct cv as [| | | |c| |]; simpl in Hrun;
    try (left; unfold bind, raise in Hrun; simpl in Hrun;
         first [ injection Hrun as <- <-; done
               | by apply send_json_inv in Hrun as [[_ ->]|[_ ->]] ]).
  unfold bind at 1 in Hrun.
  destruct (Lobby_join t c gv w) as [[w1 r1]|] eqn:Hjoin; [|done].
  destruct (Lobby_join_inv _ _ _ _ _ _ _ _ Hth Hn Hjoin)
    as [(-> & e & -> & Herr)|(l & L & Hreg & HL & Hfree & Hheap & Hlob & Hthr & Hr)].
  - left. apply (join_error_except t) in Herr as [handler Hh]. rewrite Hh in Hrun.
    destruct (Hhandler _ _ _ _ _ Hh Hrun) as (? & ? & Hthr). by rewrite Hthr.
  - right. exists c, l, L, n. destruct Hr as [-> |(e & -> & Herr)].
    + destruct (update_thread t (set_lobby (Some l)) w1) as [[w2 r2]|] eqn:Hup; [|done].
      apply update_thread_inv in Hup as (th1 & Hth1 & -> & ->). injection Hrun as <- <-.
      rewrite Hthr, Hth in Hth1. injection Hth1 as <-. simpl.
      split_and!; try done.
      rewrite list_lookup_insert_eq; [done|]. rewrite Hthr. by eapply lookup_lt_Some.
    + assert (action_join_except t e = None) as Hnone.
      { destruct (action_join_except t e) eqn:Hh; [|done].
        destruct (proj2 (join_error_except t e) (mk_is_Some _ _ Hh)) as [? ?].
        congruence. }
      rewrite Hnone in Hrun. injection Hrun as <- <-.
      split_and!; try done. by rewrite Hthr.
Qed.

Lemma run_exit_effect t w w' r th :
  run_exit t w = Some (w', r) → threads w !! t = Some th →
  (lobby th = None ∧ heap w' = heap w ∧ lobbies w' = lobbies w)
  ∨ ∃ l L n, name th = Some n ∧ lobby th = Some l ∧ heap w !! l = Some L
      ∧ heap w' = <[l := set_clients (dict_set n None (clients L)) L]> (heap w)
      ∧ lobbies w' = (if forallb is_tombstone (dict_values (dict_set n None (clients L)))
                      then delete (code L) (lobbies w) else lobbies w).
Proof.
  intros Hrun Hth. unfold run_exit in Hrun.
  rewrite (bind_run _ _ _ _ _ (get_thread_run _ _ _ Hth)) in Hrun.
  assert (Hclose : ∀ w1 w2 r2,
            (update_thread t (set_socket_closed true) ;;
             modify (set_wire (λ evs, evs ++ [SocketClosed t]))) w1 = Some (w2, r2) →
            heap w2 = heap w1 ∧ lobbies w2 = lobbies w1).
  { intros w1 w2 r2 [(w3 & [] & Hup & [= <- <-])|(e & Hup & _)]%bind_inv;
      by apply update_thread_inv in Hup as (? & ? & -> & ?). }
  destruct (lobby th) as [l|] eqn:Hl.
  2:{ left. erewrite bind_run in Hrun by reflexivity. by apply Hclose in Hrun. }
  right. destruct (name th) as [n|]; [|done].
  assert (Hitems : ∀ items w1 w2 r2, disconnect_items items n w1 = Some (w2, r2) →
            heap w2 = heap w1 ∧ lobbies w2 = lobbies w1).
  { intros items w1 w2 r2 Hitems.
    destruct (store_blind (heap w1) (lobbies w1)) as [Hwire _].
    by eapply (preserves_disconnect_items _ Hwire items n). }
  assert (Hdisc : ∀ w1 r1, Lobby_disconnect l n w = Some (w1, r1) →
            ∃ L, heap w !! l = Some L
              ∧ heap w1 = <[l := set_clients (dict_set n None (clients L)) L]> (heap w)
              ∧ lobbies w1
                = (if forallb is_tombstone (dict_values (dict_set n None (clients L)))
                   then delete (code L) (lobbies w) else lobbies w)).
  { intros w1 r1 (L & HL & Hcases)%Lobby_disconnect_inv. exists L. split; [done|].
    simpl in Hcases.
    destruct Hcases as [(-> & Hnone & -> & _)|[(-> & _ & Hitems')|(-> & Hitems')]].
    - simpl. by rewrite delete_id.
    - by apply Hitems in Hitems' as [-> ->].
    - by apply Hitems in Hitems' as [-> ->]. }
  apply bind_inv in Hrun as [(w1 & [] & Hd & Hrun)|(e & Hd & ->)];
    apply Hdisc in Hd as (L & HL & Hheap & Hlob); exists l, L, n.
  - apply Hclose in Hrun as [-> ->]. done.
  - done.
Qed.

Section LobbyEffect.
Context (json_loads : string → option json).

Lemma step_threads_insert w t sock w' :
  step json_loads w (Iterate t sock) = Some w' →
  ∃ th', threads w' !! t = Some th' ∧ threads w' = <[t := th']> (threads w).
Proof.
  intros Hstep.
  assert (Hlen : length (threads w') = length (threads w)).
  { apply (step_own json_loads (λ w0, length (threads w0) = length (threads w)) t)
      with (sock := sock) (w := w); [by split_and!; intros f w0 | | done | done].
    intros g w0 Hlen. simpl. by rewrite length_alter. }
  assert (Hother : ∀ t', t' ≠ t → threads w' !! t' = threads w !! t').
  { intros t' Hne.
    apply (step_own json_loads (λ w0, threads w0 !! t' = threads w !! t') t)
      with (sock := sock) (w := w); [by split_and!; intros f w0 | | done | done].
    intros g w0 Hlook. simpl. by rewrite list_lookup_alter_ne. }
  pose proof Hstep as (th & _ & _ & _ & _ & Hth & _)%step_Iterate_inv.
  destruct (lookup_lt_is_Some_2 (threads w') t) as [th' Hth'].
  { rewrite Hlen. by eapply lookup_lt_Some. }
  exists th'. split; [done|]. apply list_eq. intros i.
  destruct (decide (i = t)) as [->|Hne].
  - rewrite list_lookup_insert_eq by (by eapply lookup_lt_Some). done.
  - rewrite list_lookup_insert_ne by done. by apply Hother.
Qed.

(** The record of the thread apart, a step of a thread does one of four
    things to the lobbies and the registry. *)
Lemma step_lobby_effect w t sock w' th :
  step json_loads w (Iterate t sock) = Some w' → threads w !! t = Some th →
  ∃ th', threads w' = <[t := th']> (threads w) ∧ lobby_effect t th th' w w'.
Proof.
  intros Hstep Hth.
  destruct (step_threads_insert _ _ _ _ Hstep) as (th' & Hth' & Hthreads).
  exists th'. split; [done|].
  apply step_Iterate_inv in Hstep
    as (th0 & received & buf & w2 & r & Hth0 & Halive & _ & Hrun & ->).
  assert (th0 = th) as -> by congruence.
  assert (Hlt : t < length (threads w)) by (by eapply lookup_lt_Some).
  remember (set_threads (λ ts, <[t := set_buffer buf th]> ts) w) as w1 eqn:Hw1.
  assert (Hth1 : threads w1 !! t = Some (set_buffer buf th))
    by (subst w1; by apply list_lookup_insert_eq).
  assert (Hheap1 : heap w1 = heap w) by (by subst w1).
  assert (Hlob1 : lobbies w1 = lobbies w) by (by subst w1).
  clear Hw1.
  assert (Hcrash : ∀ e, threads (set_threads (alter (set_alive (Crashed e)) t) w2) !! t
                        = Some th' → alive th' ≠ Running).
  { intros e. simpl. rewrite list_lookup_alter_eq.
    destruct (threads w2 !! t); [|done]. by intros [= <-]. }
  assert (Hquiet : ∀ e, heap w2 = heap w1 → lobbies w2 = lobbies w1 →
            threads (set_threads (alter (set_alive (Crashed e)) t) w2) !! t = Some th' →
            lobby_effect t th th' w (set_threads (alter (set_alive (Crashed e)) t) w2)).
  { intros e Hh Hl Hlook. apply effect_quiet; simpl; [congruence..|].
    intros Hrunning. by destruct (Hcrash e Hlook). }
  unfold run_iteration in Hrun. destruct received as [[text|]|e].
  - destruct (json_loads text) as [d|]; [|injection Hrun as <- <-; by apply Hquiet].
    apply bind_inv in Hrun as [(w3 & [] & Hh & [= <- <-])|(e & Hh & ->)].
    + destruct (assigns_lobby d) eqn:Hassign.
      * destruct d as [| | | | | |kvs]; try done. simpl in Hassign, Hh.
        destruct (dict_get "action" kvs) as [a|]; [|done].
        destruct (is_str "identify" a) eqn:Hi.
        { destruct a; try done. simpl in Hi. apply bool_decide_eq_true_1 in Hi as <-.
          by vm_compute in Hassign. }
        destruct (is_str "create" a) eqn:Hc.
        -- destruct (action_create_effect _ _ _ _ _ _ Hh Hth1)
             as [(Hheap & Hlob & Hsame)|(c & L & ? & ? & ? & Hheap & Hlob & Hnew)].
           ++ apply effect_quiet; [congruence..|]. intros _.
              assert (th' = set_buffer buf th) as -> by congruence. done.
           ++ apply (effect_create _ _ _ _ _ c L); try congruence.
              intros _. assert (th' = set_lobby (Some (length (heap w1))) (set_buffer buf th))
                as -> by congruence.
              simpl. congruence.
        -- simpl in Hassign. rewrite Hassign in Hh.
           destruct (action_join_effect _ _ _ _ _ _ Hh Hth1)
             as [(Hheap & Hlob & Hsame)
                |(c & l & L & n & Hname & ? & ? & ? & Hheap & Hlob & Hnew)];
             try (simpl in Hname).
           ++ apply effect_quiet; [congruence..|]. intros _.
              assert (th' = set_buffer buf th) as -> by congruence. done.
           ++ apply (effect_join _ _ _ _ _ c l L n); try congruence.
              intros _. assert (th' = set_lobby (Some l) (set_buffer buf th))
                as -> by congruence.
              done.
      * destruct (handle_message_quiet _ _ _ _ _ _ Hassign Hh Hth1)
          as (Hheap & Hlob & th2 & Hth2 & Hl2 & _).
        apply effect_quiet; [congruence..|]. intros _.
        assert (th' = th2) as -> by congruence. done.
    + pose proof (Hcrash e Hth') as Hdead.
      destruct (assigns_lobby d) eqn:Hassign.
      * destruct d as [| | | | | |kvs]; try done. simpl in Hassign, Hh.
        destruct (dict_get "action" kvs) as [a|]; [|done].
        destruct (is_str "identify" a) eqn:Hi.
        { destruct a; try done. simpl in Hi. apply bool_decide_eq_true_1 in Hi as <-.
          by vm_compute in Hassign. }
        destruct (is_str "create" a) eqn:Hc.
        -- destruct (action_create_effect _ _ _ _ _ _ Hh Hth1)
             as [(Hheap & Hlob & Hsame)|(c & L & ? & ? & ? & Hheap & Hlob & Hnew)].
           ++ by apply Hquiet.
           ++ apply (effect_create _ _ _ _ _ c L); simpl; congruence.
        -- simpl in Hassign. rewrite Hassign in Hh.
           destruct (action_join_effect _ _ _ _ _ _ Hh Hth1)
             as [(Hheap & Hlob & Hsame)
                |(c & l & L & n & Hname & ? & ? & ? & Hheap & Hlob & Hnew)];
             try (simpl in Hname).
           ++ by apply Hquiet.
           ++ apply (effect_join _ _ _ _ _ c l L n); simpl; congruence.
      * destruct (handle_message_quiet _ _ _ _ _ _ Hassign Hh Hth1) as (Hheap & Hlob & _).
        by apply Hquiet.
  - apply bind_inv in Hrun as [(w3 & [] & Hexit & [= <- <-])|(e & Hexit & ->)].
    + assert (Hdead : alive th' ≠ Running).
      { simpl in Hth'. rewrite list_lookup_alter_eq in Hth'.
        destruct (threads w3 !! t); [|done]. by injection Hth' as <-. }
      destruct (run_exit_effect _ _ _ _ _ Hexit Hth1)
        as [(Hl & Hheap & Hlob)|(l & L & n & Hname & Hl & HL & Hheap & Hlob)];
        try (simpl in Hname).
      * apply effect_quiet; simpl; [congruence..|]. intros Hrunning. by destruct Hdead.
      * simpl in Hl. rewrite Hheap1 in HL, Hheap. rewrite Hlob1 in Hlob.
        by apply (effect_leave _ _ _ _ _ l L n).
    + pose proof (Hcrash e Hth') as Hdead.
      destruct (run_exit_effect _ _ _ _ _ Hexit Hth1)
        as [(Hl & Hheap & Hlob)|(l & L & n & Hname & Hl & HL & Hheap & Hlob)];
        try (simpl in Hname).
      * apply effect_quiet; simpl; [congruence..|]. intros Hrunning. by destruct Hdead.
      * simpl in Hl. rewrite Hheap1 in HL, Hheap. rewrite Hlob1 in Hlob.
        by apply (effect_leave _ _ _ _ _ l L n).
  - injection Hrun as <- <-. by apply Hquiet.
Qed.

(** X20.  A step of a thread changes the record of that thread only,
    and does one of four things to the lobbies and the registry:
    nothing, and then the lobby of the thread stays as it is if the
    thread goes on; or it makes a lobby with the thread as its only
    member and registers it under a code that was free; or it enters
    the thread in a registered lobby under a name that no thread is
    entered under; or the thread leaves its lobby, which gets a
    tombstone under the name of the thread and goes out of the registry
    if that was its last entry. *)
Theorem step_is_quiet_or_creates_or_joins_or_leaves w t sock w' th :
  step json_loads w (Iterate t sock) = Some w' → threads w !! t = Some th →
  ∃ th', threads w' = <[t := th']> (threads w) ∧ lobby_effect t th th' w w'.
Proof. apply step_lobby_effect. Qed.
End LobbyEffect.

Lemma step_is_quiet_or_creates_or_joins_or_leaves_witness :
  let w := Scenario.world_after Scenario.bob_left in
  ∃ w' th', step Json.loads w (Iterate 0 client_close) = Some w'
            ∧ threads w' = <[0 := th']> (threads w)
            ∧ lobby_effect 0 (mkClientThread [] (Some "Alice") (Some "v1") (Some 0) false Running)
                th' w w'.
Proof.
  intros w.
  set (w' := Scenario.world_after (Scenario.bob_left ++ [Iterate 0 client_close])).
  assert (Hstep : step Json.loads w (Iterate 0 client_close) = Some w')
    by (vm_compute; reflexivity).
  assert (Hth : threads w !! 0
                = Some (mkClientThread [] (Some "Alice") (Some "v1") (Some 0) false Running))
    by (vm_compute; reflexivity).
  destruct (step_is_quiet_or_creates_or_joins_or_leaves Json.loads w 0 client_close w' _
              Hstep Hth) as (th' & Hthreads & Heffect).
  exists w', th'. split; [exact Hstep|]. split; [exact Hthreads | exact Heffect].
Defined.

(** ** The lobby of a running thread is registered *)








Section CoverAndRegistered.
Context (json_loads : string → option json).




End CoverAndRegistered.


